(** * Elemental: blocked panel routines over distributed matrices

    A shallow embedding of the panel routines of Elemental
    ([TrsmLLN], [TrmmRLT], [TridiagL], [Trr2kNNTT]), of the vector norm
    [blas::Nrm2], of the power iteration [TwoNormEstimate] and of the
    [[* ,MC]] distributed-matrix class, together with the properties the
    specification states about them; and of the code around them: the
    variants of the norm estimate, the constructors of the class, the
    comparison loops of the [Syrk] test and the assembly and exchanges of
    the sparse [LeastSquares], with properties read off the code. *)

From Stdlib Require Import ZArith List Lia Bool Arith FinFun.
From Stdlib Require Import String Ascii DecimalString Field.
From Stdlib Require Import QArith Qcanon Qabs.
From Stdlib Require Import Reals Lra.
Import ListNotations.

Close Scope R_scope.
Close Scope Qc_scope.
Close Scope Q_scope.
Open Scope nat_scope.

(* ===================================================================== *)
(** ** Trr2kNNTT: the panel sweep of [El::trr2k::Trr2kNNTT]               *)
(* ===================================================================== *)

Module Trr2k.

Local Open Scope Z_scope.

(** [Int] is Elemental's signed index type.  Extents and block sizes are
    taken in the range where [k+bsize] does not leave the machine type
    (signed overflow has no defined behaviour in the source language). *)
Definition Int := Z.

(** [El::Min]. *)
Definition Min (a b : Int) : Int := if b <? a then b else a.

(** [Range<Int>( beg, end )]: the half-open index range [beg,end). *)
Record Range := mkRange { beg : Int; end_ : Int }.

(** The indices a range denotes, in increasing order. *)
Definition indices (rg : Range) : list Int :=
  map (fun i => beg rg + Z.of_nat i) (seq 0 (Z.to_nat (end_ rg - beg rg))).

(** The views one iteration takes and redistributes:
    [A1 = A( outerInd, ind1 )], [B1 = B( ind1, outerInd )],
    [C1 = C( ind1, outerInd )], [D1 = D( outerInd, ind1 )]. *)
Record Panel := mkPanel {
  k    : Int;
  nb   : Int;
  ind1 : Range;
  A1   : Range * Range;
  B1   : Range * Range;
  C1   : Range * Range;
  D1   : Range * Range
}.

(** One pass through the body of the [for] loop, at counter [k]. *)
Definition body (n r bsize k : Int) : Panel :=
  let outerInd := mkRange 0 n in
  let nb := Min bsize (r - k) in
  let ind1 := mkRange k (k + nb) in
  mkPanel k nb ind1 (outerInd, ind1) (ind1, outerInd)
                    (ind1, outerInd) (outerInd, ind1).

(** [for( Int k=0; k<r; k+=bsize ) { ... }], the loop unrolled at most
    [fuel] times; [None] when the fuel does not reach the loop exit. *)
Fixpoint sweep_from (fuel : nat) (n r bsize k : Int) : option (list Panel) :=
  if k <? r then
    match fuel with
    | O => None
    | S fuel' =>
        match sweep_from fuel' n r bsize (k + bsize) with
        | Some ps => Some (body n r bsize k :: ps)
        | None => None
        end
    end
  else Some [].

(** The panels [Trr2kNNTT] visits for an [n x n] target [E] and inner
    extent [r = APre.Width()], under block size [bsize = Blocksize()]. *)
Definition Trr2kNNTT_panels (fuel : nat) (n r bsize : Int) :
  option (list Panel) :=
  sweep_from fuel n r bsize 0.

Lemma Min_spec (a b : Int) : Min a b = Z.min a b.
Proof. unfold Min. destruct (Z.ltb_spec b a); lia. Qed.

Lemma seq_add_map (len s d : nat) :
  seq (d + s) len = map (fun i => (d + i)%nat) (seq s len).
Proof.
  revert s. induction len as [|len IH]; intros s; simpl; [reflexivity|].
  f_equal. rewrite <- IH. f_equal. lia.
Qed.

Lemma indices_split (a b c : Int) :
  a <= b -> b <= c ->
  indices (mkRange a c) = indices (mkRange a b) ++ indices (mkRange b c).
Proof.
  intros Hab Hbc. unfold indices; simpl.
  replace (Z.to_nat (c - a)) with (Z.to_nat (b - a) + Z.to_nat (c - b))%nat
    by lia.
  rewrite seq_app, map_app. f_equal.
  rewrite Nat.add_0_l.
  rewrite <- (Nat.add_0_r (Z.to_nat (b - a))) at 1.
  rewrite seq_add_map, map_map. apply map_ext. intros i. lia.
Qed.

Lemma indices_NoDup (rg : Range) : NoDup (indices rg).
Proof.
  unfold indices. apply Injective_map_NoDup; [|apply seq_NoDup].
  intros i j Hij. lia.
Qed.

(** The sweep started at counter [k]: with enough fuel it ends, every
    panel has the extent [min(bsize, r-k)], and the panels enumerate
    [k, r) from left to right. *)
Lemma sweep_from_spec (fuel : nat) :
  forall n r bsize k0,
    0 < bsize -> 0 <= k0 -> (Z.to_nat (r - k0) <= fuel)%nat ->
    exists ps,
      sweep_from fuel n r bsize k0 = Some ps /\
      Forall (fun p => 0 <= k p /\ k p < r /\
                       nb p = Z.min bsize (r - k p) /\
                       ind1 p = mkRange (k p) (k p + nb p)) ps /\
      flat_map (fun p => indices (ind1 p)) ps = indices (mkRange k0 r).
Proof.
  induction fuel as [|fuel IH]; intros n r bsize k0 Hb Hk Hfuel;
    simpl; destruct (Z.ltb_spec k0 r) as [Hlt|Hge];
    try lia;
    try (exists []; repeat split; [constructor|];
         unfold indices; simpl;
         replace (Z.to_nat (r - k0)) with 0%nat by lia; reflexivity).
  destruct (IH n r bsize (k0 + bsize)) as (ps & Hps & Hall & Hcover);
    try lia.
  rewrite Hps. eexists; split; [reflexivity|]. split.
  - constructor; [|exact Hall].
    simpl. rewrite Min_spec. repeat split; lia.
  - simpl. rewrite Hcover, Min_spec.
    destruct (Z.le_gt_cases bsize (r - k0)) as [Hfull|Hpart].
    + rewrite Z.min_l by lia. symmetry. apply indices_split; lia.
    + rewrite Z.min_r by lia.
      replace (k0 + (r - k0)) with r by lia.
      unfold indices at 2; simpl.
      replace (Z.to_nat (r - (k0 + bsize))) with 0%nat by lia.
      simpl. apply app_nil_r.
Qed.

(** C3.  In the sweep of [Trr2kNNTT] every iteration takes a block of
    exactly [min(bsize, r-k)] indices starting at the advancing edge [k];
    the blocks are non-empty, stay inside [0,r), follow one another without
    gap or overlap and together enumerate [0,r) once; a last block with
    fewer than [bsize] indices left has exactly the remaining extent and
    ends at [r]. *)
Theorem Trr2kNNTT_blocks_partition (n r bsize : Int) (fuel : nat) :
  0 < bsize -> (Z.to_nat r <= fuel)%nat ->
  exists ps,
    Trr2kNNTT_panels fuel n r bsize = Some ps /\
    Forall (fun p => ind1 p = mkRange (k p) (k p + nb p) /\
                     nb p = Z.min bsize (r - k p) /\
                     0 < nb p <= bsize /\ 0 <= k p /\ k p + nb p <= r) ps /\
    flat_map (fun p => indices (ind1 p)) ps = indices (mkRange 0 r) /\
    NoDup (flat_map (fun p => indices (ind1 p)) ps) /\
    (forall p, In p ps -> r - k p < bsize ->
               nb p = r - k p /\ end_ (ind1 p) = r).
Proof.
  intros Hb Hfuel.
  destruct (sweep_from_spec fuel n r bsize 0) as (ps & Hps & Hall & Hcover);
    try (rewrite ?Z.sub_0_r; lia).
  exists ps. split; [exact Hps|].
  split; [|split; [exact Hcover|split]].
  - eapply Forall_impl; [|exact Hall].
    intros p (H0 & Hlt & Hnb & Hind).
    repeat split; try assumption; lia.
  - rewrite Hcover. apply indices_NoDup.
  - intros p Hin Hrem.
    rewrite Forall_forall in Hall.
    destruct (Hall p Hin) as (H0 & Hlt & Hnb & Hind).
    rewrite Hind; simpl. lia.
Qed.

(** The sweep over an inner extent of 7 with block size 3. *)
Lemma Trr2kNNTT_blocks_partition_witness :
  exists ps,
    Trr2kNNTT_panels 7 5 7 3 = Some ps /\
    flat_map (fun p => indices (ind1 p)) ps = indices (mkRange 0 7).
Proof.
  destruct (Trr2kNNTT_blocks_partition 5 7 3 7) as (ps & Hps & _ & Hc & _).
  - lia.
  - simpl; lia.
  - exists ps. split; assumption.
Defined.

Example sweep_7_by_3 :
  option_map (map (fun p => (k p, nb p))) (Trr2kNNTT_panels 7 5 7 3)
  = Some [(0, 3); (3, 3); (6, 1)].
Proof. reflexivity. Qed.

(** *** The conformality check and the views *)

(** The extents of the five operands. *)
Record Extents := mkExtents {
  APre_Height : Int; APre_Width : Int;
  BPre_Height : Int; BPre_Width : Int;
  CPre_Height : Int; CPre_Width : Int;
  DPre_Height : Int; DPre_Width : Int;
  EPre_Height : Int; EPre_Width : Int
}.

(** The condition of the check inside [DEBUG_ONLY]. *)
Definition Nonconformal (x : Extents) : bool :=
  negb (EPre_Height x =? EPre_Width x) ||
  negb (APre_Width x =? CPre_Height x) ||
  negb (APre_Height x =? EPre_Height x) ||
  negb (CPre_Width x =? EPre_Height x) ||
  negb (BPre_Width x =? EPre_Width x) ||
  negb (DPre_Height x =? EPre_Width x) ||
  negb (APre_Width x =? BPre_Height x) ||
  negb (CPre_Height x =? DPre_Width x).

(** [Trr2kNNTT] as far as its extents go, in a build with or without the
    debugging checks: the text of the [LogicError], or the panels of the
    sweep with [n = EPre.Height()] and [r = APre.Width()]. *)
Definition Trr2kNNTT (DEBUG : bool) (fuel : nat) (bsize : Int) (x : Extents)
  : option (string + list Panel) :=
  if DEBUG && Nonconformal x then Some (inl "Nonconformal Trr2kNNTT"%string)
  else match Trr2kNNTT_panels fuel (EPre_Height x) (APre_Width x) bsize with
       | Some ps => Some (inr ps)
       | None => None
       end.

(** A view [M( rows, cols )] that lies inside a matrix of the given
    extents. *)
Definition lies_inside (v : Range * Range) (height width : Int) : Prop :=
  (0 <= beg (fst v) <= end_ (fst v) /\ end_ (fst v) <= height) /\
  (0 <= beg (snd v) <= end_ (snd v) /\ end_ (snd v) <= width).

Lemma sweep_from_views (fuel : nat) :
  forall n r bsize k0 ps,
    sweep_from fuel n r bsize k0 = Some ps ->
    Forall (fun p => A1 p = (mkRange 0 n, ind1 p) /\
                     B1 p = (ind1 p, mkRange 0 n) /\
                     C1 p = (ind1 p, mkRange 0 n) /\
                     D1 p = (mkRange 0 n, ind1 p)) ps.
Proof.
  induction fuel as [|fuel IH]; intros n r bsize k0 ps; simpl;
    destruct (k0 <? r); try discriminate;
    try (intros [= <-]; constructor).
  destruct (sweep_from fuel n r bsize (k0 + bsize)) as [ps'|] eqn:E;
    [|discriminate].
  intros [= <-]. constructor; [|eapply IH; eassumption].
  simpl. auto.
Qed.

Lemma Nonconformal_false (x : Extents) :
  Nonconformal x = false <->
  (APre_Height x = EPre_Height x /\ BPre_Height x = APre_Width x /\
   BPre_Width x = EPre_Height x /\ CPre_Height x = APre_Width x /\
   CPre_Width x = EPre_Height x /\ DPre_Height x = EPre_Height x /\
   DPre_Width x = APre_Width x /\ EPre_Width x = EPre_Height x).
Proof.
  unfold Nonconformal.
  rewrite !orb_false_iff, !negb_false_iff, !Z.eqb_eq. lia.
Qed.

(** X8.  The check of [Trr2kNNTT] accepts exactly the operands with
    A of n x r, B and C of r x n, D of n x r and E of n x n.  In a build
    with the debugging checks any other operands end in
    [LogicError("Nonconformal Trr2kNNTT")] before the sweep; operands that
    pass are swept in either build, and every view [A1], [B1], [C1], [D1]
    of every iteration lies inside its operand. *)
Theorem Trr2kNNTT_check_keeps_views_inside
  (DEBUG : bool) (fuel : nat) (bsize : Int) (x : Extents) :
  0 < bsize -> 0 <= EPre_Height x ->
  (Z.to_nat (APre_Width x) <= fuel)%nat ->
  (Nonconformal x = true ->
   Trr2kNNTT true fuel bsize x = Some (inl "Nonconformal Trr2kNNTT"%string)) /\
  (Nonconformal x = false <->
   (APre_Height x = EPre_Height x /\ BPre_Height x = APre_Width x /\
    BPre_Width x = EPre_Height x /\ CPre_Height x = APre_Width x /\
    CPre_Width x = EPre_Height x /\ DPre_Height x = EPre_Height x /\
    DPre_Width x = APre_Width x /\ EPre_Width x = EPre_Height x)) /\
  (Nonconformal x = false ->
   exists ps,
     Trr2kNNTT DEBUG fuel bsize x = Some (inr ps) /\
     Forall (fun p =>
               lies_inside (A1 p) (APre_Height x) (APre_Width x) /\
               lies_inside (B1 p) (BPre_Height x) (BPre_Width x) /\
               lies_inside (C1 p) (CPre_Height x) (CPre_Width x) /\
               lies_inside (D1 p) (DPre_Height x) (DPre_Width x)) ps).
Proof.
  intros Hb Hn Hfuel. split; [|split].
  - intros H. unfold Trr2kNNTT. now rewrite H.
  - apply Nonconformal_false.
  - intros Hok. unfold Trr2kNNTT. rewrite Hok, andb_false_r.
    apply Nonconformal_false in Hok.
    destruct (sweep_from_spec fuel (EPre_Height x) (APre_Width x) bsize 0)
      as (ps & Hps & Hall & _); try (rewrite ?Z.sub_0_r; lia).
    unfold Trr2kNNTT_panels. rewrite Hps.
    exists ps. split; [reflexivity|].
    pose proof (sweep_from_views _ _ _ _ _ _ Hps) as Hviews.
    rewrite Forall_forall in *. intros p Hin.
    destruct (Hall p Hin) as (H0 & Hlt & Hnb & Hind).
    destruct (Hviews p Hin) as (HA & HB & HC & HD).
    rewrite HA, HB, HC, HD, Hind. unfold lies_inside. simpl. lia.
Qed.

(** Operands of 5 x 7, 7 x 5, 7 x 5, 5 x 7 and 5 x 5 under block size 3. *)
Lemma Trr2kNNTT_check_keeps_views_inside_witness :
  exists ps,
    Trr2kNNTT true 7 3 (mkExtents 5 7 7 5 7 5 5 7 5 5) = Some (inr ps) /\
    Forall (fun p => lies_inside (B1 p) 7 5) ps.
Proof.
  destruct (Trr2kNNTT_check_keeps_views_inside true 7 3
              (mkExtents 5 7 7 5 7 5 5 7 5 5))
    as (_ & _ & Hin).
  - lia.
  - simpl; lia.
  - simpl; lia.
  - destruct Hin as (ps & Hps & Hall); [reflexivity|].
    exists ps. split; [exact Hps|].
    eapply Forall_impl; [|exact Hall]. intros p (_ & HB & _). exact HB.
Defined.

(** X20.  The loop [for( Int k=0; k<r; k+=bsize )] relies on a positive
    block size: under [Blocksize() = 0] and a non-empty inner extent r the
    counter stays at 0 and the sweep of [Trr2kNNTT] does not end, however
    many iterations it is given; under a positive block size it ends
    within r iterations. *)
Theorem Trr2kNNTT_needs_a_positive_blocksize (n r : Int) :
  0 < r ->
  (forall fuel, Trr2kNNTT_panels fuel n r 0 = None) /\
  (forall bsize, 0 < bsize ->
     exists ps, Trr2kNNTT_panels (Z.to_nat r) n r bsize = Some ps).
Proof.
  intros Hr. split.
  - unfold Trr2kNNTT_panels. intros fuel.
    induction fuel as [|fuel IH]; cbn [sweep_from];
      destruct (Z.ltb_spec 0 r); try lia; [reflexivity|].
    cbn [Z.add]. now rewrite IH.
  - intros bsize Hb.
    destruct (sweep_from_spec (Z.to_nat r) n r bsize 0 Hb)
      as (ps & Hps & _); try lia.
    exists ps. exact Hps.
Qed.

Lemma Trr2kNNTT_needs_a_positive_blocksize_witness :
  Trr2kNNTT_panels 1000 5 7 0 = None.
Proof.
  apply (Trr2kNNTT_needs_a_positive_blocksize 5 7). lia.
Defined.

End Trr2k.

(* ===================================================================== *)
(** ** namespace elemental: matrices, views and the panel routines        *)
(* ===================================================================== *)

Module Elemental.

(** Extents, offsets and block sizes are the non-negative [int]s of the
    sources, taken as natural numbers. *)

(** [enum Diagonal], [enum Orientation] and the distribution tags. *)
Inductive Diagonal := NonUnit | Unit.
Inductive Orientation := Normal | Transpose | ConjugateTranspose.
Inductive Distribution := MC | MD | MR | VC | VR | Star.

Definition Orientation_eqb (a b : Orientation) : bool :=
  match a, b with
  | Normal, Normal | Transpose, Transpose
  | ConjugateTranspose, ConjugateTranspose => true
  | _, _ => false
  end.

(** A process grid of [gridHeight] x [gridWidth] processes; [gridId]
    stands for the identity of the [Grid] object. *)
Record Grid := mkGrid { gridId : nat; gridHeight : nat; gridWidth : nat }.

(** Modelled from the spec: [operator!=] on grids is not part of the
    sources at hand.  Section 3: a grid is created once and shared by
    every matrix that references it; two matrices are on the same grid
    when they refer to the same grid object. *)
Definition Grid_neq (g h : Grid) : bool := negb (gridId g =? gridId h).

(** A view: a sub-rectangle of a parent matrix, aliasing its storage.
    It is given by its offset in the parent and its extents. *)
Record View := mkView { vi : nat; vj : nat; vHeight : nat; vWidth : nat }.

(** [B.View( A, i, j, height, width )] for a view [A] of the same parent. *)
Definition subView (A : View) (i j height width : nat) : View :=
  mkView (vi A + i) (vj A + j) height width.

(** The partitions the sweeps keep: [AT/AB], [A0/A1/A2] (stacked or side
    by side), [AL|AR], the 2 x 2 partition around the diagonal and its
    3 x 3 repartition. *)
Record Part2x1 := mkPart2x1 { pT : View; pB : View }.
Record Part3x1 := mkPart3x1 { p0 : View; p1 : View; p2 : View }.
Record Part1x2 := mkPart1x2 { pL : View; pR : View }.
Record Part2x2 := mkPart2x2 { pTL : View; pTR : View; pBL : View; pBR : View }.
Record Part3x3 := mkPart3x3 {
  p00 : View; p01 : View; p02 : View;
  p10 : View; p11 : View; p12 : View;
  p20 : View; p21 : View; p22 : View }.

(** Modelled from the spec: the partition helpers ([PartitionDown],
    [RepartitionDown], [SlidePartitionDown] and their leftward, diagonal
    and upward variants) are called by the routines and are not part of
    the sources at hand.  Sections 3 and 4.4: a partition is an ordered
    split of the index range into disjoint, contiguous sub-ranges whose
    views alias the parent; the sweep starts with the boundary at one
    end, carves a panel of extent [min(blockSize, remainingExtent)] from
    the advancing edge, and slides the boundary past the panel.
    [PartitionDown( A, AT, AB, heightAT )]. *)
Definition PartitionDown (A : View) (heightAT : nat) : Part2x1 :=
  let hT := Nat.min heightAT (vHeight A) in
  mkPart2x1 (subView A 0 0 hT (vWidth A))
            (subView A hT 0 (vHeight A - hT) (vWidth A)).

(** Modelled from the spec: [RepartitionDown( AT, A0, A1, AB, A2 )] cuts
    [A1], of height [min(bsize, AB.Height())], from the top of [AB]. *)
Definition RepartitionDown (P : Part2x1) (bsize : nat) : Part3x1 :=
  let AB := pB P in
  let nb := Nat.min bsize (vHeight AB) in
  mkPart3x1 (pT P)
            (subView AB 0 0 nb (vWidth AB))
            (subView AB nb 0 (vHeight AB - nb) (vWidth AB)).

(** Modelled from the spec: [SlidePartitionDown( AT, A0, A1, AB, A2 )]
    moves [A1] into the top part. *)
Definition SlidePartitionDown (R : Part3x1) : Part2x1 :=
  mkPart2x1 (mkView (vi (p0 R)) (vj (p0 R))
                    (vHeight (p0 R) + vHeight (p1 R)) (vWidth (p0 R)))
            (p2 R).

(** Modelled from the spec: [PartitionLeft( A, AL, AR, widthAR )]. *)
Definition PartitionLeft (A : View) (widthAR : nat) : Part1x2 :=
  let wR := Nat.min widthAR (vWidth A) in
  mkPart1x2 (subView A 0 0 (vHeight A) (vWidth A - wR))
            (subView A 0 (vWidth A - wR) (vHeight A) wR).

(** Modelled from the spec: [RepartitionLeft( AL, AR, A0, A1, A2 )] cuts
    [A1], of width [min(bsize, AL.Width())], from the right edge of
    [AL]. *)
Definition RepartitionLeft (P : Part1x2) (bsize : nat) : Part3x1 :=
  let AL := pL P in
  let nb := Nat.min bsize (vWidth AL) in
  mkPart3x1 (subView AL 0 0 (vHeight AL) (vWidth AL - nb))
            (subView AL 0 (vWidth AL - nb) (vHeight AL) nb)
            (pR P).

(** Modelled from the spec: [SlidePartitionLeft( AL, AR, A0, A1, A2 )]
    moves [A1] into the right part. *)
Definition SlidePartitionLeft (R : Part3x1) : Part1x2 :=
  mkPart1x2 (p0 R)
            (mkView (vi (p1 R)) (vj (p1 R))
                    (vHeight (p1 R)) (vWidth (p1 R) + vWidth (p2 R))).

(** Modelled from the spec:
    [PartitionDownDiagonal( A, ATL, ATR, ABL, ABR, diagATL )]. *)
Definition PartitionDownDiagonal (A : View) (diagATL : nat) : Part2x2 :=
  let d := Nat.min diagATL (Nat.min (vHeight A) (vWidth A)) in
  mkPart2x2 (subView A 0 0 d d)
            (subView A 0 d d (vWidth A - d))
            (subView A d 0 (vHeight A - d) d)
            (subView A d d (vHeight A - d) (vWidth A - d)).

(** Modelled from the spec: [RepartitionDownDiagonal] cuts the square
    [A11], of extent [min(bsize, ABR.Height(), ABR.Width())], from the
    top left corner of [ABR]. *)
Definition RepartitionDownDiagonal (P : Part2x2) (bsize : nat) : Part3x3 :=
  let ATL := pTL P in let ATR := pTR P in
  let ABL := pBL P in let ABR := pBR P in
  let nb := Nat.min bsize (Nat.min (vHeight ABR) (vWidth ABR)) in
  let hB := vHeight ABR - nb in
  let wR := vWidth ABR - nb in
  mkPart3x3
    ATL                                  (subView ATR 0 0 (vHeight ATL) nb)
                                         (subView ATR 0 nb (vHeight ATL) wR)
    (subView ABL 0 0 nb (vWidth ATL))    (subView ABR 0 0 nb nb)
                                         (subView ABR 0 nb nb wR)
    (subView ABL nb 0 hB (vWidth ATL))   (subView ABR nb 0 hB nb)
                                         (subView ABR nb nb hB wR).

(** Modelled from the spec: [SlidePartitionDownDiagonal] moves [A11] (with
    [A01] and [A10]) into the top left part. *)
Definition SlidePartitionDownDiagonal (R : Part3x3) : Part2x2 :=
  let h := vHeight (p00 R) + vHeight (p11 R) in
  let w := vWidth (p00 R) + vWidth (p11 R) in
  mkPart2x2
    (mkView (vi (p00 R)) (vj (p00 R)) h w)
    (mkView (vi (p02 R)) (vj (p02 R)) h (vWidth (p02 R)))
    (mkView (vi (p20 R)) (vj (p20 R)) (vHeight (p20 R)) w)
    (p22 R).

(** Modelled from the spec:
    [PartitionUpDiagonal( A, ATL, ATR, ABL, ABR, diagABR )]. *)
Definition PartitionUpDiagonal (A : View) (diagABR : nat) : Part2x2 :=
  let d := Nat.min diagABR (Nat.min (vHeight A) (vWidth A)) in
  let h := vHeight A - d in
  let w := vWidth A - d in
  mkPart2x2 (subView A 0 0 h w) (subView A 0 w h d)
            (subView A h 0 d w) (subView A h w d d).

(** Modelled from the spec: [RepartitionUpDiagonal] cuts the square
    [A11], of extent [min(bsize, ATL.Height(), ATL.Width())], from the
    bottom right corner of [ATL]. *)
Definition RepartitionUpDiagonal (P : Part2x2) (bsize : nat) : Part3x3 :=
  let ATL := pTL P in let ATR := pTR P in
  let ABL := pBL P in let ABR := pBR P in
  let nb := Nat.min bsize (Nat.min (vHeight ATL) (vWidth ATL)) in
  let h := vHeight ATL - nb in
  let w := vWidth ATL - nb in
  mkPart3x3
    (subView ATL 0 0 h w)   (subView ATL 0 w h nb)
                            (subView ATR 0 0 h (vWidth ATR))
    (subView ATL h 0 nb w)  (subView ATL h w nb nb)
                            (subView ATR h 0 nb (vWidth ATR))
    (subView ABL 0 0 (vHeight ABL) w)
                            (subView ABL 0 w (vHeight ABL) nb)
                            ABR.

(** Modelled from the spec: [SlidePartitionUpDiagonal] moves [A11] (with
    [A12] and [A21]) into the bottom right part. *)
Definition SlidePartitionUpDiagonal (R : Part3x3) : Part2x2 :=
  let h := vHeight (p11 R) + vHeight (p22 R) in
  let w := vWidth (p11 R) + vWidth (p22 R) in
  mkPart2x2
    (p00 R)
    (mkView (vi (p01 R)) (vj (p01 R)) (vHeight (p00 R)) w)
    (mkView (vi (p10 R)) (vj (p10 R)) h (vWidth (p00 R)))
    (mkView (vi (p11 R)) (vj (p11 R)) h w).

(** The partitions of a square [m x m] matrix and of an [m x n] matrix
    when the boundary stands at row [k]. *)
Definition sweepL (m k : nat) : Part2x2 :=
  mkPart2x2 (mkView 0 0 k k) (mkView 0 k k (m - k))
            (mkView k 0 (m - k) k) (mkView k k (m - k) (m - k)).

Definition sweepX (m n k : nat) : Part2x1 :=
  mkPart2x1 (mkView 0 0 k n) (mkView k 0 (m - k) n).

Ltac unfold_partitions :=
  unfold sweepL, sweepX, SlidePartitionDownDiagonal, SlidePartitionDown,
    RepartitionDownDiagonal, RepartitionDown, PartitionDownDiagonal,
    PartitionDown, subView;
  cbn [vi vj vHeight vWidth pTL pTR pBL pBR pT pB p0 p1 p2
       p00 p01 p02 p10 p11 p12 p20 p21 p22].

Lemma Slide_Repartition_DownDiagonal (m k bsize : nat) :
  k <= m ->
  SlidePartitionDownDiagonal (RepartitionDownDiagonal (sweepL m k) bsize)
  = sweepL m (k + Nat.min bsize (m - k)).
Proof. intros Hk. unfold_partitions. f_equal; f_equal; lia. Qed.

Lemma Slide_Repartition_Down (m n k bsize : nat) :
  k <= m ->
  SlidePartitionDown (RepartitionDown (sweepX m n k) bsize)
  = sweepX m n (k + Nat.min bsize (m - k)).
Proof. intros Hk. unfold_partitions. f_equal; f_equal; lia. Qed.

Lemma PartitionDownDiagonal_start (m : nat) :
  PartitionDownDiagonal (mkView 0 0 m m) 0 = sweepL m 0.
Proof. unfold_partitions. cbn. f_equal; f_equal; lia. Qed.

(** The operations a routine performs, in program order.
    [OpAssign dst src v] is a redistributing [operator=] from distribution
    [src] to [dst] of the block under the view [v]. *)
Inductive Op :=
| OpScal
| OpAlignWith | OpAlignWithDiag | OpFreeAlignments
| OpResizeTo (height width : Z)
| OpView (v : View)
| OpAssign (dst src : Distribution * Distribution) (v : View)
| OpSumScatterUpdate (v : View)
| OpLocalTrsm | OpLocalTrmm | OpLocalGemm
| OpPanelTridiagL (ABR : View)
| OpSyr2k (A21 A22 : View)
| OpHer2k (A21 A22 : View)
| OpSetDiagonal
| OpTridiag (A11 : View).

(** The operations that exchange data between processes: redistributions
    and the reduce-scatter update, and the distributed kernels built from
    them.  [blas::Scal], the local kernels and the alignment bookkeeping
    act on the calling process alone. *)
Definition communicates (o : Op) : bool :=
  match o with
  | OpAssign _ _ _ | OpSumScatterUpdate _
  | OpPanelTridiagL _ | OpSyr2k _ _ | OpHer2k _ _ => true
  | _ => false
  end.

(** How a call ends: it returns, or it throws [std::logic_error]. *)
Inductive Completion :=
| Returned
| logic_error (what : string).

Local Open Scope string_scope.

Definition endl : string := String (ascii_of_nat 10) EmptyString.

(** [msg << n] for an extent [n]. *)
Definition shown (n : nat) : string := NilZero.string_of_uint (Nat.to_uint n).

(** The texts of the errors of [TrsmLLN] and [TrmmRLT]: the stream
    [msg << "Nonconformal ...: " << endl << "  L ~ " << ... << endl]. *)
Definition grids_differ : string :=
  "L and X must be distributed over the same grid.".

Definition expects_transpose : string :=
  "TrmmRLT expects a (Conjugate)Transpose option.".

Definition Nonconformal (routine : string) (LH LW XH XW : nat) : string :=
  "Nonconformal " ++ routine ++ ": " ++ endl
  ++ "  L ~ " ++ shown LH ++ " x " ++ shown LW ++ endl
  ++ "  X ~ " ++ shown XH ++ " x " ++ shown XW ++ endl.

Local Close Scope string_scope.

(* --------------------------------------------------------------------- *)
(** *** TridiagL *)

(** The two templates of [TridiagL]: real scalars [R], and [complex<R>]
    with the additional vector [t]. *)
Inductive ScalarKind := RealScalars | ComplexScalars.

(** What the routine reads of its arguments before and during the sweep:
    the grid and the extents of [A], and of [t] (complex template) its
    grid and whether it is a view or has a constrained column alignment. *)
Record TridiagArgs := mkTridiagArgs {
  AGrid : Grid;
  AHeight : nat;
  AWidth : nat;
  tGrid : Grid;
  tViewing : bool;
  tConstrainedColAlignment : bool
}.

Definition TridiagL_check (kind : ScalarKind) (a : TridiagArgs)
  : option string :=
  match kind with
  | RealScalars =>
      if negb (AHeight a =? AWidth a) then Some "A must be square."%string
      else None
  | ComplexScalars =>
      if Grid_neq (AGrid a) (tGrid a) then
        Some "A and t must be distributed over the same grid."%string
      else if negb (AHeight a =? AWidth a) then
        Some "A must be square."%string
      else if tViewing a || tConstrainedColAlignment a then
        Some "t must not be a view or constrained."%string
      else None
  end.

(** One iteration: the blocks it works on and the operations it performs. *)
Record TridiagPanel := mkTridiagPanel {
  tA11 : View;
  tA21 : View;
  tA22 : View;
  tABR : View;
  tt1 : View;
  tOps : list Op
}.

(** The branch taken when [A22.Height() > 0]. *)
Definition panel_step (kind : ScalarKind) (A11 A21 A22 ABR : View)
  : list Op :=
  [ OpView (subView ABR 0 0 (vHeight A11 + 1) (vWidth A11 + 1));
    OpAlignWith;
    OpResizeTo (Z.of_nat (vHeight ABR)) (Z.of_nat (vWidth A11));
    OpAlignWithDiag;
    OpResizeTo (Z.of_nat (vWidth A11)) 1;
    OpPanelTridiagL ABR;
    match kind with
    | RealScalars => OpSyr2k A21 A22
    | ComplexScalars => OpHer2k A21 A22
    end;
    OpSetDiagonal;
    OpFreeAlignments; OpFreeAlignments ].

(** The [else] branch. *)
Definition local_step (kind : ScalarKind) (A11 t1 : View) : list Op :=
  match kind with
  | RealScalars =>
      [ OpAssign (Star, Star) (MC, MR) A11;
        OpTridiag A11;
        OpAssign (MC, MR) (Star, Star) A11 ]
  | ComplexScalars =>
      [ OpAssign (Star, Star) (MC, MR) A11;
        OpResizeTo (Z.of_nat (vHeight t1)) 1;
        OpTridiag A11;
        OpAssign (MC, MR) (Star, Star) A11;
        OpAssign (MD, Star) (Star, Star) t1 ]
  end.

Record TridiagSweep := mkTridiagSweep {
  APart : Part2x2;
  tPart : Part2x1;
  panels : list TridiagPanel
}.

(** The body of the [while] loop of [TridiagL].  The partition of [t] is
    carried along in both templates and used in the complex one only; the
    partition of the work space [WPan] into [W11] and [W21] moves no data
    and is not recorded. *)
Definition TridiagL_body (kind : ScalarKind) (bsize : nat)
  (st : TridiagSweep) : TridiagSweep :=
  let AR := RepartitionDownDiagonal (APart st) bsize in
  let tR := RepartitionDown (tPart st) bsize in
  let ABR := pBR (APart st) in
  let work :=
    if 0 <? vHeight (p22 AR)
    then panel_step kind (p11 AR) (p21 AR) (p22 AR) ABR
    else local_step kind (p11 AR) (p1 tR) in
  mkTridiagSweep
    (SlidePartitionDownDiagonal AR) (SlidePartitionDown tR)
    (panels st ++
     [mkTridiagPanel (p11 AR) (p21 AR) (p22 AR) ABR (p1 tR) work]).

(** [while( ATL.Height() < A.Height() ) { ... }], unrolled at most [fuel]
    times. *)
Fixpoint TridiagL_loop (fuel : nat) (kind : ScalarKind) (bsize height : nat)
  (st : TridiagSweep) : option TridiagSweep :=
  if vHeight (pTL (APart st)) <? height then
    match fuel with
    | O => None
    | S fuel' => TridiagL_loop fuel' kind bsize height
                   (TridiagL_body kind bsize st)
    end
  else Some st.

(** The extents that the complex template asks of [t] before its sweep,
    [t.ResizeTo( A.Height()-1, 1 )], in the [int] arithmetic of the
    source: -1 rows for an empty [A]. *)
Definition TridiagL_t_extents (a : TridiagArgs) : Z * Z :=
  (Z.of_nat (AHeight a) - 1, 1)%Z.

(** Whether the call of [ResizeTo] before the sweep is one whose outcome
    the sources settle: the real template makes none, and the complex one
    asks for a height that is not negative unless [A] is empty.  What
    [ResizeTo] does with a negative height is written in [DistMatrix],
    which is not among the sources. *)
Definition TridiagL_resize_known (kind : ScalarKind) (a : TridiagArgs)
  : bool :=
  match kind with
  | RealScalars => true
  | ComplexScalars => (0 <=? fst (TridiagL_t_extents a))%Z
  end.

(** [TridiagL( A )] and [TridiagL( A, t )].  The complex template first
    aligns [t] and resizes it to [A.Height()-1] rows.  On an empty [A]
    that is [t.ResizeTo( -1, 1 )], and the model gives no outcome
    ([None]) rather than choose one for it. *)
Definition TridiagL (kind : ScalarKind) (RELEASE : bool)
  (Blocksize fuel : nat) (a : TridiagArgs)
  : option (Completion * list TridiagPanel) :=
  match (if RELEASE then None else TridiagL_check kind a) with
  | Some what => Some (logic_error what, [])
  | None =>
      if TridiagL_resize_known kind a then
        let st := mkTridiagSweep
                    (PartitionDownDiagonal
                       (mkView 0 0 (AHeight a) (AWidth a)) 0)
                    (PartitionDown (mkView 0 0 (AHeight a - 1) 1) 0) [] in
        match TridiagL_loop fuel kind Blocksize (AHeight a) st with
        | Some st' => Some (Returned, panels st')
        | None => None
        end
      else None
  end.

Example TridiagL_t_extents_empty (g : Grid) :
  TridiagL_t_extents (mkTridiagArgs g 0 0 g false false) = ((-1)%Z, 1%Z).
Proof. reflexivity. Qed.

Lemma TridiagL_resize_known_nonempty kind a :
  0 < AHeight a -> TridiagL_resize_known kind a = true.
Proof.
  intros Hn. destruct kind; [reflexivity|].
  unfold TridiagL_resize_known, TridiagL_t_extents. cbn [fst].
  apply Z.leb_le. lia.
Qed.

Example TridiagL_5_by_2 :
  option_map (fun r => map (fun p => (vi (tA11 p), vHeight (tA11 p),
                                      vHeight (tA22 p), List.length (tOps p)))
                           (snd r))
    (TridiagL RealScalars false 2 5
       (mkTridiagArgs (mkGrid 0 2 2) 5 5 (mkGrid 0 2 2) false false))
  = Some [(0, 2, 3, 10); (2, 2, 1, 10); (4, 1, 0, 3)].
Proof. reflexivity. Qed.

Lemma Repartition_DownDiagonal_blocks (n k bsize : nat) :
  let R := RepartitionDownDiagonal (sweepL n k) bsize in
  let nb := Nat.min bsize (n - k) in
  p11 R = mkView k k nb nb /\
  p21 R = mkView (k + nb) k (n - k - nb) nb /\
  p22 R = mkView (k + nb) (k + nb) (n - k - nb) (n - k - nb).
Proof. unfold_partitions. repeat split; f_equal; lia. Qed.

(** What an iteration entered with the boundary at [k] records. *)
Definition panel_at (kind : ScalarKind) (bsize n k : nat)
  (p : TridiagPanel) : Prop :=
  let nb := Nat.min bsize (n - k) in
  tA11 p = mkView k k nb nb /\
  tA21 p = mkView (k + nb) k (n - k - nb) nb /\
  tA22 p = mkView (k + nb) (k + nb) (n - k - nb) (n - k - nb) /\
  tABR p = mkView k k (n - k) (n - k) /\
  tOps p = if 0 <? vHeight (tA22 p)
           then panel_step kind (tA11 p) (tA21 p) (tA22 p) (tABR p)
           else local_step kind (tA11 p) (tt1 p).

(** The sweep entered with the boundary at [k]: it ends within [n - k]
    iterations; each iteration works on the next diagonal block; the last
    one, and only the last, finds [A22] empty. *)
Lemma TridiagL_loop_spec kind bsize n (fuel : nat) :
  0 < bsize ->
  forall st k,
    APart st = sweepL n k -> k <= n -> n - k <= fuel ->
    exists st' new,
      TridiagL_loop fuel kind bsize n st = Some st' /\
      panels st' = panels st ++ new /\
      Forall (fun p => exists k', k <= k' < n /\ panel_at kind bsize n k' p)
             new /\
      (k < n -> exists front last,
                  new = front ++ [last] /\
                  vHeight (tA22 last) = 0 /\
                  Forall (fun p => 0 < vHeight (tA22 p)) front).
Proof.
  intros Hb. induction fuel as [|fuel IH]; intros st k HA Hk Hfuel;
    cbn [TridiagL_loop]; rewrite HA; cbn [sweepL pTL vHeight];
    destruct (Nat.ltb_spec k n) as [Hlt|Hge]; try lia;
    try (exists st, []; rewrite app_nil_r;
         repeat split; auto; intros; lia).
  set (nb := Nat.min bsize (n - k)).
  set (st1 := TridiagL_body kind bsize st).
  assert (HA1 : APart st1 = sweepL n (k + nb)).
  { unfold st1, TridiagL_body. cbn [APart]. rewrite HA.
    apply Slide_Repartition_DownDiagonal. lia. }
  destruct (Repartition_DownDiagonal_blocks n k bsize)
    as (H11 & H21 & H22). fold nb in H11, H21, H22.
  destruct (IH st1 (k + nb) HA1) as (st' & new & Hrun & Hpan & Hall & Hlast);
    try (unfold nb; lia).
  set (p := mkTridiagPanel (mkView k k nb nb)
              (mkView (k + nb) k (n - k - nb) nb)
              (mkView (k + nb) (k + nb) (n - k - nb) (n - k - nb))
              (mkView k k (n - k) (n - k))
              (p1 (RepartitionDown (tPart st) bsize))
              (if 0 <? n - k - nb
               then panel_step kind (mkView k k nb nb)
                      (mkView (k + nb) k (n - k - nb) nb)
                      (mkView (k + nb) (k + nb) (n - k - nb) (n - k - nb))
                      (mkView k k (n - k) (n - k))
               else local_step kind (mkView k k nb nb)
                      (p1 (RepartitionDown (tPart st) bsize)))).
  assert (Hst1 : panels st1 = panels st ++ [p]).
  { unfold st1, TridiagL_body. cbn [panels]. rewrite HA.
    rewrite H11, H21, H22. reflexivity. }
  exists st', (p :: new). split; [exact Hrun|]. split; [|split].
  - rewrite Hpan, Hst1, <- app_assoc. reflexivity.
  - constructor.
    + exists k. split; [lia|]. unfold panel_at. fold nb.
      repeat split; reflexivity.
    + eapply Forall_impl; [|exact Hall].
      intros q (k' & Hk' & Hq). exists k'. split; [unfold nb in Hk'; lia|].
      exact Hq.
  - intros _. destruct (Nat.eq_dec (k + nb) n) as [Hend|Hmore].
    + exists [], p.
      assert (Hnew : new = []).
      { clear - Hrun Hpan Hend HA1.
        destruct fuel; cbn [TridiagL_loop] in Hrun; rewrite HA1 in Hrun;
          cbn [sweepL pTL vHeight] in Hrun;
          destruct (Nat.ltb_spec (k + nb) n); try lia;
          injection Hrun as <-;
          rewrite <- (app_nil_r (panels st1)) in Hpan at 1;
          now apply app_inv_head in Hpan. }
      rewrite Hnew. repeat split; [|constructor].
      cbn [p tA22 vHeight]. lia.
    + destruct Hlast as (front & last & Hnew & Hz & Hfront);
        [unfold nb in *; lia|].
      exists (p :: front), last. rewrite Hnew. repeat split; auto.
      constructor; [|exact Hfront].
      cbn [p tA22 vHeight]. unfold nb in *; lia.
Qed.

(** C5.  In [TridiagL] on a non-empty square matrix, each iteration that
    finds [A22] empty after the repartition copies [A11] into a [*,*]
    matrix, applies the sequential [Tridiag] to it and copies it back (the
    complex template also sizes and copies back the block [t1]), with no
    panel step and no trailing update; each iteration that finds [A22]
    non-empty runs [PanelTridiagL] on [ABR] and then the rank-2k update of
    [A22] by [Syr2k] (real) or [Her2k] (complex).  The sweep ends, the
    iterations take the diagonal blocks in order, and [A22] is empty in the
    last iteration and in no other. *)
Theorem TridiagL_last_block_is_local
  (kind : ScalarKind) (RELEASE : bool) (Blocksize fuel : nat)
  (a : TridiagArgs) :
  AHeight a = AWidth a ->
  (RELEASE = false -> TridiagL_check kind a = None) ->
  0 < AHeight a -> 0 < Blocksize -> AHeight a <= fuel ->
  exists ps,
    TridiagL kind RELEASE Blocksize fuel a = Some (Returned, ps) /\
    Forall (fun p =>
      (vHeight (tA22 p) = 0 ->
       tOps p =
       match kind with
       | RealScalars =>
           [ OpAssign (Star, Star) (MC, MR) (tA11 p);
             OpTridiag (tA11 p);
             OpAssign (MC, MR) (Star, Star) (tA11 p) ]
       | ComplexScalars =>
           [ OpAssign (Star, Star) (MC, MR) (tA11 p);
             OpResizeTo (Z.of_nat (vHeight (tt1 p))) 1;
             OpTridiag (tA11 p);
             OpAssign (MC, MR) (Star, Star) (tA11 p);
             OpAssign (MD, Star) (Star, Star) (tt1 p) ]
       end) /\
      (0 < vHeight (tA22 p) ->
       tOps p =
       [ OpView (subView (tABR p) 0 0 (vHeight (tA11 p) + 1)
                                      (vWidth (tA11 p) + 1));
         OpAlignWith;
         OpResizeTo (Z.of_nat (vHeight (tABR p)))
                    (Z.of_nat (vWidth (tA11 p)));
         OpAlignWithDiag;
         OpResizeTo (Z.of_nat (vWidth (tA11 p))) 1;
         OpPanelTridiagL (tABR p);
         match kind with
         | RealScalars => OpSyr2k (tA21 p) (tA22 p)
         | ComplexScalars => OpHer2k (tA21 p) (tA22 p)
         end;
         OpSetDiagonal;
         OpFreeAlignments; OpFreeAlignments ])) ps /\
    Forall (fun p => exists k,
      k < AHeight a /\
      let nb := Nat.min Blocksize (AHeight a - k) in
      tA11 p = mkView k k nb nb /\
      tA22 p = mkView (k + nb) (k + nb)
                 (AHeight a - k - nb) (AHeight a - k - nb) /\
      tABR p = mkView k k (AHeight a - k) (AHeight a - k)) ps /\
    exists front last,
      ps = front ++ [last] /\
      vHeight (tA22 last) = 0 /\
      Forall (fun p => 0 < vHeight (tA22 p)) front.
Proof.
  intros Hsq Hcheck Hn Hb Hfuel.
  set (n := AHeight a) in *.
  set (st := mkTridiagSweep
               (PartitionDownDiagonal (mkView 0 0 n (AWidth a)) 0)
               (PartitionDown (mkView 0 0 (n - 1) 1) 0) []).
  assert (HA : APart st = sweepL n 0).
  { cbn [st APart]. rewrite <- Hsq. apply PartitionDownDiagonal_start. }
  destruct (TridiagL_loop_spec kind Blocksize n fuel Hb st 0 HA)
    as (st' & new & Hrun & Hpan & Hall & Hlast); try lia.
  exists new. unfold TridiagL.
  replace (if RELEASE then None else TridiagL_check kind a)
    with (@None string) by (destruct RELEASE; auto; now rewrite Hcheck).
  rewrite (TridiagL_resize_known_nonempty kind a Hn).
  fold n. fold st. rewrite Hrun, Hpan. cbn [st panels app].
  split; [reflexivity|]. split; [|split].
  - eapply Forall_impl; [|exact Hall].
    intros p (k & Hk & H11 & H21 & H22 & HBR & Hops). split; intros HA22.
    + rewrite Hops, HA22. reflexivity.
    + rewrite Hops.
      destruct (Nat.ltb_spec 0 (vHeight (tA22 p))); [reflexivity|lia].
  - eapply Forall_impl; [|exact Hall].
    intros p (k & Hk & H11 & H21 & H22 & HBR & Hops).
    exists k. split; [lia|]. cbn zeta. auto.
  - apply Hlast. exact Hn.
Qed.

(** A 5 x 5 real matrix under block size 2. *)
Lemma TridiagL_last_block_is_local_witness :
  exists ps,
    TridiagL RealScalars false 2 5
      (mkTridiagArgs (mkGrid 0 2 2) 5 5 (mkGrid 0 2 2) false false)
    = Some (Returned, ps) /\
    exists front last,
      ps = front ++ [last] /\ vHeight (tA22 last) = 0 /\
      Forall (fun p => 0 < vHeight (tA22 p)) front.
Proof.
  destruct (TridiagL_last_block_is_local RealScalars false 2 5
              (mkTridiagArgs (mkGrid 0 2 2) 5 5 (mkGrid 0 2 2) false false))
    as (ps & Hrun & _ & _ & Hlast).
  - reflexivity.
  - reflexivity.
  - simpl; lia.
  - lia.
  - simpl; lia.
  - exists ps. split; assumption.
Defined.

(** *** The blocks of [t] in the sweep *)

(** The sweep with the partition of [t] followed too: [t] has [n - 1]
    rows, and its boundary stands at row [min k (n-1)] when that of [A]
    stands at [k]. *)
Lemma TridiagL_loop_t kind bsize n (fuel : nat) :
  0 < bsize ->
  forall st k,
    APart st = sweepL n k ->
    tPart st = sweepX (n - 1) 1 (Nat.min k (n - 1)) ->
    k <= n -> n - k <= fuel ->
    exists st' new,
      TridiagL_loop fuel kind bsize n st = Some st' /\
      panels st' = panels st ++ new /\
      Forall (fun p => exists k',
                k' < n /\
                tA11 p = mkView k' k' (Nat.min bsize (n - k'))
                                      (Nat.min bsize (n - k')) /\
                vHeight (tA22 p) = n - k' - Nat.min bsize (n - k') /\
                tt1 p = mkView k' 0 (Nat.min bsize (n - 1 - k')) 1) new /\
      flat_map (fun p => seq (vi (tt1 p)) (vHeight (tt1 p))) new
      = seq (Nat.min k (n - 1)) (n - 1 - k).
Proof.
  intros Hb. induction fuel as [|fuel IH]; intros st k HA Ht Hk Hfuel;
    cbn [TridiagL_loop]; rewrite HA; cbn [sweepL pTL vHeight];
    destruct (Nat.ltb_spec k n) as [Hlt|Hge]; try lia;
    try (exists st, []; rewrite app_nil_r;
         replace (n - 1 - k) with 0 by lia;
         repeat split; auto; constructor).
  set (nb := Nat.min bsize (n - k)).
  set (st1 := TridiagL_body kind bsize st).
  assert (HA1 : APart st1 = sweepL n (k + nb)).
  { unfold st1, TridiagL_body. cbn [APart]. rewrite HA.
    apply Slide_Repartition_DownDiagonal. lia. }
  assert (Hk' : Nat.min k (n - 1) = k) by lia.
  assert (Ht1 : tPart st1 = sweepX (n - 1) 1 (Nat.min (k + nb) (n - 1))).
  { unfold st1, TridiagL_body. cbn [tPart]. rewrite Ht, Hk'.
    rewrite Slide_Repartition_Down by lia. f_equal. unfold nb. lia. }
  destruct (Repartition_DownDiagonal_blocks n k bsize)
    as (H11 & H21 & H22). fold nb in H11, H21, H22.
  destruct (IH st1 (k + nb) HA1 Ht1)
    as (st' & new & Hrun & Hpan & Hall & Hcover); try (unfold nb; lia).
  assert (Hp1 : p1 (RepartitionDown (tPart st) bsize)
                = mkView k 0 (Nat.min bsize (n - 1 - k)) 1).
  { rewrite Ht, Hk'. unfold_partitions. f_equal; lia. }
  assert (Hst1 : exists p,
            panels st1 = panels st ++ [p] /\
            tA11 p = mkView k k nb nb /\
            vHeight (tA22 p) = n - k - nb /\
            tt1 p = mkView k 0 (Nat.min bsize (n - 1 - k)) 1).
  { eexists. split; [unfold st1, TridiagL_body; cbn [panels]; reflexivity|].
    cbn [tA11 tA22 tt1]. rewrite HA, H11, H22, Hp1. auto. }
  destruct Hst1 as (p & Hst1 & Hp11 & Hp22 & Hpt1).
  exists st', (p :: new). split; [exact Hrun|]. split; [|split].
  - rewrite Hpan, Hst1, <- app_assoc. reflexivity.
  - constructor; [|exact Hall]. exists k. auto.
  - cbn [flat_map]. rewrite Hcover, Hpt1, Hk'. cbn [vi vHeight].
    replace (n - 1 - k)
      with (Nat.min bsize (n - 1 - k) + (n - 1 - (k + nb)))
      by (unfold nb; lia).
    rewrite seq_app. f_equal; f_equal; unfold nb; lia.
Qed.

(** X11.  In the complex [TridiagL] on a non-empty square matrix of
    extent n the partition of [t] moves in step with that of [A] (the
    sweep ends and returns): in every iteration
    [t1] starts at the row at which [A11] starts; it has as many rows as
    [A11] where the panel step is taken, and one row fewer in the last
    iteration, where [A11] is reduced by the sequential [Tridiag]; and
    the blocks [t1] follow one another through the rows 0 .. n-2 of [t],
    each row once. *)
Theorem TridiagL_t_moves_in_step
  (RELEASE : bool) (Blocksize fuel : nat) (a : TridiagArgs) :
  AHeight a = AWidth a ->
  (RELEASE = false -> TridiagL_check ComplexScalars a = None) ->
  0 < AHeight a -> 0 < Blocksize -> AHeight a <= fuel ->
  exists ps,
    TridiagL ComplexScalars RELEASE Blocksize fuel a = Some (Returned, ps) /\
    Forall (fun p =>
              vi (tt1 p) = vi (tA11 p) /\
              vHeight (tt1 p) =
              if 0 <? vHeight (tA22 p) then vHeight (tA11 p)
              else vHeight (tA11 p) - 1) ps /\
    flat_map (fun p => seq (vi (tt1 p)) (vHeight (tt1 p))) ps
    = seq 0 (AHeight a - 1).
Proof.
  intros Hsq Hcheck Hn Hb Hfuel.
  set (n := AHeight a) in *.
  set (st := mkTridiagSweep
               (PartitionDownDiagonal (mkView 0 0 n (AWidth a)) 0)
               (PartitionDown (mkView 0 0 (n - 1) 1) 0) []).
  assert (HA : APart st = sweepL n 0).
  { cbn [st APart]. rewrite <- Hsq. apply PartitionDownDiagonal_start. }
  assert (Ht : tPart st = sweepX (n - 1) 1 (Nat.min 0 (n - 1)))
    by reflexivity.
  destruct (TridiagL_loop_t ComplexScalars Blocksize n fuel Hb st 0 HA Ht)
    as (st' & new & Hrun & Hpan & Hall & Hcover); try lia.
  exists new. unfold TridiagL.
  replace (if RELEASE then None else TridiagL_check ComplexScalars a)
    with (@None string) by (destruct RELEASE; auto; now rewrite Hcheck).
  rewrite (TridiagL_resize_known_nonempty ComplexScalars a Hn).
  fold n. fold st. rewrite Hrun, Hpan. cbn [st panels app].
  split; [reflexivity|]. split.
  - eapply Forall_impl; [|exact Hall].
    intros p (k & Hk & H11 & H22 & Ht1). rewrite H11, H22, Ht1.
    cbn [vi vHeight]. split; [reflexivity|].
    destruct (Nat.ltb_spec 0 (n - k - Nat.min Blocksize (n - k))); lia.
  - rewrite Hcover, Nat.sub_0_r. reflexivity.
Qed.

(** A 5 x 5 complex matrix under block size 2: [t1] takes the rows 0-1,
    2-3 and none. *)
Lemma TridiagL_t_moves_in_step_witness :
  exists ps,
    TridiagL ComplexScalars false 2 5
      (mkTridiagArgs (mkGrid 0 2 2) 5 5 (mkGrid 0 2 2) false false)
    = Some (Returned, ps) /\
    flat_map (fun p => seq (vi (tt1 p)) (vHeight (tt1 p))) ps = [0; 1; 2; 3].
Proof.
  destruct (TridiagL_t_moves_in_step false 2 5
              (mkTridiagArgs (mkGrid 0 2 2) 5 5 (mkGrid 0 2 2) false false))
    as (ps & Hrun & _ & Hcover).
  - reflexivity.
  - reflexivity.
  - simpl; lia.
  - lia.
  - simpl; lia.
  - exists ps. split; assumption.
Defined.

Section Scalars.

(** The scalar type [T] of the templates with its arithmetic; [conj] is
    complex conjugation (the identity on real scalars). *)
Variable T : Type.
Variables (zero one : T) (add mul sub : T -> T -> T) (opp : T -> T).
Variables (div : T -> T -> T) (inv : T -> T) (conj : T -> T).

Declare Scope T_scope.
Delimit Scope T_scope with T.
Local Notation "x + y" := (add x y) : T_scope.
Local Notation "x * y" := (mul x y) : T_scope.
Local Notation "x - y" := (sub x y) : T_scope.
Local Notation "x / y" := (div x y) : T_scope.
Local Notation "- x" := (opp x) : T_scope.

(** The entries of a matrix, addressed by global indices.  A distributed
    matrix is described by its global contents: a redistribution changes
    where entries are stored and leaves the contents alone. *)
Record Matrix := mkMatrix {
  Height : nat;
  Width : nat;
  Get : nat -> nat -> T
}.

Record DistMatrix := mkDistMatrix {
  GetGrid : Grid;
  Contents : Matrix
}.

Definition inside (A : Matrix) (i j : nat) : bool :=
  (i <? Height A) && (j <? Width A).

Definition wholeView (A : Matrix) : View :=
  mkView 0 0 (Height A) (Width A).

(** Modelled from the spec: a redistributing assignment from a view
    delivers the global contents under the view (glossary: a
    redistribution preserves global contents), as a matrix of its own. *)
Definition read (A : Matrix) (v : View) : Matrix :=
  mkMatrix (vHeight v) (vWidth v) (fun a b => Get A (vi v + a) (vj v + b)).

(** Modelled from the spec: assignment to a view; a view aliases the
    storage of its parent (section 3), so the entries of the parent under
    the view are replaced and the others stay. *)
Definition write (A : Matrix) (v : View) (B : Matrix) : Matrix :=
  mkMatrix (Height A) (Width A)
    (fun i j =>
       if (vi v <=? i) && (i <? vi v + vHeight v) &&
          (vj v <=? j) && (j <? vj v + vWidth v)
       then Get B (i - vi v) (j - vj v)
       else Get A i j).

(** [sum n f] is f 0 + ... + f (n-1). *)
Fixpoint sum (n : nat) (f : nat -> T) : T :=
  match n with
  | O => zero
  | S n' => (sum n' f + f n')%T
  end.

(** Modelled from the spec: [blas::Scal] is not part of the sources at
    hand; it is the local kernel that multiplies every entry of [X] by
    [alpha] (section 6). *)
Definition Scal (alpha : T) (X : Matrix) : Matrix :=
  mkMatrix (Height X) (Width X)
    (fun i j => if inside X i j then (alpha * Get X i j)%T else Get X i j).

(** Modelled from the spec: the local kernels [LocalTrsm], [LocalTrmm] and
    [LocalGemm] are not part of the sources at hand; section 6 takes each
    as a pure function of co-located operands.  [LocalTrsm] with
    (Left, Lower, Normal) is the sequential reference triangular solve:
    after the scaling by [alpha], for k = 0, 1, ... row k of the right-hand
    side is divided by L(k,k) (not under [Unit]) and L(i,k) times that row
    is subtracted from every row i below it.  [trsm_step] is the step for
    one k. *)
Definition trsm_step (diagonal : Diagonal) (L B : Matrix) (k : nat) : Matrix :=
  let pivot j :=
    match diagonal with
    | NonUnit => (Get B k j / Get L k k)%T
    | Unit => Get B k j
    end in
  mkMatrix (Height B) (Width B)
    (fun i j =>
       if i =? k then pivot j
       else if (k <? i) && (i <? Height B)
            then (Get B i j - Get L i k * pivot j)%T
            else Get B i j).

(** The steps for rows k0, k0+1, ..., k0+count-1, in this order. *)
Fixpoint trsm_steps (diagonal : Diagonal) (L B : Matrix) (k0 count : nat)
  : Matrix :=
  match count with
  | O => B
  | S c => trsm_step diagonal L (trsm_steps diagonal L B k0 c) (k0 + c)
  end.

(** Modelled from the spec:
    [LocalTrsm( Left, Lower, Normal, diagonal, alpha, L, X )]. *)
Definition LocalTrsm_LLN (diagonal : Diagonal) (alpha : T) (L X : Matrix)
  : Matrix :=
  trsm_steps diagonal L (Scal alpha X) 0 (Height X).

(** Entry (i,j) of op(A) for an orientation op. *)
Definition OrientedGet (o : Orientation) (A : Matrix) (i j : nat) : T :=
  match o with
  | Normal => Get A i j
  | Transpose => Get A j i
  | ConjugateTranspose => conj (Get A j i)
  end.

Definition OrientedWidth (o : Orientation) (A : Matrix) : nat :=
  match o with Normal => Width A | _ => Height A end.

(** Modelled from the spec: [LocalGemm( oA, oB, alpha, A, B, beta, C )],
    C := alpha op(A) op(B) + beta C. *)
Definition LocalGemm (oA oB : Orientation) (alpha : T) (A B : Matrix)
  (beta : T) (C : Matrix) : Matrix :=
  mkMatrix (Height C) (Width C)
    (fun i j =>
       if inside C i j
       then (alpha * sum (OrientedWidth oA A)
                       (fun t => OrientedGet oA A i t * OrientedGet oB B t j)
             + beta * Get C i j)%T
       else Get C i j).

(** Entry (i,j) of tril(L), or of trilu(L) under [Unit]. *)
Definition tril (diagonal : Diagonal) (L : Matrix) (i j : nat) : T :=
  if j <? i then Get L i j
  else if j =? i
       then match diagonal with NonUnit => Get L i i | Unit => one end
       else zero.

(** Modelled from the spec:
    [LocalTrmm( Right, Lower, orientation, diagonal, alpha, L, X )],
    X := alpha X op(tril(L)). *)
Definition LocalTrmm_RL (orientation : Orientation) (diagonal : Diagonal)
  (alpha : T) (L X : Matrix) : Matrix :=
  let trilL := mkMatrix (Height L) (Width L) (tril diagonal L) in
  mkMatrix (Height X) (Width X)
    (fun i j =>
       if inside X i j
       then (alpha * sum (Width X)
                       (fun t => Get X i t * OrientedGet orientation trilL t j))%T
       else Get X i j).

(** Modelled from the spec: [X1.SumScatterUpdate( alpha, D )], section
    4.3: the contributions are summed before they are assigned to the
    owner, and alpha times the sum is added to the target.  [D] here is
    that sum. *)
Definition SumScatterUpdate (alpha : T) (D X1 : Matrix) : Matrix :=
  mkMatrix (Height X1) (Width X1)
    (fun i j =>
       if inside X1 i j then (Get X1 i j + alpha * Get D i j)%T
       else Get X1 i j).

(** What a call leaves behind: how it ended, the contents of the operand
    [X] it works on, and the operations it performed. *)
Record Run := mkRun {
  completion : Completion;
  operand : Matrix;
  trace : list Op
}.

(** The state of a sweep: the partitions of [L] and of [X], the contents of
    [X], and the operations so far. *)
Record Sweep2 (PX : Type) := mkSweep2 {
  LPart : Part2x2;
  XPart : PX;
  Xc : Matrix;
  ops : list Op
}.
Arguments mkSweep2 {PX}.
Arguments LPart {PX}.
Arguments XPart {PX}.
Arguments Xc {PX}.
Arguments ops {PX}.

(** *** TrsmLLN *)

(** The checks between [#ifndef RELEASE] and [#endif] at the head of
    [TrsmLLN]: the text of the [logic_error] thrown, if any. *)
Definition TrsmLLN_check (L X : DistMatrix) : option string :=
  if Grid_neq (GetGrid L) (GetGrid X) then
    Some grids_differ
  else if negb (Height (Contents L) =? Width (Contents L))
          || negb (Width (Contents L) =? Height (Contents X)) then
    Some (Nonconformal "TrsmLLN"
            (Height (Contents L)) (Width (Contents L))
            (Height (Contents X)) (Width (Contents X)))
  else None.

(** The body of the [while] loop of [TrsmLLN]. *)
Definition TrsmLLN_body (bsize : nat) (diagonal : Diagonal) (L : Matrix)
  (st : Sweep2 Part2x1) : Sweep2 Part2x1 :=
  let LR := RepartitionDownDiagonal (LPart st) bsize in
  let XR := RepartitionDown (XPart st) bsize in
  let X := Xc st in
  (* L11[*,*] <- L11[MC,MR];  X1[*,VR] <- X1[MC,MR] *)
  let L11_Star_Star := read L (p11 LR) in
  let X1_Star_VR := read X (p1 XR) in
  (* X1[*,VR] := (L11[*,*])^-1 X1[*,VR] *)
  let X1_Star_VR := LocalTrsm_LLN diagonal one L11_Star_Star X1_Star_VR in
  (* X1[*,MR] <- X1[*,VR];  X1[MC,MR] <- X1[*,MR];  L21[MC,*] <- L21[MC,MR] *)
  let X1_Star_MR := X1_Star_VR in
  let X := write X (p1 XR) X1_Star_MR in
  let L21_MC_Star := read L (p21 LR) in
  (* X2[MC,MR] -= L21[MC,*] X1[*,MR] *)
  let X2 := LocalGemm Normal Normal (opp one) L21_MC_Star X1_Star_MR
                      one (read X (p2 XR)) in
  let X := write X (p2 XR) X2 in
  mkSweep2 (SlidePartitionDownDiagonal LR) (SlidePartitionDown XR) X
    (ops st ++
     [OpAlignWith; OpAlignWith;
      OpAssign (Star, Star) (MC, MR) (p11 LR);
      OpAssign (Star, VR) (MC, MR) (p1 XR);
      OpLocalTrsm;
      OpAssign (Star, MR) (Star, VR) (p1 XR);
      OpAssign (MC, MR) (Star, MR) (p1 XR);
      OpAssign (MC, Star) (MC, MR) (p21 LR);
      OpLocalGemm;
      OpFreeAlignments; OpFreeAlignments]).

(** [while( XB.Height() > 0 ) { ... }], unrolled at most [fuel] times. *)
Fixpoint TrsmLLN_loop (fuel bsize : nat) (diagonal : Diagonal) (L : Matrix)
  (st : Sweep2 Part2x1) : option (Sweep2 Part2x1) :=
  if 0 <? vHeight (pB (XPart st)) then
    match fuel with
    | O => None
    | S fuel' =>
        TrsmLLN_loop fuel' bsize diagonal L (TrsmLLN_body bsize diagonal L st)
    end
  else Some st.

(** [TrsmLLN( diagonal, alpha, L, X )], compiled with or without [RELEASE],
    under the block size [Blocksize]; [None] when the fuel runs out. *)
Definition TrsmLLN (RELEASE : bool) (Blocksize fuel : nat)
  (diagonal : Diagonal) (alpha : T) (L X : DistMatrix) : option Run :=
  match (if RELEASE then None else TrsmLLN_check L X) with
  | Some what => Some (mkRun (logic_error what) (Contents X) [])
  | None =>
      let X0 := Scal alpha (Contents X) in
      let st := mkSweep2
                  (PartitionDownDiagonal (wholeView (Contents L)) 0)
                  (PartitionDown (wholeView X0) 0) X0 [OpScal] in
      match TrsmLLN_loop fuel Blocksize diagonal (Contents L) st with
      | Some st' => Some (mkRun Returned (Xc st') (ops st'))
      | None => None
      end
  end.

(** *** TrmmRLT *)

Definition TrmmRLT_check (orientation : Orientation) (L X : DistMatrix)
  : option string :=
  if Grid_neq (GetGrid L) (GetGrid X) then
    Some grids_differ
  else if Orientation_eqb orientation Normal then
    Some expects_transpose
  else if negb (Height (Contents L) =? Width (Contents L))
          || negb (Width (Contents X) =? Height (Contents L)) then
    Some (Nonconformal "TrmmRLT"
            (Height (Contents L)) (Width (Contents L))
            (Height (Contents X)) (Width (Contents X)))
  else None.

(** The body of the [while] loop of [TrmmRLT]. *)
Definition TrmmRLT_body (bsize : nat) (orientation : Orientation)
  (diagonal : Diagonal) (L : Matrix) (st : Sweep2 Part1x2)
  : Sweep2 Part1x2 :=
  let LR := RepartitionUpDiagonal (LPart st) bsize in
  let XR := RepartitionLeft (XPart st) bsize in
  let X := Xc st in
  (* D1_MC_Star.ResizeTo( X1.Height(), X1.Width() ) *)
  let D1_MC_Star :=
    mkMatrix (vHeight (p1 XR)) (vWidth (p1 XR)) (fun _ _ => zero) in
  let X1_VC_Star := read X (p1 XR) in
  let L11_Star_Star := read L (p11 LR) in
  let X1_VC_Star :=
    LocalTrmm_RL orientation diagonal one L11_Star_Star X1_VC_Star in
  let X := write X (p1 XR) X1_VC_Star in
  let L10_Star_MR := read L (p10 LR) in
  let D1_MC_Star :=
    LocalGemm Normal orientation one (read X (p0 XR)) L10_Star_MR
              zero D1_MC_Star in
  let X := write X (p1 XR)
             (SumScatterUpdate one D1_MC_Star (read X (p1 XR))) in
  mkSweep2 (SlidePartitionUpDiagonal LR) (SlidePartitionLeft XR) X
    (ops st ++
     [OpAlignWith; OpAlignWith;
      OpResizeTo (Z.of_nat (vHeight (p1 XR))) (Z.of_nat (vWidth (p1 XR)));
      OpAssign (VC, Star) (MC, MR) (p1 XR);
      OpAssign (Star, Star) (MC, MR) (p11 LR);
      OpLocalTrmm;
      OpAssign (MC, MR) (VC, Star) (p1 XR);
      OpAssign (Star, MR) (MC, MR) (p10 LR);
      OpLocalGemm; OpSumScatterUpdate (p1 XR);
      OpFreeAlignments; OpFreeAlignments]).

(** [while( XL.Width() > 0 ) { ... }], unrolled at most [fuel] times. *)
Fixpoint TrmmRLT_loop (fuel bsize : nat) (orientation : Orientation)
  (diagonal : Diagonal) (L : Matrix) (st : Sweep2 Part1x2)
  : option (Sweep2 Part1x2) :=
  if 0 <? vWidth (pL (XPart st)) then
    match fuel with
    | O => None
    | S fuel' =>
        TrmmRLT_loop fuel' bsize orientation diagonal L
          (TrmmRLT_body bsize orientation diagonal L st)
    end
  else Some st.

Definition TrmmRLT (RELEASE : bool) (Blocksize fuel : nat)
  (orientation : Orientation) (diagonal : Diagonal) (alpha : T)
  (L X : DistMatrix) : option Run :=
  match (if RELEASE then None else TrmmRLT_check orientation L X) with
  | Some what => Some (mkRun (logic_error what) (Contents X) [])
  | None =>
      let X0 := Scal alpha (Contents X) in
      let st := mkSweep2
                  (PartitionUpDiagonal (wholeView (Contents L)) 0)
                  (PartitionLeft (wholeView X0) 0) X0 [OpScal] in
      match TrmmRLT_loop fuel Blocksize orientation diagonal (Contents L) st
      with
      | Some st' => Some (mkRun Returned (Xc st') (ops st'))
      | None => None
      end
  end.

(** *** The reference triangular solve *)

Lemma Height_trsm_steps diagonal L B k0 count :
  Height (trsm_steps diagonal L B k0 count) = Height B.
Proof. induction count; simpl; auto. Qed.

Lemma Width_trsm_steps diagonal L B k0 count :
  Width (trsm_steps diagonal L B k0 count) = Width B.
Proof. induction count; simpl; auto. Qed.

Lemma sum_ext (n : nat) (f g : nat -> T) :
  (forall t, t < n -> f t = g t) -> sum n f = sum n g.
Proof.
  induction n as [|n IH]; intros Hfg; simpl; [reflexivity|].
  rewrite IH, Hfg; auto.
Qed.

(** The row [k] of a step is the pivot row. *)
Lemma trsm_step_pivot diagonal L B k j :
  Get (trsm_step diagonal L B k) k j =
  match diagonal with
  | NonUnit => (Get B k j / Get L k k)%T
  | Unit => Get B k j
  end.
Proof. simpl. now rewrite Nat.eqb_refl. Qed.

(** The rows below [k] lose L(i,k) times the pivot row. *)
Lemma trsm_step_below diagonal L B k i j :
  k < i -> i < Height B ->
  Get (trsm_step diagonal L B k) i j =
  (Get B i j - Get L i k * Get (trsm_step diagonal L B k) k j)%T.
Proof.
  intros Hk Hi. rewrite trsm_step_pivot. simpl.
  destruct (Nat.eqb_spec i k); [lia|].
  destruct (Nat.ltb_spec k i); [|lia].
  destruct (Nat.ltb_spec i (Height B)); [|lia].
  reflexivity.
Qed.

(** The rows above [k], and rows outside the matrix, stay. *)
Lemma trsm_step_other diagonal L B k i j :
  i < k \/ (Height B <= i /\ i <> k) ->
  Get (trsm_step diagonal L B k) i j = Get B i j.
Proof.
  intros Hi. simpl.
  destruct (Nat.eqb_spec i k); [lia|].
  destruct (Nat.ltb_spec k i); [|reflexivity].
  destruct (Nat.ltb_spec i (Height B)); [lia|reflexivity].
Qed.

Lemma trsm_steps_app diagonal L B k0 c1 c2 :
  trsm_steps diagonal L B k0 (c1 + c2) =
  trsm_steps diagonal L (trsm_steps diagonal L B k0 c1) (k0 + c1) c2.
Proof.
  induction c2 as [|c2 IH].
  - now rewrite Nat.add_0_r.
  - rewrite Nat.add_succ_r. simpl. rewrite IH.
    now rewrite Nat.add_assoc.
Qed.

(** Steps from row [k0] on leave the rows above [k0] alone. *)
Lemma trsm_steps_above diagonal L B k0 count i j :
  i < k0 ->
  Get (trsm_steps diagonal L B k0 count) i j = Get B i j.
Proof.
  intros Hi. induction count as [|c IH]; [reflexivity|].
  cbn [trsm_steps]. rewrite trsm_step_other by lia. exact IH.
Qed.

(** Two matrices that agree on the leading [m x n] entries. *)
Definition agree (m n : nat) (A B : Matrix) : Prop :=
  forall i j, i < m -> j < n -> Get A i j = Get B i j.

Lemma agree_trsm_step diagonal L A B n k :
  Height A = Height B -> k < Height A ->
  agree (Height A) n A B ->
  agree (Height A) n (trsm_step diagonal L A k) (trsm_step diagonal L B k).
Proof.
  intros HH Hk HAB i j Hi Hj. simpl. rewrite <- HH.
  rewrite !(HAB k j Hk Hj), !(HAB i j Hi Hj). reflexivity.
Qed.

Lemma agree_trsm_steps diagonal L A B n k0 count :
  Height A = Height B -> k0 + count <= Height A ->
  agree (Height A) n A B ->
  agree (Height A) n (trsm_steps diagonal L A k0 count)
                     (trsm_steps diagonal L B k0 count).
Proof.
  intros HH Hk HAB. induction count as [|c IH]; [exact HAB|].
  cbn [trsm_steps].
  pose proof (Height_trsm_steps diagonal L A k0 c) as HA.
  pose proof (Height_trsm_steps diagonal L B k0 c) as HB.
  rewrite <- HA. apply agree_trsm_step.
  - congruence.
  - lia.
  - rewrite HA. apply IH. lia.
Qed.

(** The steps k .. k+s-1 act on the rows k .. k+nb-1 of the whole
    right-hand side as the steps 0 .. s-1 act on that block of rows taken
    alone, with the diagonal block of [L]. *)
Lemma trsm_steps_block diagonal L B Ll Bl k nb s :
  (forall a b, Get Ll a b = Get L (k + a) (k + b)) ->
  (forall a j, Get Bl a j = Get B (k + a) j) ->
  Height Bl = nb -> k + nb <= Height B -> s <= nb ->
  forall a j, a < nb ->
    Get (trsm_steps diagonal Ll Bl 0 s) a j =
    Get (trsm_steps diagonal L B k s) (k + a) j.
Proof.
  intros HL HB Hh Hk. induction s as [|s IH]; intros Hs a j Ha.
  - apply HB.
  - cbn [trsm_steps Nat.add].
    set (Gl := trsm_steps diagonal Ll Bl 0 s) in *.
    set (G := trsm_steps diagonal L B k s) in *.
    assert (Hpivot : Get (trsm_step diagonal Ll Gl s) s j =
                     Get (trsm_step diagonal L G (k + s)) (k + s) j).
    { rewrite !trsm_step_pivot, HL, IH by lia. reflexivity. }
    destruct (lt_eq_lt_dec a s) as [[Hlt|Heq]|Hgt].
    + rewrite !trsm_step_other by lia. apply IH; lia.
    + subst a. exact Hpivot.
    + rewrite (trsm_step_below diagonal Ll Gl s a j)
        by (unfold Gl; rewrite ?Height_trsm_steps; lia).
      rewrite (trsm_step_below diagonal L G (k + s) (k + a) j)
        by (unfold G; rewrite ?Height_trsm_steps; lia).
      rewrite Hpivot, HL, IH by lia. reflexivity.
Qed.

(** From here on the scalars form a field. *)
Hypothesis Tfield : field_theory zero one add mul sub opp div inv eq.
Add Field T_is_field : Tfield.

(** After the steps k0 .. k0+c-1, a row i at or below k0+c holds its
    initial value minus the contributions of the c rows already solved. *)
Lemma trsm_steps_tail diagonal L B k0 count i j :
  k0 + count <= i -> i < Height B ->
  Get (trsm_steps diagonal L B k0 count) i j =
  (Get B i j -
   sum count (fun t => Get L i (k0 + t) *
                       Get (trsm_steps diagonal L B k0 count) (k0 + t) j))%T.
Proof.
  revert i. induction count as [|c IH]; intros i Hi Hh.
  - simpl. ring.
  - cbn [trsm_steps sum].
    set (G := trsm_steps diagonal L B k0 c) in *.
    rewrite (trsm_step_below diagonal L G (k0 + c) i j)
      by (unfold G; rewrite ?Height_trsm_steps; lia).
    rewrite IH by lia.
    rewrite (sum_ext c
               (fun t => (Get L i (k0 + t) *
                          Get (trsm_step diagonal L G (k0 + c)) (k0 + t) j)%T)
               (fun t => (Get L i (k0 + t) * Get G (k0 + t) j)%T)).
    + ring.
    + intros t Ht. rewrite trsm_step_other by lia. reflexivity.
Qed.





(** *** The sweep of TrsmLLN *)

Lemma TrsmLLN_body_geometry bsize diagonal L st m n k :
  LPart st = sweepL m k -> XPart st = sweepX m n k -> k <= m ->
  LPart (TrsmLLN_body bsize diagonal L st)
    = sweepL m (k + Nat.min bsize (m - k)) /\
  XPart (TrsmLLN_body bsize diagonal L st)
    = sweepX m n (k + Nat.min bsize (m - k)).
Proof.
  intros HL HX Hk. unfold TrsmLLN_body. cbn [LPart XPart].
  rewrite HL, HX. split.
  - now apply Slide_Repartition_DownDiagonal.
  - now apply Slide_Repartition_Down.
Qed.

Lemma Get_Scal_one X i j : Get (Scal one X) i j = Get X i j.
Proof. simpl. destruct (inside X i j); [ring|reflexivity]. Qed.

Lemma Get_write_inside A v B i j :
  vi v <= i -> i < vi v + vHeight v -> vj v <= j -> j < vj v + vWidth v ->
  Get (write A v B) i j = Get B (i - vi v) (j - vj v).
Proof.
  intros H1 H2 H3 H4. simpl.
  destruct (Nat.leb_spec (vi v) i); [|lia].
  destruct (Nat.ltb_spec i (vi v + vHeight v)); [|lia].
  destruct (Nat.leb_spec (vj v) j); [|lia].
  destruct (Nat.ltb_spec j (vj v + vWidth v)); [|lia].
  reflexivity.
Qed.

Lemma Get_write_outside A v B i j :
  i < vi v \/ vi v + vHeight v <= i ->
  Get (write A v B) i j = Get A i j.
Proof.
  intros H. simpl.
  destruct (Nat.leb_spec (vi v) i); [|reflexivity].
  destruct (Nat.ltb_spec i (vi v + vHeight v)); [lia|reflexivity].
Qed.

Lemma Get_LocalGemm_NN alpha A B beta C i j :
  i < Height C -> j < Width C ->
  Get (LocalGemm Normal Normal alpha A B beta C) i j =
  (alpha * sum (Width A) (fun t => Get A i t * Get B t j) + beta * Get C i j)%T.
Proof.
  intros Hi Hj. simpl. unfold inside.
  destruct (Nat.ltb_spec i (Height C)); [|lia].
  destruct (Nat.ltb_spec j (Width C)); [|lia].
  reflexivity.
Qed.

(** One pass through the body of the loop, with the boundary at row [k],
    performs the steps k .. k+nb-1 of the reference solve on [X]. *)
Lemma TrsmLLN_body_contents bsize diagonal L st m n k :
  LPart st = sweepL m k -> XPart st = sweepX m n k ->
  Height (Xc st) = m -> Width (Xc st) = n -> k <= m ->
  Height (Xc (TrsmLLN_body bsize diagonal L st)) = m /\
  Width (Xc (TrsmLLN_body bsize diagonal L st)) = n /\
  agree m n (Xc (TrsmLLN_body bsize diagonal L st))
            (trsm_steps diagonal L (Xc st) k (Nat.min bsize (m - k))).
Proof.
  intros HL HX Hm Hn Hk.
  unfold TrsmLLN_body. cbn [Xc]. rewrite HL, HX.
  unfold sweepL, sweepX, RepartitionDownDiagonal, RepartitionDown, subView.
  cbn [vi vj vHeight vWidth pTL pTR pBL pBR pT pB p0 p1 p2
       p00 p01 p02 p10 p11 p12 p20 p21 p22].
  rewrite Nat.min_id, !Nat.add_0_r.
  set (nb := Nat.min bsize (m - k)).
  set (X := Xc st) in *.
  split; [exact Hm|]. split; [exact Hn|].
  set (Ll := read L (mkView k k nb nb)).
  set (Xl := read X (mkView k 0 nb n)).
  set (Y1 := LocalTrsm_LLN diagonal one Ll Xl).
  assert (Hnb : k + nb <= m) by (unfold nb; lia).
  assert (HY1 : forall a b, a < nb ->
            Get Y1 a b = Get (trsm_steps diagonal L X k nb) (k + a) b).
  { intros a b Ha. unfold Y1, LocalTrsm_LLN.
    apply (trsm_steps_block diagonal L X Ll (Scal one Xl) k nb nb);
      try lia; try reflexivity.
    intros a' b'. rewrite Get_Scal_one. reflexivity. }
  intros i j Hi Hj.
  destruct (le_lt_dec (k + nb) i) as [Htrail|Hup].
  - (* the rows of X2 *)
    rewrite Get_write_inside by (cbn [vi vj vHeight vWidth]; lia).
    cbn [vi vj].
    rewrite Get_LocalGemm_NN by (cbn [read Height Width vHeight vWidth]; lia).
    cbn [read Get Width vi vj vWidth].
    replace (k + nb + (i - (k + nb))) with i by lia.
    rewrite !Nat.sub_0_r. cbn [Nat.add].
    rewrite Get_write_outside by (cbn [vi vHeight]; lia).
    rewrite (trsm_steps_tail diagonal L X k nb i j) by lia.
    rewrite (sum_ext nb _
               (fun t => (Get L i (k + t) *
                          Get (trsm_steps diagonal L X k nb) (k + t) j)%T)).
    + ring.
    + intros t Ht. rewrite HY1 by lia. reflexivity.
  - rewrite Get_write_outside by (cbn [vi vHeight]; lia).
    destruct (le_lt_dec k i) as [Hblock|Hdone].
    + (* the rows of X1 *)
      rewrite Get_write_inside by (cbn [vi vj vHeight vWidth]; lia).
      cbn [vi vj]. rewrite HY1 by lia.
      replace (k + (i - k)) with i by lia.
      replace (j - 0) with j by lia. reflexivity.
    + (* the rows of X0 *)
      rewrite Get_write_outside by (cbn [vi vHeight]; lia).
      rewrite trsm_steps_above by lia. reflexivity.
Qed.

Lemma agree_trans m n A B C : agree m n A B -> agree m n B C -> agree m n A C.
Proof. intros H1 H2 i j Hi Hj. now rewrite H1, H2. Qed.

(** The loop, entered with the boundary at row [k], ends when given at
    least [m - k] units of fuel, and performs the steps k .. m-1 of the
    reference solve. *)
Lemma TrsmLLN_loop_spec bsize diagonal L m n (fuel : nat) :
  0 < bsize ->
  forall st k,
    LPart st = sweepL m k -> XPart st = sweepX m n k ->
    Height (Xc st) = m -> Width (Xc st) = n -> k <= m -> m - k <= fuel ->
    exists st',
      TrsmLLN_loop fuel bsize diagonal L st = Some st' /\
      Height (Xc st') = m /\ Width (Xc st') = n /\
      agree m n (Xc st') (trsm_steps diagonal L (Xc st) k (m - k)).
Proof.
  intros Hb. induction fuel as [|fuel IH];
    intros st k HL HX Hm Hn Hk Hfuel; cbn [TrsmLLN_loop];
    rewrite HX; cbn [sweepX pB vHeight];
    destruct (Nat.ltb_spec 0 (m - k)) as [Hpos|Hzero]; try lia;
    try (exists st; replace (m - k) with 0 by lia;
         repeat split; auto; intros i j _ _; reflexivity).
  set (nb := Nat.min bsize (m - k)).
  destruct (TrsmLLN_body_geometry bsize diagonal L st m n k HL HX Hk)
    as [HL' HX'].
  destruct (TrsmLLN_body_contents bsize diagonal L st m n k HL HX Hm Hn Hk)
    as (Hm' & Hn' & Hbody).
  fold nb in HL', HX', Hbody.
  destruct (IH (TrsmLLN_body bsize diagonal L st) (k + nb) HL' HX' Hm' Hn')
    as (st' & Hrun & Hm'' & Hn'' & Hrest); try (unfold nb; lia).
  exists st'. repeat split; auto.
  eapply agree_trans; [exact Hrest|].
  replace (m - k) with (nb + (m - (k + nb))) by (unfold nb; lia).
  rewrite trsm_steps_app.
  rewrite <- Hm' at 1.
  apply agree_trsm_steps.
  - rewrite Height_trsm_steps. congruence.
  - rewrite Hm'. unfold nb; lia.
  - rewrite Hm'. exact Hbody.
Qed.

Lemma Grid_neq_same g h : g = h -> Grid_neq g h = false.
Proof. intros ->. unfold Grid_neq. now rewrite Nat.eqb_refl. Qed.

Lemma TrsmLLN_check_conformal L X :
  GetGrid L = GetGrid X ->
  Height (Contents L) = Width (Contents L) ->
  Width (Contents L) = Height (Contents X) ->
  TrsmLLN_check L X = None.
Proof.
  intros Hg H1 H2. unfold TrsmLLN_check.
  rewrite (Grid_neq_same _ _ Hg), H1, H2, !Nat.eqb_refl. reflexivity.
Qed.


(** *** Errors and empty operands *)

Lemma TrsmLLN_throws_only_up_front RELEASE Blocksize fuel diagonal alpha
  L X r what :
  TrsmLLN RELEASE Blocksize fuel diagonal alpha L X = Some r ->
  completion r = logic_error what ->
  RELEASE = false /\ TrsmLLN_check L X = Some what /\
  operand r = Contents X /\ trace r = [].
Proof.
  unfold TrsmLLN. destruct RELEASE; cbn iota.
  - destruct (TrsmLLN_loop _ _ _ _ _); [|discriminate].
    intros [= <-]; discriminate.
  - destruct (TrsmLLN_check L X) as [w|].
    + intros [= <-] [= ->]. auto.
    + destruct (TrsmLLN_loop _ _ _ _ _); [|discriminate].
      intros [= <-]; discriminate.
Qed.

Lemma TrmmRLT_throws_only_up_front RELEASE Blocksize fuel orientation
  diagonal alpha L X r what :
  TrmmRLT RELEASE Blocksize fuel orientation diagonal alpha L X = Some r ->
  completion r = logic_error what ->
  RELEASE = false /\ TrmmRLT_check orientation L X = Some what /\
  operand r = Contents X /\ trace r = [].
Proof.
  unfold TrmmRLT. destruct RELEASE; cbn iota.
  - destruct (TrmmRLT_loop _ _ _ _ _ _); [|discriminate].
    intros [= <-]; discriminate.
  - destruct (TrmmRLT_check orientation L X) as [w|].
    + intros [= <-] [= ->]. auto.
    + destruct (TrmmRLT_loop _ _ _ _ _ _); [|discriminate].
      intros [= <-]; discriminate.
Qed.

Lemma nonconformal_eqb (a b c d : nat) :
  a <> b \/ c <> d -> negb (a =? b) || negb (c =? d) = true.
Proof.
  intros [H|H].
  - apply Nat.eqb_neq in H. now rewrite H.
  - apply Nat.eqb_neq in H. rewrite H. apply orb_true_r.
Qed.

(** C4, amended.  In a build without [RELEASE]: when [L] and [X] are on
    different grids, [TrsmLLN] and [TrmmRLT] throw the logic error
    "L and X must be distributed over the same grid."; when they are on
    the same grid (and, for [TrmmRLT], the orientation is not [Normal]) and
    their extents do not conform, the routine throws the logic error whose
    text names the extents of [L] and of [X].  Either error is thrown
    before any operation is performed and with [X] untouched.  The check
    is made once, at the head of the routine, and not per panel: whenever
    a call ends in a logic error of the routine, in any build, it is the
    error of that check, nothing has been performed and [X] is
    unchanged. *)
Theorem nonconformal_operands_throw_up_front
  (Blocksize fuel : nat) (orientation : Orientation) (diagonal : Diagonal)
  (alpha : T) (L X : DistMatrix) :
  let LH := Height (Contents L) in
  let LW := Width (Contents L) in
  let XH := Height (Contents X) in
  let XW := Width (Contents X) in
  (Grid_neq (GetGrid L) (GetGrid X) = true ->
   TrsmLLN false Blocksize fuel diagonal alpha L X
     = Some (mkRun (logic_error grids_differ) (Contents X) []) /\
   TrmmRLT false Blocksize fuel orientation diagonal alpha L X
     = Some (mkRun (logic_error grids_differ) (Contents X) [])) /\
  (GetGrid L = GetGrid X -> LH <> LW \/ LW <> XH ->
   TrsmLLN false Blocksize fuel diagonal alpha L X
     = Some (mkRun (logic_error (Nonconformal "TrsmLLN" LH LW XH XW))
                   (Contents X) [])) /\
  (GetGrid L = GetGrid X -> orientation <> Normal ->
   LH <> LW \/ XW <> LH ->
   TrmmRLT false Blocksize fuel orientation diagonal alpha L X
     = Some (mkRun (logic_error (Nonconformal "TrmmRLT" LH LW XH XW))
                   (Contents X) [])) /\
  (forall RELEASE r what,
     TrsmLLN RELEASE Blocksize fuel diagonal alpha L X = Some r ->
     completion r = logic_error what ->
     RELEASE = false /\ TrsmLLN_check L X = Some what /\
     operand r = Contents X /\ trace r = []) /\
  (forall RELEASE r what,
     TrmmRLT RELEASE Blocksize fuel orientation diagonal alpha L X = Some r ->
     completion r = logic_error what ->
     RELEASE = false /\ TrmmRLT_check orientation L X = Some what /\
     operand r = Contents X /\ trace r = []).
Proof.
  intros LH LW XH XW. repeat split.
  - unfold TrsmLLN, TrsmLLN_check. now rewrite H.
  - unfold TrmmRLT, TrmmRLT_check. now rewrite H.
  - intros Hg Hdim. unfold TrsmLLN, TrsmLLN_check.
    rewrite (Grid_neq_same _ _ Hg).
    fold LH LW XH XW. now rewrite (nonconformal_eqb _ _ _ _ Hdim).
  - intros Hg Ho Hdim. unfold TrmmRLT, TrmmRLT_check.
    rewrite (Grid_neq_same _ _ Hg).
    replace (Orientation_eqb orientation Normal) with false
      by (destruct orientation; auto; congruence).
    fold LH LW XH XW. now rewrite (nonconformal_eqb _ _ _ _ Hdim).
  - eapply TrsmLLN_throws_only_up_front; eauto.
  - eapply TrsmLLN_throws_only_up_front; eauto.
  - eapply TrsmLLN_throws_only_up_front; eauto.
  - eapply TrsmLLN_throws_only_up_front; eauto.
  - eapply TrmmRLT_throws_only_up_front; eauto.
  - eapply TrmmRLT_throws_only_up_front; eauto.
  - eapply TrmmRLT_throws_only_up_front; eauto.
  - eapply TrmmRLT_throws_only_up_front; eauto.
Qed.

Lemma Get_Scal_empty alpha X i j :
  Height X = 0 \/ Width X = 0 -> Get (Scal alpha X) i j = Get X i j.
Proof.
  intros H. simpl. unfold inside.
  destruct H as [-> | ->];
    [|rewrite andb_comm]; reflexivity.
Qed.

(** X25.  Empty operands are legal input of [TrsmLLN], of [TrmmRLT] and
    of the real [TridiagL].  With conforming operands on one
    grid, in either build and under any block size and any fuel:
    [TrsmLLN] on an [X] of height 0 and [TrmmRLT] on an [X] of width 0
    return without error after the local [blas::Scal] alone (the loop
    body is never entered, no data is moved) and leave the entries
    of [X] as they were; the real [TridiagL] on a 0 x 0 matrix and the
    sweep of [Trr2kNNTT] over an inner extent of 0 perform no iteration.
    (The complex [TridiagL] is not covered: on a 0 x 0 matrix it asks
    [t.ResizeTo( -1, 1 )] before its loop, see [TridiagL_t_extents].) *)
Theorem empty_operand_is_a_no_op
  (RELEASE : bool) (Blocksize fuel : nat) (orientation : Orientation)
  (diagonal : Diagonal) (alpha : T) (L X : DistMatrix) (g : Grid) :
  GetGrid L = GetGrid X ->
  Height (Contents L) = 0 -> Width (Contents L) = 0 ->
  (Height (Contents X) = 0 ->
   exists r,
     TrsmLLN RELEASE Blocksize fuel diagonal alpha L X = Some r /\
     completion r = Returned /\ trace r = [OpScal] /\
     Forall (fun o => communicates o = false) (trace r) /\
     Height (operand r) = Height (Contents X) /\
     Width (operand r) = Width (Contents X) /\
     forall i j, Get (operand r) i j = Get (Contents X) i j) /\
  (Width (Contents X) = 0 -> orientation <> Normal ->
   exists r,
     TrmmRLT RELEASE Blocksize fuel orientation diagonal alpha L X = Some r /\
     completion r = Returned /\ trace r = [OpScal] /\
     Forall (fun o => communicates o = false) (trace r) /\
     Height (operand r) = Height (Contents X) /\
     Width (operand r) = Width (Contents X) /\
     forall i j, Get (operand r) i j = Get (Contents X) i j) /\
  TridiagL RealScalars RELEASE Blocksize fuel
    (mkTridiagArgs g 0 0 g false false) = Some (Returned, []) /\
  Trr2k.Trr2kNNTT_panels fuel 0%Z 0%Z (Z.of_nat Blocksize) = Some [].
Proof.
  intros Hg HLh HLw. split; [|split; [|split]].
  - intros HXh.
    assert (Hcheck : (if RELEASE then None else TrsmLLN_check L X) = None).
    { destruct RELEASE; [reflexivity|].
      apply TrsmLLN_check_conformal; congruence. }
    unfold TrsmLLN. rewrite Hcheck.
    assert (Hloop : forall st : Sweep2 Part2x1,
              XPart st = PartitionDown (wholeView (Scal alpha (Contents X))) 0 ->
              TrsmLLN_loop fuel Blocksize diagonal (Contents L) st = Some st).
    { intros st Hst. destruct fuel; cbn [TrsmLLN_loop]; rewrite Hst;
        unfold PartitionDown, wholeView, subView;
        cbn [pB vHeight Height Scal]; rewrite HXh; reflexivity. }
    rewrite Hloop by reflexivity.
    eexists. split; [reflexivity|]. cbn [completion trace operand Xc ops].
    repeat split; auto.
    intros i j. apply Get_Scal_empty. now left.
  - intros HXw Ho.
    assert (Hcheck : (if RELEASE then None
                      else TrmmRLT_check orientation L X) = None).
    { destruct RELEASE; [reflexivity|]. unfold TrmmRLT_check.
      rewrite (Grid_neq_same _ _ Hg), HLh, HLw, HXw.
      destruct orientation; auto; congruence. }
    unfold TrmmRLT. rewrite Hcheck.
    assert (Hloop : forall st : Sweep2 Part1x2,
              XPart st = PartitionLeft (wholeView (Scal alpha (Contents X))) 0 ->
              TrmmRLT_loop fuel Blocksize orientation diagonal (Contents L) st
              = Some st).
    { intros st Hst. destruct fuel; cbn [TrmmRLT_loop]; rewrite Hst;
        unfold PartitionLeft, wholeView, subView;
        cbn [pL vWidth Width Scal]; rewrite HXw; reflexivity. }
    rewrite Hloop by reflexivity.
    eexists. split; [reflexivity|]. cbn [completion trace operand Xc ops].
    repeat split; auto.
    intros i j. apply Get_Scal_empty. now right.
  - unfold TridiagL.
    replace (if RELEASE then None
             else TridiagL_check RealScalars
                    (mkTridiagArgs g 0 0 g false false))
      with (@None string) by (destruct RELEASE; reflexivity).
    destruct fuel; reflexivity.
  - unfold Trr2k.Trr2kNNTT_panels. destruct fuel; reflexivity.
Qed.

(* --------------------------------------------------------------------- *)
(** *** The blocked [TrmmRLT] against the local kernel *)

Lemma sum_split (a b : nat) (f : nat -> T) :
  sum (a + b) f = (sum a f + sum b (fun t => f (a + t)%nat))%T.
Proof.
  induction b as [|b IH].
  - rewrite Nat.add_0_r. cbn [sum]. ring.
  - rewrite Nat.add_succ_r. cbn [sum]. rewrite IH. ring.
Qed.

Lemma sum_all_zero (n : nat) (f : nat -> T) :
  (forall t, t < n -> f t = zero) -> sum n f = zero.
Proof.
  induction n as [|n IH]; intros H; cbn [sum]; [reflexivity|].
  rewrite IH, H by auto. ring.
Qed.

Lemma sum_scal (alpha : T) (n : nat) (f : nat -> T) :
  (alpha * sum n f)%T = sum n (fun t => alpha * f t)%T.
Proof. induction n as [|n IH]; cbn [sum]; [ring|]. rewrite <- IH. ring. Qed.

Lemma Get_write_beside A v B i j :
  j < vj v \/ vj v + vWidth v <= j ->
  Get (write A v B) i j = Get A i j.
Proof.
  intros H. simpl.
  destruct (Nat.leb_spec (vi v) i); [|reflexivity].
  destruct (Nat.ltb_spec i (vi v + vHeight v)); [|reflexivity].
  destruct (Nat.leb_spec (vj v) j); [|reflexivity].
  destruct (Nat.ltb_spec j (vj v + vWidth v)); [lia|reflexivity].
Qed.

(** Entry (t,j) of op(tril(L)) for the two orientations [TrmmRLT]
    accepts. *)
Definition twist (orientation : Orientation) (x : T) : T :=
  match orientation with ConjugateTranspose => conj x | _ => x end.

Lemma OrientedGet_transposed orientation A t j :
  orientation <> Normal ->
  OrientedGet orientation A t j = twist orientation (Get A j t).
Proof. destruct orientation; [congruence|reflexivity|reflexivity]. Qed.

(** Entry (i,j) of X op(tril(L)), without the scaling. *)
Definition trmm_entry (orientation : Orientation) (diagonal : Diagonal)
  (L X : Matrix) (i j : nat) : T :=
  sum (Width X)
      (fun t => Get X i t *
                OrientedGet orientation
                  (mkMatrix (Height L) (Width L) (tril diagonal L)) t j)%T.

Lemma tril_block diagonal L k0 nb a b :
  tril diagonal (read L (mkView k0 k0 nb nb)) b a
  = tril diagonal L (k0 + b) (k0 + a).
Proof.
  unfold tril. cbn [read Get vi vj].
  destruct (Nat.ltb_spec a b), (Nat.ltb_spec (k0 + a) (k0 + b)); try lia;
    try reflexivity.
  destruct (Nat.eqb_spec a b), (Nat.eqb_spec (k0 + a) (k0 + b)); try lia;
    reflexivity.
Qed.

Lemma Get_SumScatterUpdate alpha D X1 i j :
  i < Height X1 -> j < Width X1 ->
  Get (SumScatterUpdate alpha D X1) i j = (Get X1 i j + alpha * Get D i j)%T.
Proof.
  intros Hi Hj. simpl. unfold inside.
  destruct (Nat.ltb_spec i (Height X1)); [|lia].
  destruct (Nat.ltb_spec j (Width X1)); [|lia].
  reflexivity.
Qed.

Lemma Get_LocalTrmm_RL orientation diagonal alpha L X i j :
  i < Height X -> j < Width X ->
  Get (LocalTrmm_RL orientation diagonal alpha L X) i j =
  (alpha * trmm_entry orientation diagonal L X i j)%T.
Proof.
  intros Hi Hj. simpl. unfold inside.
  destruct (Nat.ltb_spec i (Height X)); [|lia].
  destruct (Nat.ltb_spec j (Width X)); [|lia].
  reflexivity.
Qed.

Lemma Get_LocalGemm_N orientation alpha A B beta C i j :
  i < Height C -> j < Width C ->
  Get (LocalGemm Normal orientation alpha A B beta C) i j =
  (alpha * sum (Width A) (fun t => Get A i t * OrientedGet orientation B t j)
   + beta * Get C i j)%T.
Proof.
  intros Hi Hj. simpl. unfold inside.
  destruct (Nat.ltb_spec i (Height C)); [|lia].
  destruct (Nat.ltb_spec j (Width C)); [|lia].
  reflexivity.
Qed.

(** One pass through the body of the loop of [TrmmRLT], with the boundary
    at column [k]: the columns k-nb .. k-1 receive their entries of
    X0 op(tril(L)), computed from the columns 0 .. k-1, which still hold
    the entries of [X0]; the other columns stay. *)
Lemma TrmmRLT_body_contents bsize orientation diagonal L X0 st h m k :
  orientation <> Normal ->
  pTL (LPart st) = mkView 0 0 k k -> pL (XPart st) = mkView 0 0 h k ->
  Height (Xc st) = h -> Width (Xc st) = m -> Width X0 = m -> k <= m ->
  (forall i j, i < h -> j < k -> Get (Xc st) i j = Get X0 i j) ->
  let nb := Nat.min bsize k in
  let st' := TrmmRLT_body bsize orientation diagonal L st in
  pTL (LPart st') = mkView 0 0 (k - nb) (k - nb) /\
  pL (XPart st') = mkView 0 0 h (k - nb) /\
  Height (Xc st') = h /\ Width (Xc st') = m /\
  (forall i j, i < h -> j < k - nb \/ k <= j ->
     Get (Xc st') i j = Get (Xc st) i j) /\
  (twist orientation zero = zero ->
   forall i j, i < h -> k - nb <= j -> j < k ->
     Get (Xc st') i j = trmm_entry orientation diagonal L X0 i j).
Proof.
  intros Ho HL HX Hh Hm Hm0 Hk Hleft nb st'.
  unfold st', TrmmRLT_body. cbn [Xc LPart XPart].
  unfold RepartitionUpDiagonal, RepartitionLeft, SlidePartitionUpDiagonal,
    SlidePartitionLeft.
  rewrite HL, HX. unfold subView.
  cbn [vi vj vHeight vWidth pTL pTR pBL pBR pL pR p0 p1 p2
       p00 p01 p02 p10 p11 p12 p20 p21 p22 Nat.add].
  rewrite Nat.min_id. fold nb.
  set (k0 := k - nb).
  set (X := Xc st) in *.
  split; [reflexivity|]. split; [reflexivity|].
  split; [exact Hh|]. split; [exact Hm|].
  assert (Hnb : k0 + nb = k) by (unfold k0, nb; lia).
  split.
  - intros i j Hi Hj.
    rewrite !Get_write_beside by (cbn [vj vWidth]; lia). reflexivity.
  - intros Hz i j Hi Hj1 Hj2.
    rewrite Get_write_inside by (cbn [vi vj vHeight vWidth]; lia).
    cbn [vi vj].
    rewrite Nat.sub_0_r.
    assert (Hb : j - k0 < nb) by lia.
    assert (Hj : j = k0 + (j - k0)) by lia.
    set (b := j - k0) in *. clearbody b. subst j.
    rewrite Get_SumScatterUpdate by (cbn [read Height Width vHeight vWidth]; lia).
    rewrite Get_LocalGemm_N by (cbn [Height Width]; lia).
    cbn [read Get Width Height vi vj vHeight vWidth Nat.add].
    rewrite Get_write_inside by (cbn [vi vj vHeight vWidth]; lia).
    cbn [vi vj]. rewrite Nat.sub_0_r.
    replace (k0 + b - k0) with b by lia.
    rewrite Get_LocalTrmm_RL by (cbn [read Height Width vHeight vWidth]; lia).
    unfold trmm_entry at 1. cbn [read Get Width Height vi vj vHeight vWidth Nat.add].
    unfold trmm_entry. rewrite Hm0.
    replace m with (k0 + (nb + (m - k))) by lia.
    rewrite !sum_split.
    rewrite (sum_all_zero (m - k)).
    2:{ intros t Ht. rewrite OrientedGet_transposed by exact Ho.
        cbn [Get]. unfold tril.
        destruct (Nat.ltb_spec (k0 + (nb + t)) (k0 + b)); [lia|].
        destruct (Nat.eqb_spec (k0 + (nb + t)) (k0 + b)); [lia|].
        rewrite Hz. ring. }
    rewrite (sum_ext nb _
               (fun t => (Get X0 i (k0 + t) *
                          OrientedGet orientation
                            (mkMatrix (Height L) (Width L) (tril diagonal L))
                            (k0 + t) (k0 + b))%T)).
    2:{ intros t Ht. rewrite Hleft by lia.
        rewrite !OrientedGet_transposed by exact Ho.
        cbn [Get]. rewrite tril_block. reflexivity. }
    rewrite (sum_ext k0 _
               (fun t => (Get X0 i t *
                          OrientedGet orientation
                            (mkMatrix (Height L) (Width L) (tril diagonal L))
                            t (k0 + b))%T)).
    2:{ intros t Ht.
        rewrite Get_write_beside by (cbn [vj vWidth]; lia).
        rewrite Hleft by lia.
        rewrite !OrientedGet_transposed by exact Ho.
        cbn [Get read vi vj Nat.add]. unfold tril.
        destruct (Nat.ltb_spec t (k0 + b)); [|lia]. reflexivity. }
    ring.
Qed.

(** The loop of [TrmmRLT], entered with the boundary at column [k], ends
    when given at least [k] units of fuel; it fills the columns 0 .. k-1
    and leaves the others. *)
Lemma TrmmRLT_loop_spec bsize orientation diagonal L X0 h m (fuel : nat) :
  0 < bsize -> orientation <> Normal -> Width X0 = m ->
  twist orientation zero = zero ->
  forall st k,
    pTL (LPart st) = mkView 0 0 k k -> pL (XPart st) = mkView 0 0 h k ->
    Height (Xc st) = h -> Width (Xc st) = m -> k <= m -> k <= fuel ->
    (forall i j, i < h -> j < k -> Get (Xc st) i j = Get X0 i j) ->
    exists st',
      TrmmRLT_loop fuel bsize orientation diagonal L st = Some st' /\
      Height (Xc st') = h /\ Width (Xc st') = m /\
      (forall i j, i < h -> j < k ->
         Get (Xc st') i j = trmm_entry orientation diagonal L X0 i j) /\
      (forall i j, i < h -> k <= j -> Get (Xc st') i j = Get (Xc st) i j).
Proof.
  intros Hb Ho Hm0 Hz. induction fuel as [|fuel IH];
    intros st k HL HX Hh Hm Hk Hfuel Hleft; cbn [TrmmRLT_loop];
    rewrite HX; cbn [vWidth];
    destruct (Nat.ltb_spec 0 k) as [Hpos|Hzero]; try lia;
    try (exists st; repeat split; auto; intros; lia).
  destruct (TrmmRLT_body_contents bsize orientation diagonal L X0 st h m k
              Ho HL HX Hh Hm Hm0 Hk Hleft)
    as (HL' & HX' & Hh' & Hm' & Hstay & Hnew).
  set (nb := Nat.min bsize k) in *.
  set (st1 := TrmmRLT_body bsize orientation diagonal L st) in *.
  destruct (IH st1 (k - nb) HL' HX' Hh' Hm')
    as (st' & Hrun & Hh'' & Hm'' & Hdone & Hrest); try (unfold nb; lia).
  { intros i j Hi Hj. rewrite Hstay by lia. apply Hleft; lia. }
  exists st'. repeat split; auto.
  - intros i j Hi Hj.
    destruct (le_lt_dec (k - nb) j) as [Hblock|Hbefore].
    + rewrite Hrest by lia. apply Hnew; auto.
    + apply Hdone; auto.
  - intros i j Hi Hj. rewrite Hrest by lia. apply Hstay; lia.
Qed.
Lemma TrmmRLT_check_conformal orientation L X :
  GetGrid L = GetGrid X -> orientation <> Normal ->
  Height (Contents L) = Width (Contents L) ->
  Width (Contents X) = Height (Contents L) ->
  TrmmRLT_check orientation L X = None.
Proof.
  intros Hg Ho H1 H2. unfold TrmmRLT_check.
  rewrite (Grid_neq_same _ _ Hg), H2, <- H1, !Nat.eqb_refl.
  destruct orientation; [congruence|reflexivity|reflexivity].
Qed.

(** The run of [TrmmRLT] on conforming operands, entry by entry. *)
Lemma TrmmRLT_run (RELEASE : bool) (Blocksize fuel : nat)
  (orientation : Orientation) (diagonal : Diagonal) (alpha : T)
  (L X : DistMatrix) :
  GetGrid L = GetGrid X -> orientation <> Normal ->
  Height (Contents L) = Width (Contents L) ->
  Width (Contents X) = Height (Contents L) ->
  0 < Blocksize -> Width (Contents X) <= fuel ->
  (orientation = ConjugateTranspose -> conj zero = zero) ->
  exists r,
    TrmmRLT RELEASE Blocksize fuel orientation diagonal alpha L X = Some r /\
    completion r = Returned /\
    Height (operand r) = Height (Contents X) /\
    Width (operand r) = Width (Contents X) /\
    forall i j, i < Height (Contents X) -> j < Width (Contents X) ->
      Get (operand r) i j =
      trmm_entry orientation diagonal (Contents L)
                 (Scal alpha (Contents X)) i j.
Proof.
  intros Hg Ho Hsq Hconf Hb Hfuel Hconj.
  set (h := Height (Contents X)). set (m := Width (Contents X)).
  set (X0 := Scal alpha (Contents X)).
  assert (Hz : twist orientation zero = zero).
  { destruct orientation; cbn [twist]; auto. }
  assert (Hcheck : (if RELEASE then None
                    else TrmmRLT_check orientation L X) = None).
  { destruct RELEASE; [reflexivity|]. now apply TrmmRLT_check_conformal. }
  unfold TrmmRLT. rewrite Hcheck. fold X0.
  destruct (TrmmRLT_loop_spec Blocksize orientation diagonal (Contents L) X0
              h m fuel Hb Ho eq_refl Hz
              (mkSweep2 (PartitionUpDiagonal (wholeView (Contents L)) 0)
                        (PartitionLeft (wholeView X0) 0) X0 [OpScal]) m)
    as (st' & Hrun & Hh' & Hm' & Hdone & _);
    try reflexivity; try (unfold m in *; lia).
  { unfold PartitionUpDiagonal, wholeView, subView.
    cbn [LPart pTL vi vj vHeight vWidth Nat.min Nat.add].
    rewrite !Nat.sub_0_r. f_equal; unfold m; lia. }
  { unfold PartitionLeft, wholeView, subView.
    cbn [XPart pL vi vj vHeight vWidth Nat.min Nat.add Height Width X0 Scal].
    rewrite !Nat.sub_0_r. reflexivity. }
  rewrite Hrun. eexists. split; [reflexivity|]. cbn [completion operand].
  split; [reflexivity|]. split; [exact Hh'|]. split; [exact Hm'|].
  exact Hdone.
Qed.

(** X1.  For a square [L], a conforming [X] on the same grid, an
    orientation other than [Normal], every scalar [alpha] and every block
    size of at least 1, the blocked [TrmmRLT] returns, and it leaves in [X]
    the entries of alpha X op(tril(L)) (trilu(L) under [Unit]), that is,
    what the local kernel [LocalTrmm] computes from the whole operands.
    The scalars are those of any field; under [ConjugateTranspose] the
    conjugate of zero is zero. *)
Theorem TrmmRLT_blocked_equals_kernel
  (RELEASE : bool) (Blocksize fuel : nat) (orientation : Orientation)
  (diagonal : Diagonal) (alpha : T) (L X : DistMatrix) :
  GetGrid L = GetGrid X -> orientation <> Normal ->
  Height (Contents L) = Width (Contents L) ->
  Width (Contents X) = Height (Contents L) ->
  0 < Blocksize -> Width (Contents X) <= fuel ->
  (orientation = ConjugateTranspose -> conj zero = zero) ->
  exists r,
    TrmmRLT RELEASE Blocksize fuel orientation diagonal alpha L X = Some r /\
    completion r = Returned /\
    Height (operand r) = Height (Contents X) /\
    Width (operand r) = Width (Contents X) /\
    forall i j, i < Height (Contents X) -> j < Width (Contents X) ->
      Get (operand r) i j =
      Get (LocalTrmm_RL orientation diagonal alpha (Contents L) (Contents X))
          i j.
Proof.
  intros Hg Ho Hsq Hconf Hb Hfuel Hconj.
  destruct (TrmmRLT_run RELEASE Blocksize fuel orientation diagonal alpha
              L X Hg Ho Hsq Hconf Hb Hfuel Hconj)
    as (r & Hr & Hc & Hh & Hw & He).
  exists r. repeat split; auto.
  intros i j Hi Hj. rewrite He by assumption.
  rewrite Get_LocalTrmm_RL by assumption.
  unfold trmm_entry. rewrite sum_scal. apply sum_ext.
  intros t Ht. cbn [Scal Get Width] in *. unfold inside.
  destruct (Nat.ltb_spec i (Height (Contents X))); [|lia].
  destruct (Nat.ltb_spec t (Width (Contents X))); [|lia].
  cbn [andb]. ring.
Qed.

(** *** What [TrsmLLN] reads of [L] *)

(** [L] and [L'] hold the same lower triangle in their first [m] rows: the
    same entries below the diagonal, and on it unless the diagonal is taken
    as [Unit]. *)
Definition same_lower (diagonal : Diagonal) (m : nat) (L L' : Matrix) : Prop :=
  forall i j, i < m -> j < i \/ (j = i /\ diagonal = NonUnit) ->
    Get L i j = Get L' i j.

Lemma trsm_steps_same_lower diagonal m L L' B k0 count :
  same_lower diagonal m L L' -> Height B <= m -> k0 + count <= m ->
  forall i j, Get (trsm_steps diagonal L B k0 count) i j
            = Get (trsm_steps diagonal L' B k0 count) i j.
Proof.
  intros HL HB. induction count as [|c IH]; intros Hc i j; cbn [trsm_steps];
    [reflexivity|].
  cbn [trsm_step Get]. rewrite !Height_trsm_steps, !IH by lia.
  destruct (Nat.eqb_spec i (k0 + c)) as [->|Hne].
  - destruct diagonal; [|reflexivity].
    rewrite (HL (k0 + c) (k0 + c)) by (auto; lia). reflexivity.
  - destruct (Nat.ltb_spec (k0 + c) i) as [Hlt|Hge]; [|reflexivity].
    cbn [andb]. destruct (Nat.ltb_spec i (Height B)); [|reflexivity].
    rewrite (HL i (k0 + c)) by (auto; lia).
    destruct diagonal; [|reflexivity].
    rewrite (HL (k0 + c) (k0 + c)) by (auto; lia). reflexivity.
Qed.

(** X2.  [TrsmLLN] reads of [L] its lower triangle only: two square
    matrices [L] and [L'] of the same extent that hold the same entries
    below the diagonal, and on it unless the diagonal is [Unit], lead to
    the same entries of [X], whatever stands above the diagonal (and, under
    [Unit], on it). *)
Theorem TrsmLLN_reads_the_lower_triangle_only
  (RELEASE : bool) (Blocksize fuel : nat) (diagonal : Diagonal) (alpha : T)
  (L L' X : DistMatrix) :
  GetGrid L = GetGrid X -> GetGrid L' = GetGrid X ->
  Height (Contents L) = Width (Contents L) ->
  Width (Contents L) = Height (Contents X) ->
  Height (Contents L') = Width (Contents L') ->
  Width (Contents L') = Height (Contents X) ->
  0 < Blocksize -> Height (Contents X) <= fuel ->
  (forall i j, i < Height (Contents X) ->
     j < i \/ (j = i /\ diagonal = NonUnit) ->
     Get (Contents L) i j = Get (Contents L') i j) ->
  exists r r',
    TrsmLLN RELEASE Blocksize fuel diagonal alpha L X = Some r /\
    TrsmLLN RELEASE Blocksize fuel diagonal alpha L' X = Some r' /\
    completion r = Returned /\ completion r' = Returned /\
    forall i j, i < Height (Contents X) -> j < Width (Contents X) ->
      Get (operand r) i j = Get (operand r') i j.
Proof.
  intros Hg Hg' Hsq Hconf Hsq' Hconf' Hb Hfuel Hlow.
  set (m := Height (Contents X)) in *. set (n := Width (Contents X)).
  set (X0 := Scal alpha (Contents X)).
  assert (Hstart : forall M : DistMatrix,
            Height (Contents M) = Width (Contents M) ->
            Width (Contents M) = m ->
            PartitionDownDiagonal (wholeView (Contents M)) 0 = sweepL m 0).
  { intros M H1 H2.
    unfold sweepL, PartitionDownDiagonal, wholeView, subView.
    cbn [vi vj vHeight vWidth Nat.min Nat.add].
    f_equal; f_equal; lia. }
  assert (Hrun : forall M : DistMatrix,
            GetGrid M = GetGrid X ->
            Height (Contents M) = Width (Contents M) ->
            Width (Contents M) = m ->
            exists r,
              TrsmLLN RELEASE Blocksize fuel diagonal alpha M X = Some r /\
              completion r = Returned /\
              agree m n (operand r)
                    (trsm_steps diagonal (Contents M) X0 0 m)).
  { intros M HgM H1 H2.
    destruct (TrsmLLN_loop_spec Blocksize diagonal (Contents M) m n fuel Hb
                (mkSweep2 (PartitionDownDiagonal (wholeView (Contents M)) 0)
                          (PartitionDown (wholeView X0) 0) X0 [OpScal]) 0
                (Hstart M H1 H2) eq_refl eq_refl eq_refl)
      as (st' & Hloop & _ & _ & Hagree); try lia.
    cbn [Xc] in Hagree. rewrite Nat.sub_0_r in Hagree.
    unfold TrsmLLN.
    replace (if RELEASE then None else TrsmLLN_check M X) with (@None string)
      by (destruct RELEASE; [reflexivity|];
          symmetry; now apply TrsmLLN_check_conformal).
    fold X0. rewrite Hloop. eexists. repeat split. exact Hagree. }
  destruct (Hrun L Hg Hsq Hconf) as (r & Hr & Hc & Ha).
  destruct (Hrun L' Hg' Hsq' Hconf') as (r' & Hr' & Hc' & Ha').
  exists r, r'. repeat split; auto.
  intros i j Hi Hj. rewrite Ha, Ha' by assumption.
  apply (trsm_steps_same_lower diagonal m); auto.
Qed.

(** *** How many passes [TrsmLLN] makes *)

Lemma ceil_div_step (x bsize : nat) :
  0 < bsize -> 0 < x ->
  (x + bsize - 1) / bsize = S ((x - Nat.min bsize x + bsize - 1) / bsize).
Proof.
  intros Hb Hx. destruct (le_lt_dec bsize x) as [Hbig|Hsmall].
  - rewrite Nat.min_l by lia.
    replace (x + bsize - 1) with (x - bsize + bsize - 1 + 1 * bsize) by lia.
    rewrite Nat.div_add by lia. lia.
  - rewrite Nat.min_r by lia.
    replace (x - x + bsize - 1) with (bsize - 1) by lia.
    rewrite (Nat.div_small (bsize - 1)) by lia.
    symmetry. apply (Nat.div_unique _ _ _ (x - 1)); lia.
Qed.

Lemma TrsmLLN_loop_ops bsize diagonal L m n (fuel : nat) :
  0 < bsize ->
  forall st k,
    LPart st = sweepL m k -> XPart st = sweepX m n k ->
    k <= m -> m - k <= fuel ->
    exists st',
      TrsmLLN_loop fuel bsize diagonal L st = Some st' /\
      List.length (ops st')
      = List.length (ops st) + 11 * ((m - k + bsize - 1) / bsize) /\
      List.length (filter communicates (ops st'))
      = List.length (filter communicates (ops st))
        + 5 * ((m - k + bsize - 1) / bsize).
Proof.
  intros Hb. induction fuel as [|fuel IH];
    intros st k HL HX Hk Hfuel; cbn [TrsmLLN_loop];
    rewrite HX; cbn [sweepX pB vHeight];
    destruct (Nat.ltb_spec 0 (m - k)) as [Hpos|Hzero]; try lia;
    try (exists st; replace (m - k) with 0 by lia;
         rewrite (Nat.div_small (0 + bsize - 1)) by lia;
         repeat split; lia).
  destruct (TrsmLLN_body_geometry bsize diagonal L st m n k HL HX Hk)
    as [HL' HX'].
  destruct (IH (TrsmLLN_body bsize diagonal L st)
               (k + Nat.min bsize (m - k)) HL' HX')
    as (st' & Hrun & Hlen & Hcomm); try lia.
  exists st'. split; [exact Hrun|].
  rewrite (ceil_div_step (m - k) bsize) by lia.
  replace (m - (k + Nat.min bsize (m - k)))
    with (m - k - Nat.min bsize (m - k)) in Hlen, Hcomm by lia.
  rewrite Hlen, Hcomm. unfold TrsmLLN_body. cbn [ops].
  rewrite filter_app, !length_app. cbn [filter communicates List.length].
  lia.
Qed.

(** X3.  On conforming operands [TrsmLLN] makes ceil(m / Blocksize) passes
    through its loop, m being the height of [X]: after the local scaling
    each pass performs eleven operations, five of them redistributions.
    The number of redistributions is 5 ceil(m / Blocksize), whatever the
    width of [X], the scalar and the entries. *)
Theorem TrsmLLN_redistributions_per_pass
  (RELEASE : bool) (Blocksize fuel : nat) (diagonal : Diagonal) (alpha : T)
  (L X : DistMatrix) :
  GetGrid L = GetGrid X ->
  Height (Contents L) = Width (Contents L) ->
  Width (Contents L) = Height (Contents X) ->
  0 < Blocksize -> Height (Contents X) <= fuel ->
  let passes := (Height (Contents X) + Blocksize - 1) / Blocksize in
  exists r,
    TrsmLLN RELEASE Blocksize fuel diagonal alpha L X = Some r /\
    List.length (trace r) = 1 + 11 * passes /\
    List.length (filter communicates (trace r)) = 5 * passes.
Proof.
  intros Hg Hsq Hconf Hb Hfuel passes.
  set (m := Height (Contents X)) in *. set (n := Width (Contents X)).
  set (X0 := Scal alpha (Contents X)).
  assert (HL0 : PartitionDownDiagonal (wholeView (Contents L)) 0
                = sweepL m 0).
  { unfold sweepL, PartitionDownDiagonal, wholeView, subView.
    cbn [vi vj vHeight vWidth Nat.min Nat.add].
    f_equal; f_equal; lia. }
  destruct (TrsmLLN_loop_ops Blocksize diagonal (Contents L) m n fuel Hb
              (mkSweep2 (PartitionDownDiagonal (wholeView (Contents L)) 0)
                        (PartitionDown (wholeView X0) 0) X0 [OpScal]) 0
              HL0 eq_refl)
    as (st' & Hrun & Hlen & Hcomm); try lia.
  unfold TrsmLLN.
  replace (if RELEASE then None else TrsmLLN_check L X) with (@None string)
    by (destruct RELEASE; [reflexivity|];
        symmetry; now apply TrsmLLN_check_conformal).
  fold X0. rewrite Hrun. eexists. split; [reflexivity|].
  cbn [trace]. rewrite Hlen, Hcomm, Nat.sub_0_r.
  cbn [ops filter communicates List.length]. fold passes. lia.
Qed.

(** *** What [TrmmRLT] reads of [L] *)

(** X21.  [TrmmRLT] reads of [L] its lower triangle only: two square
    matrices [L] and [L'] of the same extent that hold the same entries
    below the diagonal, and on it unless the diagonal is [Unit], lead to
    the same entries of [X], whatever stands above the diagonal (and,
    under [Unit], on it). *)
Theorem TrmmRLT_reads_the_lower_triangle_only
  (RELEASE : bool) (Blocksize fuel : nat) (orientation : Orientation)
  (diagonal : Diagonal) (alpha : T) (L L' X : DistMatrix) :
  GetGrid L = GetGrid X -> GetGrid L' = GetGrid X ->
  orientation <> Normal ->
  Height (Contents L) = Width (Contents L) ->
  Width (Contents X) = Height (Contents L) ->
  Height (Contents L') = Width (Contents L') ->
  Width (Contents X) = Height (Contents L') ->
  0 < Blocksize -> Width (Contents X) <= fuel ->
  (orientation = ConjugateTranspose -> conj zero = zero) ->
  (forall i j, i < Width (Contents X) ->
     j < i \/ (j = i /\ diagonal = NonUnit) ->
     Get (Contents L) i j = Get (Contents L') i j) ->
  exists r r',
    TrmmRLT RELEASE Blocksize fuel orientation diagonal alpha L X = Some r /\
    TrmmRLT RELEASE Blocksize fuel orientation diagonal alpha L' X = Some r' /\
    completion r = Returned /\ completion r' = Returned /\
    forall i j, i < Height (Contents X) -> j < Width (Contents X) ->
      Get (operand r) i j = Get (operand r') i j.
Proof.
  intros Hg Hg' Ho Hsq Hconf Hsq' Hconf' Hb Hfuel Hconj Hlow.
  destruct (TrmmRLT_run RELEASE Blocksize fuel orientation diagonal alpha
              L X Hg Ho Hsq Hconf Hb Hfuel Hconj)
    as (r & Hr & Hc & _ & _ & He).
  destruct (TrmmRLT_run RELEASE Blocksize fuel orientation diagonal alpha
              L' X Hg' Ho Hsq' Hconf' Hb Hfuel Hconj)
    as (r' & Hr' & Hc' & _ & _ & He').
  exists r, r'. repeat split; auto.
  intros i j Hi Hj. rewrite He, He' by assumption.
  unfold trmm_entry. apply sum_ext. intros t Ht.
  rewrite !OrientedGet_transposed by exact Ho. cbn [Get].
  f_equal. f_equal. unfold tril.
  destruct (Nat.ltb_spec t j) as [Hlt|Hge]; [apply Hlow; auto|].
  destruct (Nat.eqb_spec t j) as [->|Hne]; [|reflexivity].
  destruct diagonal; [|reflexivity]. apply Hlow; auto.
Qed.

End Scalars.

(** *** The routines at concrete scalars *)

(** Rational scalars: a 3 x 3 lower-triangular system with one right-hand
    side, solved with block size 2. *)
Definition Qc_of (z : Z) : Qc := Q2Qc (inject_Z z).

Definition exampleGrid : Grid := mkGrid 0 2 2.

Definition L3 : DistMatrix Qc :=
  mkDistMatrix Qc exampleGrid
    (mkMatrix Qc 3 3
       (fun i j => match i, j with
                   | 0, 0 => Qc_of 2
                   | 1, 0 => Qc_of 1 | 1, 1 => Qc_of 4
                   | 2, 0 => Qc_of 3 | 2, 1 => Qc_of 5 | 2, 2 => Qc_of 7
                   | _, _ => Qc_of 9
                   end)).

Definition X3 : DistMatrix Qc :=
  mkDistMatrix Qc exampleGrid
    (mkMatrix Qc 3 1
       (fun i _ => match i with
                   | 0 => Qc_of 2 | 1 => Qc_of 9 | _ => Qc_of 27
                   end)).

Definition TrsmLLN_Qc :=
  TrsmLLN Qc (Qc_of 0) (Qc_of 1) Qcplus Qcmult Qcminus Qcopp Qcdiv
          (fun x => x).

Example TrsmLLN_3_by_2 :
  option_map (fun r => map (fun i => this (Get Qc (operand Qc r) i 0))
                           [0; 1; 2])
             (TrsmLLN_Qc false 2 3 NonUnit (Qc_of 1) L3 X3)
  = Some [1%Q; 2%Q; 2%Q].
Proof. vm_compute. reflexivity. Qed.


(** Integer entries, for runs where only extents and grids matter. *)
Definition TrsmLLN_Z :=
  TrsmLLN Z 0%Z 1%Z Z.add Z.mul Z.sub Z.opp Z.div (fun x => x).

Definition TrmmRLT_Z :=
  TrmmRLT Z 0%Z 1%Z Z.add Z.mul (fun x => x).

Definition ones (g : Grid) (height width : nat) : DistMatrix Z :=
  mkDistMatrix Z g (mkMatrix Z height width (fun _ _ => 1%Z)).

(** C4 fails as stated.  (a) Compiled with [RELEASE], [TrsmLLN] on a
    2 x 2 [L] and a 0 x 3 [X] (so [L.Width() != X.Height()]) throws
    nothing and returns.  (b) Without [RELEASE], for a 3 x 3 [L] and a
    2 x 2 [X] on different grids, the error thrown is the fixed text about
    grids, which names no extent.  (c) Without [RELEASE], [TrmmRLT] called
    with [Normal] on the same grid and the same extents throws the text
    about the orientation, which names no extent either. *)
Lemma nonconformal_operands_not_always_reported :
  (Width Z (Contents Z (ones exampleGrid 2 2))
     <> Height Z (Contents Z (ones exampleGrid 0 3)) /\
   exists r,
     TrsmLLN_Z true 1 0 NonUnit 1%Z (ones exampleGrid 2 2)
                                    (ones exampleGrid 0 3) = Some r /\
     completion Z r = Returned) /\
  (exists r,
     TrsmLLN_Z false 1 0 NonUnit 1%Z (ones exampleGrid 3 3)
                                     (ones (mkGrid 1 2 2) 2 2) = Some r /\
     completion Z r = logic_error grids_differ /\
     grids_differ <> Nonconformal "TrsmLLN" 3 3 2 2) /\
  (exists r,
     TrmmRLT_Z false 1 0 Normal NonUnit 1%Z (ones exampleGrid 3 3)
                                            (ones exampleGrid 2 2) = Some r /\
     completion Z r = logic_error expects_transpose /\
     expects_transpose <> Nonconformal "TrmmRLT" 3 3 2 2).
Proof.
  split; [|split].
  - split; [simpl; lia|]. eexists. split; reflexivity.
  - eexists. split; [reflexivity|]. split; [reflexivity|]. discriminate.
  - eexists. split; [reflexivity|]. split; [reflexivity|]. discriminate.
Qed.

Example Nonconformal_text :
  Nonconformal "TrsmLLN" 3 3 2 12
  = ("Nonconformal TrsmLLN: " ++ endl ++
     "  L ~ 3 x 3" ++ endl ++ "  X ~ 2 x 12" ++ endl)%string.
Proof. reflexivity. Qed.

(** A 3 x 3 [L] against a 2 x 2 [X] on one grid, without [RELEASE]. *)
Lemma nonconformal_operands_throw_up_front_witness :
  TrsmLLN_Z false 2 5 NonUnit 1%Z (ones exampleGrid 3 3)
                                  (ones exampleGrid 2 2)
  = Some (mkRun Z (logic_error (Nonconformal "TrsmLLN" 3 3 2 2))
                (Contents Z (ones exampleGrid 2 2)) []) /\
  TrmmRLT_Z false 2 5 Transpose NonUnit 1%Z (ones exampleGrid 3 3)
                                            (ones exampleGrid 2 2)
  = Some (mkRun Z (logic_error (Nonconformal "TrmmRLT" 3 3 2 2))
                (Contents Z (ones exampleGrid 2 2)) []).
Proof.
  destruct (nonconformal_operands_throw_up_front Z 0%Z 1%Z Z.add Z.mul Z.sub
              Z.opp Z.div (fun x => x) 2 5 Transpose NonUnit 1%Z
              (ones exampleGrid 3 3) (ones exampleGrid 2 2))
    as (_ & Htrsm & Htrmm & _).
  split.
  - apply Htrsm; [reflexivity|]. right. simpl. lia.
  - apply Htrmm; [reflexivity|discriminate|]. right. simpl. lia.
Defined.

(** An empty [L] and an empty [X]. *)
Lemma empty_operand_is_a_no_op_witness :
  exists r,
    TrsmLLN_Z false 2 0 NonUnit 5%Z (ones exampleGrid 0 0)
                                    (ones exampleGrid 0 0) = Some r /\
    completion Z r = Returned /\ trace Z r = [OpScal].
Proof.
  destruct (empty_operand_is_a_no_op Z 0%Z 1%Z Z.add Z.mul Z.sub
              Z.opp Z.div (fun x => x) false 2 0 Transpose NonUnit 5%Z
              (ones exampleGrid 0 0) (ones exampleGrid 0 0) exampleGrid)
    as (Htrsm & _); try reflexivity.
  destruct Htrsm as (r & Hr & Hc & Ht & _); [reflexivity|].
  exists r. repeat split; assumption.
Defined.

(** A 2 x 3 right-hand side for [TrmmRLT], and a second [L] that differs
    from [L3] above the diagonal only. *)
Definition X23 : DistMatrix Qc :=
  mkDistMatrix Qc exampleGrid
    (mkMatrix Qc 2 3 (fun i j => Qc_of (Z.of_nat (1 + i + 2 * j)))).

Definition L3' : DistMatrix Qc :=
  mkDistMatrix Qc exampleGrid
    (mkMatrix Qc 3 3
       (fun i j => if (j <=? i)%nat then Get Qc (Contents Qc L3) i j
                   else Qc_of 0)).

Definition TrmmRLT_Qc :=
  TrmmRLT Qc (Qc_of 0) (Qc_of 1) Qcplus Qcmult (fun x => x).

Example TrmmRLT_2_by_3 :
  option_map (fun r => map (fun j => this (Get Qc (operand Qc r) 0 j))
                           [0; 1; 2])
             (TrmmRLT_Qc false 2 3 Transpose NonUnit (Qc_of 1) L3 X23)
  = Some [2%Q; 13%Q; 53%Q].
Proof. vm_compute. reflexivity. Qed.

Lemma TrmmRLT_blocked_equals_kernel_witness :
  exists r,
    TrmmRLT_Qc false 2 3 Transpose NonUnit (Qc_of 1) L3 X23 = Some r /\
    forall i j, i < 2 -> j < 3 ->
      Get Qc (operand Qc r) i j =
      Get Qc (LocalTrmm_RL Qc (Qc_of 0) (Qc_of 1) Qcplus Qcmult (fun x => x)
                Transpose NonUnit (Qc_of 1)
                (Contents Qc L3) (Contents Qc X23)) i j.
Proof.
  destruct (TrmmRLT_blocked_equals_kernel
              Qc (Qc_of 0) (Qc_of 1) Qcplus Qcmult Qcminus Qcopp Qcdiv Qcinv
              (fun x => x) Qcft false 2 3 Transpose NonUnit (Qc_of 1) L3 X23)
    as (r & Hr & _ & _ & _ & Href).
  - reflexivity.
  - discriminate.
  - reflexivity.
  - reflexivity.
  - lia.
  - simpl; lia.
  - reflexivity.
  - exists r. split; assumption.
Defined.

Lemma TrsmLLN_reads_the_lower_triangle_only_witness :
  exists r r',
    TrsmLLN_Qc false 2 3 NonUnit (Qc_of 1) L3 X3 = Some r /\
    TrsmLLN_Qc false 2 3 NonUnit (Qc_of 1) L3' X3 = Some r' /\
    forall i j, i < 3 -> j < 1 ->
      Get Qc (operand Qc r) i j = Get Qc (operand Qc r') i j.
Proof.
  destruct (TrsmLLN_reads_the_lower_triangle_only
              Qc (Qc_of 0) (Qc_of 1) Qcplus Qcmult Qcminus Qcopp Qcdiv Qcinv
              (fun x => x) Qcft false 2 3 NonUnit (Qc_of 1) L3 L3' X3)
    as (r & r' & Hr & Hr' & _ & _ & Hsame).
  - reflexivity.
  - reflexivity.
  - reflexivity.
  - reflexivity.
  - reflexivity.
  - reflexivity.
  - lia.
  - simpl; lia.
  - intros i j Hi Hij. cbn [L3' Contents Get].
    destruct (Nat.leb_spec j i); [reflexivity|lia].
  - exists r, r'. repeat split; assumption.
Defined.

Lemma TrsmLLN_redistributions_per_pass_witness :
  exists r,
    TrsmLLN_Qc false 2 3 NonUnit (Qc_of 1) L3 X3 = Some r /\
    List.length (trace Qc r) = 23 /\
    List.length (filter communicates (trace Qc r)) = 10.
Proof.
  apply (TrsmLLN_redistributions_per_pass
           Qc (Qc_of 0) (Qc_of 1) Qcplus Qcmult Qcminus Qcopp Qcdiv
           (fun x => x) false 2 3 NonUnit (Qc_of 1) L3 X3).
  - reflexivity.
  - reflexivity.
  - reflexivity.
  - lia.
  - simpl; lia.
Defined.

Lemma TrmmRLT_reads_the_lower_triangle_only_witness :
  exists r r',
    TrmmRLT_Qc false 2 3 Transpose NonUnit (Qc_of 1) L3 X23 = Some r /\
    TrmmRLT_Qc false 2 3 Transpose NonUnit (Qc_of 1) L3' X23 = Some r' /\
    forall i j, i < 2 -> j < 3 ->
      Get Qc (operand Qc r) i j = Get Qc (operand Qc r') i j.
Proof.
  destruct (TrmmRLT_reads_the_lower_triangle_only
              Qc (Qc_of 0) (Qc_of 1) Qcplus Qcmult Qcminus Qcopp Qcdiv Qcinv
              (fun x => x) Qcft false 2 3 Transpose NonUnit (Qc_of 1)
              L3 L3' X23)
    as (r & r' & Hr & Hr' & _ & _ & Hsame).
  - reflexivity.
  - reflexivity.
  - discriminate.
  - reflexivity.
  - reflexivity.
  - reflexivity.
  - reflexivity.
  - lia.
  - simpl; lia.
  - reflexivity.
  - intros i j Hi Hij. cbn [L3' Contents Get].
    destruct (Nat.leb_spec j i); [reflexivity|lia].
  - exists r, r'. repeat split; assumption.
Defined.

End Elemental.

(* ===================================================================== *)
(** ** TrsmLLN at double precision                                        *)
(* ===================================================================== *)

From Stdlib Require Floats.

Module Binary64.

Import Elemental.
Import Floats.



(** [max( a, b )] of the C++ library: [(a < b) ? b : a]. *)
Definition max (a b : float) : float :=
  if PrimFloat.ltb a b then b else a.

(** The comparison of the test drivers,
    [fabs(truth-computed) / max(fabs(truth),(double)1) <= 1e-12]. *)
#[warnings="-inexact-float"]
Definition OKRelativeError (truth computed : float) : bool :=
  PrimFloat.leb
    (PrimFloat.div (PrimFloat.abs (PrimFloat.sub truth computed))
                   (max (PrimFloat.abs truth) 1%float))
    1e-12%float.

(** A unit lower-triangular [L] whose last row is all ones, and a
    right-hand side whose first two entries cancel:
    in exact arithmetic the solution is (1e20, -1e20, 1). *)
Definition L : DistMatrix float :=
  mkDistMatrix float exampleGrid
    (mkMatrix float 3 3
       (fun i j => match i, j with
                   | 0, 0 | 1, 1 | 2, 0 | 2, 1 | 2, 2 => 1%float
                   | _, _ => 0%float
                   end)).

Definition X : DistMatrix float :=
  mkDistMatrix float exampleGrid
    (mkMatrix float 3 1
       (fun i _ => match i with
                   | 0 => 1e20%float
                   | 1 => (-1e20)%float
                   | _ => 1%float
                   end)).



End Binary64.

(* ===================================================================== *)
(** ** Cyclic distribution of an index range                              *)
(* ===================================================================== *)

Module Cyclic.

(** Modelled from the spec: [utilities::Shift] and
    [utilities::LocalLength], used by the constructors of [[* ,MC]], are
    not part of the sources at hand.  Section 3: the alignment is the grid
    coordinate owning global index 0, the shift is the first global index
    a process owns, and the local buffer has
    ceil((globalExtent - shift)/numShards) entries along the axis. *)
Definition Shift (rank alignment stride : nat) : nat :=
  (rank + stride - alignment) mod stride.

Definition LocalLength (n shift stride : nat) : nat :=
  (n - shift + stride - 1) / stride.

(** The global index of the local index [l], the rank owning a global
    index and the local index it has there. *)
Definition globalIndex (shift stride l : nat) : nat := shift + l * stride.

Definition ownerRank (alignment stride g : nat) : nat :=
  (g + alignment) mod stride.

Definition localIndex (stride g : nat) : nat := g / stride.

Lemma Shift_lt rank alignment stride :
  0 < stride -> Shift rank alignment stride < stride.
Proof. intros H. apply Nat.mod_upper_bound. lia. Qed.

Lemma ownerRank_lt alignment stride g :
  0 < stride -> ownerRank alignment stride g < stride.
Proof. intros H. apply Nat.mod_upper_bound. lia. Qed.

(** A local index is within the local length exactly when its global
    index is within the global extent. *)
Lemma LocalLength_spec n shift stride l :
  0 < stride ->
  l < LocalLength n shift stride <-> globalIndex shift stride l < n.
Proof.
  intros HS. unfold LocalLength, globalIndex. split; intros H.
  - destruct (le_lt_dec n (shift + l * stride)) as [Hge|Hlt]; [|exact Hlt].
    exfalso.
    assert (Hq : (n - shift + stride - 1) / stride < l + 1).
    { apply Nat.Div0.div_lt_upper_bound. nia. }
    lia.
  - assert (Hq : l + 1 <= (n - shift + stride - 1) / stride).
    { apply Nat.div_le_lower_bound; [lia|]. nia. }
    lia.
Qed.

(** The process of rank [rank] owns the indices it holds, at the local
    positions it holds them. *)
Lemma ownerRank_globalIndex rank alignment stride l :
  rank < stride -> alignment < stride ->
  ownerRank alignment stride
    (globalIndex (Shift rank alignment stride) stride l) = rank.
Proof.
  intros Hr Ha. unfold ownerRank, globalIndex, Shift.
  symmetry. destruct (le_lt_dec alignment rank) as [Hle|Hlt].
  - replace ((rank + stride - alignment) mod stride) with (rank - alignment)
      by (apply (Nat.mod_unique _ _ 1); lia).
    apply (Nat.mod_unique _ _ l); lia.
  - replace ((rank + stride - alignment) mod stride)
      with (rank + stride - alignment)
      by (symmetry; apply Nat.mod_small; lia).
    apply (Nat.mod_unique _ _ (l + 1)); lia.
Qed.

Lemma localIndex_globalIndex shift stride l :
  shift < stride -> localIndex stride (globalIndex shift stride l) = l.
Proof.
  intros Hs. unfold localIndex, globalIndex. symmetry.
  apply (Nat.div_unique _ _ _ shift); lia.
Qed.

(** Every global index is held by its owner at its local index. *)
Lemma globalIndex_owner alignment stride g :
  0 < stride -> alignment < stride ->
  globalIndex (Shift (ownerRank alignment stride g) alignment stride) stride
              (localIndex stride g) = g.
Proof.
  intros HS Ha. unfold globalIndex, Shift, ownerRank, localIndex.
  pose proof (Nat.div_mod_eq g stride) as Hg.
  pose proof (Nat.mod_upper_bound g stride ltac:(lia)) as Hm.
  set (u := g / stride) in *. set (y := g mod stride) in *.
  assert (Hshift : ((g + alignment) mod stride + stride - alignment)
                     mod stride = y).
  { destruct (le_lt_dec stride (y + alignment)) as [Hwrap|Hfit].
    - replace ((g + alignment) mod stride) with (y + alignment - stride)
        by (apply (Nat.mod_unique _ _ (u + 1)); lia).
      symmetry. apply (Nat.mod_unique _ _ 0); lia.
    - replace ((g + alignment) mod stride) with (y + alignment)
        by (apply (Nat.mod_unique _ _ u); lia).
      symmetry. apply (Nat.mod_unique _ _ 1); lia. }
  rewrite Hshift. lia.
Qed.

End Cyclic.

(* ===================================================================== *)
(** ** Redistribution between distribution schemes                        *)
(* ===================================================================== *)

Module Redistribution.

Import Elemental Cyclic.

Section OnGrid.

(** The grid has [r] rows and [c] columns; a process is named by its row
    [i] and its column [j].  Entries are of any type [T]: a
    redistribution moves them and never computes with them. *)
Variables r c : nat.
Variable T : Type.

(** Along an axis distributed by [d], the number of shards and the rank
    of process (i,j) among them: grid row for [MC], grid column for [MR],
    column-major and row-major linear rank for [VC] and [VR]; [Star]
    replicates.  The diagonal distribution [MD] is not covered. *)
Definition stride (d : Distribution) : nat :=
  match d with
  | MC => r
  | MR => c
  | VC | VR => r * c
  | Star | MD => 1
  end.

Definition rank (d : Distribution) (i j : nat) : nat :=
  match d with
  | MC => i
  | MR => j
  | VC => i + j * r
  | VR => j + i * c
  | Star | MD => 0
  end.

(** The scheme pairs of the catalogue, without the two pairs of [MD]. *)
Definition legal (U V : Distribution) : bool :=
  match U, V with
  | MC, MR | MC, Star | Star, MR | MR, MC | MR, Star | Star, MC
  | VC, Star | Star, VC | VR, Star | Star, VR | Star, Star => true
  | _, _ => false
  end.

(** Modelled from the spec: the redistributing [operator=] overloads are
    declared in the class [[* ,MC]] and called by [TrsmLLN]; their
    definitions are not part of the sources at hand.  Glossary: a
    redistribution converts a matrix's data from one scheme to another,
    preserving global contents; section 3: the owning process and the
    local offset of a global index are determined by alignment, shift,
    scheme and grid. *)
Record DistMatrix := mkDistMatrix {
  ColDist : Distribution;
  RowDist : Distribution;
  ColAlignment : nat;
  RowAlignment : nat;
  Height : nat;
  Width : nat;
  LocalEntry : nat -> nat -> nat -> nat -> T
    (* process row, process column, local row, local column *)
}.

(** The grid row, or column, that a rank along an axis fixes, if any. *)
Definition rowOf (d : Distribution) (rho : nat) : option nat :=
  match d with
  | MC => Some rho
  | VC => Some (rho mod r)
  | VR => Some (rho / c)
  | _ => None
  end.

Definition colOf (d : Distribution) (rho : nat) : option nat :=
  match d with
  | MR => Some rho
  | VC => Some (rho / r)
  | VR => Some (rho mod c)
  | _ => None
  end.

Definition pick (a b : option nat) (own : nat) : nat :=
  match a, b with
  | Some x, _ => x
  | None, Some x => x
  | None, None => own
  end.

(** The process from which process (i,j) obtains the entry whose owner
    ranks along the two axes are [rhoU] and [rhoV]: the owner, or where
    the scheme replicates, the replica in its own grid row or column. *)
Definition holder (U V : Distribution) (rhoU rhoV i j : nat) : nat * nat :=
  (pick (rowOf U rhoU) (rowOf V rhoV) i, pick (colOf U rhoU) (colOf V rhoV) j).

(** The entry at the global index (g,h), as process (i,j) obtains it. *)
Definition GlobalEntry (A : DistMatrix) (i j g h : nat) : T :=
  let U := ColDist A in
  let V := RowDist A in
  let q := holder U V (ownerRank (ColAlignment A) (stride U) g)
                      (ownerRank (RowAlignment A) (stride V) h) i j in
  LocalEntry A (fst q) (snd q)
             (localIndex (stride U) g) (localIndex (stride V) h).

(** [B = A] for a [B] of scheme [U,V] with the given alignments: every
    process fills each of its local positions with the entry of [A] at
    the global index of that position. *)
Definition Redistribute (U V : Distribution) (colAlignment rowAlignment : nat)
  (A : DistMatrix) : DistMatrix :=
  mkDistMatrix U V colAlignment rowAlignment (Height A) (Width A)
    (fun i j l k =>
       GlobalEntry A i j
         (globalIndex (Shift (rank U i j) colAlignment (stride U)) (stride U) l)
         (globalIndex (Shift (rank V i j) rowAlignment (stride V)) (stride V) k)).

(** A chain of conversions, applied from left to right. *)
Definition Target : Type := (Distribution * Distribution * nat * nat)%type.

Definition convert (A : DistMatrix) (t : Target) : DistMatrix :=
  let '(U, V, colAlignment, rowAlignment) := t in
  Redistribute U V colAlignment rowAlignment A.

Definition convert_all (A : DistMatrix) (chain : list Target) : DistMatrix :=
  fold_left convert chain A.

Definition target_ok (t : Target) : Prop :=
  let '(U, V, colAlignment, rowAlignment) := t in
  legal U V = true /\ colAlignment < stride U /\ rowAlignment < stride V.

Definition well_formed (A : DistMatrix) : Prop :=
  target_ok (ColDist A, RowDist A, ColAlignment A, RowAlignment A).

(** The replicas of [A] hold the same entries. *)
Definition consistent (A : DistMatrix) : Prop :=
  forall i j i' j' g h,
    i < r -> j < c -> i' < r -> j' < c -> g < Height A -> h < Width A ->
    GlobalEntry A i j g h = GlobalEntry A i' j' g h.

Hypothesis r_pos : 0 < r.
Hypothesis c_pos : 0 < c.

Lemma stride_pos d : 0 < stride d.
Proof. destruct d; simpl; nia. Qed.

Lemma rank_lt d i j : i < r -> j < c -> rank d i j < stride d.
Proof. intros Hi Hj. destruct d; simpl; nia. Qed.

Lemma mod_linear a b m : a < m -> (a + b * m) mod m = a.
Proof. intros H. symmetry. apply (Nat.mod_unique _ _ b); lia. Qed.

Lemma div_linear a b m : a < m -> (a + b * m) / m = b.
Proof. intros H. symmetry. apply (Nat.div_unique _ _ _ a); lia. Qed.

Lemma div_lt_grid rho a b : 0 < a -> rho < a * b -> rho / a < b.
Proof. intros Ha H. apply Nat.Div0.div_lt_upper_bound. exact H. Qed.

Lemma mod_div_recompose rho m : rho mod m + rho / m * m = rho.
Proof. pose proof (Nat.div_mod_eq rho m). lia. Qed.

(** The holder of an entry is a process of the grid, and its ranks along
    the two axes are the owner ranks. *)
Lemma holder_spec U V rhoU rhoV i j :
  legal U V = true -> rhoU < stride U -> rhoV < stride V ->
  i < r -> j < c ->
  let q := holder U V rhoU rhoV i j in
  fst q < r /\ snd q < c /\
  rank U (fst q) (snd q) = rhoU /\ rank V (fst q) (snd q) = rhoV.
Proof.
  intros Hlegal HU HV Hi Hj.
  destruct U, V; try discriminate Hlegal;
    cbn [holder pick rowOf colOf fst snd rank stride] in *;
    repeat split;
    try assumption; try lia;
    try (apply Nat.mod_upper_bound; lia);
    try (apply div_lt_grid; [lia|]; lia);
    try (apply div_lt_grid; [lia|]; rewrite Nat.mul_comm; lia);
    try apply mod_div_recompose.
Qed.

(** A process holds what it owns. *)
Lemma holder_self U V i j :
  legal U V = true -> i < r -> j < c ->
  holder U V (rank U i j) (rank V i j) i j = (i, j).
Proof.
  intros Hlegal Hi Hj.
  destruct U, V; try discriminate Hlegal;
    unfold holder, pick, rowOf, colOf, rank;
    rewrite ?mod_linear, ?div_linear by assumption; reflexivity.
Qed.

(** What a process reads in the converted matrix at a global index is
    what the holder of that index read in the source. *)
Lemma GlobalEntry_Redistribute U V ca ra A i j g h :
  target_ok (U, V, ca, ra) -> i < r -> j < c ->
  exists i' j', i' < r /\ j' < c /\
    GlobalEntry (Redistribute U V ca ra A) i j g h = GlobalEntry A i' j' g h.
Proof.
  intros (Hlegal & Hca & Hra) Hi Hj.
  destruct (holder_spec U V (ownerRank ca (stride U) g)
              (ownerRank ra (stride V) h) i j Hlegal)
    as (Hi' & Hj' & HrU & HrV);
    try assumption; try (apply ownerRank_lt, stride_pos).
  cbn zeta in *.
  set (q := holder U V (ownerRank ca (stride U) g)
              (ownerRank ra (stride V) h) i j) in *.
  exists (fst q), (snd q). split; [exact Hi'|]. split; [exact Hj'|].
  unfold GlobalEntry at 1.
  cbn [Redistribute ColDist RowDist ColAlignment RowAlignment LocalEntry].
  fold q. rewrite HrU, HrV.
  rewrite !globalIndex_owner by (try apply stride_pos; assumption).
  reflexivity.
Qed.

Lemma consistent_Redistribute U V ca ra A :
  target_ok (U, V, ca, ra) -> consistent A ->
  consistent (Redistribute U V ca ra A) /\
  forall i j i' j' g h,
    i < r -> j < c -> i' < r -> j' < c -> g < Height A -> h < Width A ->
    GlobalEntry (Redistribute U V ca ra A) i j g h = GlobalEntry A i' j' g h.
Proof.
  intros Hok HA.
  assert (Hsame : forall i j i' j' g h,
            i < r -> j < c -> i' < r -> j' < c ->
            g < Height A -> h < Width A ->
            GlobalEntry (Redistribute U V ca ra A) i j g h
            = GlobalEntry A i' j' g h).
  { intros i j i' j' g h Hi Hj Hi' Hj' Hg Hh.
    destruct (GlobalEntry_Redistribute U V ca ra A i j g h Hok Hi Hj)
      as (a & b & Ha & Hb & ->).
    apply HA; assumption. }
  split; [|exact Hsame].
  intros i j i' j' g h Hi Hj Hi' Hj' Hg Hh.
  cbn [Redistribute Height Width] in Hg, Hh.
  rewrite (Hsame i j i j), (Hsame i' j' i j) by assumption. reflexivity.
Qed.

Lemma convert_all_preserves chain :
  forall A,
    Forall target_ok chain -> consistent A ->
    let B := convert_all A chain in
    consistent B /\ Height B = Height A /\ Width B = Width A /\
    forall i j i' j' g h,
      i < r -> j < c -> i' < r -> j' < c -> g < Height A -> h < Width A ->
      GlobalEntry B i j g h = GlobalEntry A i' j' g h.
Proof.
  induction chain as [|t chain IH]; intros A Hok HA; cbn zeta.
  - cbn [convert_all fold_left]. repeat split; auto.
  - inversion Hok as [|t' chain' Ht Hchain]; subst.
    destruct t as [[[U V] ca] ra]. cbn [convert_all fold_left convert].
    destruct (consistent_Redistribute U V ca ra A Ht HA) as [HA1 Hsame].
    destruct (IH (Redistribute U V ca ra A) Hchain HA1)
      as (HB & HH & HW & Hrest).
    cbn [Redistribute Height Width] in HH, HW, Hrest.
    repeat split; auto.
    intros i j i' j' g h Hi Hj Hi' Hj' Hg Hh.
    unfold convert_all in Hrest.
    rewrite (Hrest i j i j) by assumption. apply Hsame; assumption.
Qed.

(** C2.  On a grid of r x c processes, let [A] be a distributed matrix
    in a scheme of the catalogue ([MD] apart) whose replicas, if any,
    agree.  Converting [A] through any chain of such schemes, with any
    alignments, and then back to the scheme and the alignments of [A]
    gives on every process, at every local position, the entry [A] had
    there.  The entries are of an arbitrary type: they are moved, never
    computed with. *)
Theorem redistribution_round_trip (A : DistMatrix) (chain : list Target) :
  well_formed A -> consistent A -> Forall target_ok chain ->
  let U := ColDist A in
  let V := RowDist A in
  let A' := Redistribute U V (ColAlignment A) (RowAlignment A)
              (convert_all A chain) in
  ColDist A' = U /\ RowDist A' = V /\
  Height A' = Height A /\ Width A' = Width A /\
  forall i j l k,
    i < r -> j < c ->
    l < LocalLength (Height A)
          (Shift (rank U i j) (ColAlignment A) (stride U)) (stride U) ->
    k < LocalLength (Width A)
          (Shift (rank V i j) (RowAlignment A) (stride V)) (stride V) ->
    LocalEntry A' i j l k = LocalEntry A i j l k.
Proof.
  intros (Hlegal & Hca & Hra) HA Hchain. cbn zeta.
  destruct (convert_all_preserves chain A Hchain HA)
    as (HB & HH & HW & Hsame).
  cbn [Redistribute ColDist RowDist Height Width LocalEntry].
  repeat split; auto.
  intros i j l k Hi Hj Hl Hk.
  apply LocalLength_spec in Hl; [|apply stride_pos].
  apply LocalLength_spec in Hk; [|apply stride_pos].
  rewrite (Hsame i j i j) by assumption.
  unfold GlobalEntry.
  rewrite !ownerRank_globalIndex by (try apply rank_lt; assumption).
  rewrite holder_self by assumption. cbn [fst snd].
  rewrite !localIndex_globalIndex by (apply Shift_lt, stride_pos).
  reflexivity.
Qed.

(** An [MC,MR] matrix has no replicas. *)
Lemma consistent_MC_MR ca ra height width loc :
  consistent (mkDistMatrix MC MR ca ra height width loc).
Proof. intros i j i' j' g h _ _ _ _ _ _. reflexivity. Qed.

End OnGrid.

(** The chain that [TrsmLLN] applies to [X1]:
    [MC,MR] -> [* ,VR] -> [* ,MR] -> [MC,MR], on a 2 x 2 grid, for a
    5 x 3 matrix whose local entries are tagged by where they are stored. *)
Definition tagged : DistMatrix (nat * nat * nat * nat) :=
  mkDistMatrix _ MC MR 1 1 5 3 (fun i j l k => (i, j, l, k)).

Definition X1_chain : list Target := [(Star, VR, 0, 0); (Star, MR, 0, 1)].

Definition tagged_back : DistMatrix (nat * nat * nat * nat) :=
  Redistribute 2 2 _ MC MR 1 1 (convert_all 2 2 _ tagged X1_chain).

Example tagged_back_entry :
  LocalEntry _ tagged_back 1 0 2 1 = (1, 0, 2, 1) /\
  LocalEntry _ (convert_all 2 2 _ tagged X1_chain) 1 0 2 1 = (1, 0, 1, 1).
Proof. split; reflexivity. Qed.

Lemma redistribution_round_trip_witness :
  LocalEntry _ tagged_back 1 0 2 0 = (1, 0, 2, 0).
Proof.
  assert (Hchain : Forall (target_ok 2 2) X1_chain).
  { repeat constructor; simpl; lia. }
  destruct (redistribution_round_trip 2 2 _ ltac:(lia) ltac:(lia)
              tagged X1_chain) as (_ & _ & _ & _ & Hback).
  - repeat split; simpl; lia.
  - apply consistent_MC_MR.
  - exact Hchain.
  - apply (Hback 1 0 2 0); simpl; lia.
Defined.

End Redistribution.

(* ===================================================================== *)
(** ** blas::Nrm2 of a distributed vector                                 *)
(* ===================================================================== *)

Module Nrm2.

Import Cyclic.

Local Open Scope R_scope.

(** f 0 + ... + f (n-1). *)
Fixpoint sigma (n : nat) (f : nat -> R) : R :=
  match n with
  | O => 0
  | S n' => sigma n' f + f n'
  end.

Definition sum_list (l : list R) : R := fold_right Rplus 0 l.

Lemma sum_list_app l1 l2 : sum_list (l1 ++ l2) = sum_list l1 + sum_list l2.
Proof. induction l1 as [|v l1 IH]; simpl; [ring|]. rewrite IH. ring. Qed.

Lemma sum_list_map_seq (f : nat -> R) (n : nat) :
  sum_list (map f (seq 0 n)) = sigma n f.
Proof.
  induction n as [|n IH]; [reflexivity|].
  rewrite seq_S, map_app, sum_list_app, IH. simpl. ring.
Qed.

Lemma sigma_ext n f g :
  (forall i, (i < n)%nat -> f i = g i) -> sigma n f = sigma n g.
Proof.
  induction n as [|n IH]; intros H; simpl; [reflexivity|].
  rewrite IH, H; auto.
Qed.

Lemma sigma_plus n f g :
  sigma n (fun i => f i + g i) = sigma n f + sigma n g.
Proof. induction n as [|n IH]; simpl; [ring|]. rewrite IH. ring. Qed.

Lemma sigma_zero n : sigma n (fun _ => 0) = 0.
Proof. induction n as [|n IH]; simpl; [reflexivity|]. rewrite IH. ring. Qed.

Lemma sigma_swap r m (G : nat -> nat -> R) :
  sigma r (fun i => sigma m (G i)) = sigma m (fun g => sigma r (fun i => G i g)).
Proof.
  induction m as [|m IH]; simpl.
  - apply sigma_zero.
  - rewrite sigma_plus, IH. reflexivity.
Qed.

(** A sum that picks one index. *)
Lemma sigma_pick n i0 v :
  (i0 < n)%nat -> sigma n (fun i => if (i =? i0)%nat then v else 0) = v.
Proof.
  induction n as [|n IH]; intros H; [lia|]. simpl.
  destruct (Nat.eqb_spec n i0) as [->|Hne].
  - rewrite (sigma_ext i0 _ (fun _ => 0)), sigma_zero; [ring|].
    intros i Hi. destruct (Nat.eqb_spec i i0); [lia|reflexivity].
  - rewrite IH by lia. ring.
Qed.

Lemma nat_eq_by_lt (a b : nat) :
  (forall l, (l < a)%nat <-> (l < b)%nat) -> a = b.
Proof.
  intros H. destruct (lt_eq_lt_dec a b) as [[Hlt|Heq]|Hgt]; [|exact Heq|].
  - apply H in Hlt. lia.
  - apply H in Hgt. lia.
Qed.

(** One more global index lengthens the local range of the shift it is
    congruent to, by that index, and no other. *)
Lemma LocalLength_S (m s r : nat) :
  (s < r)%nat ->
  if (m mod r =? s)%nat
  then LocalLength (S m) s r = S (LocalLength m s r) /\
       globalIndex s r (LocalLength m s r) = m
  else LocalLength (S m) s r = LocalLength m s r.
Proof.
  intros Hs.
  assert (Hspec : forall n l, (l < LocalLength n s r)%nat
                              <-> (s + l * r < n)%nat).
  { intros n l. apply (LocalLength_spec n s r l). lia. }
  destruct (Nat.eqb_spec (m mod r) s) as [Hmod|Hmod].
  - pose proof (Nat.div_mod_eq m r) as Hm. rewrite Hmod in Hm.
    assert (HL : LocalLength m s r = (m / r)%nat).
    { apply nat_eq_by_lt. intros l. rewrite Hspec. nia. }
    split.
    + rewrite HL. apply nat_eq_by_lt. intros l. rewrite Hspec. nia.
    + rewrite HL. unfold globalIndex. lia.
  - apply nat_eq_by_lt. intros l. rewrite !Hspec.
    assert (s + l * r <> m)%nat.
    { intros E. apply Hmod. rewrite <- E.
      symmetry. apply (Nat.mod_unique _ _ l); lia. }
    lia.
Qed.

(** The entries a shift holds, summed, are the entries of its residue
    class, summed. *)
Lemma sigma_local (F : nat -> R) (m s r : nat) :
  (s < r)%nat ->
  sigma (LocalLength m s r) (fun l => F (globalIndex s r l)) =
  sigma m (fun g => if (g mod r =? s)%nat then F g else 0).
Proof.
  intros Hs. induction m as [|m IH].
  - replace (LocalLength 0 s r) with 0%nat; [reflexivity|].
    apply nat_eq_by_lt. intros l.
    rewrite (LocalLength_spec 0 s r l) by lia. unfold globalIndex. lia.
  - pose proof (LocalLength_S m s r Hs) as HS. cbn [sigma].
    destruct (m mod r =? s)%nat.
    + destruct HS as [-> Hlast]. cbn [sigma]. rewrite IH, Hlast.
      reflexivity.
    + rewrite HS, IH. ring.
Qed.

(** Dealing the indices 0 .. m-1 to [r] shifts loses and repeats none:
    the sums over the local ranges add up to the sum over all. *)
Lemma sigma_cyclic (F : nat -> R) (m r a : nat) :
  (a < r)%nat ->
  sigma r (fun i => sigma (LocalLength m (Shift i a r) r)
                      (fun l => F (globalIndex (Shift i a r) r l)))
  = sigma m F.
Proof.
  intros Ha.
  rewrite (sigma_ext r _
             (fun i => sigma m (fun g => if (g mod r =? Shift i a r)%nat
                                         then F g else 0))).
  2:{ intros i Hi. apply sigma_local. apply Shift_lt. lia. }
  rewrite sigma_swap. apply sigma_ext. intros g Hg.
  rewrite (sigma_ext r _
             (fun i => if (i =? ownerRank a r g)%nat then F g else 0)).
  - apply sigma_pick. apply ownerRank_lt. lia.
  - intros i Hi.
    destruct (Nat.eqb_spec (g mod r) (Shift i a r)) as [E|E];
      destruct (Nat.eqb_spec i (ownerRank a r g)) as [E'|E'];
      try reflexivity; exfalso.
    + apply E'.
      pose proof (ownerRank_globalIndex i a r (g / r) Hi Ha) as Ho.
      unfold globalIndex in Ho. rewrite <- E in Ho.
      pose proof (Nat.div_mod_eq g r).
      replace (g mod r + g / r * r)%nat with g in Ho by lia.
      congruence.
    + apply E. subst i.
      pose proof (globalIndex_owner a r g ltac:(lia) Ha) as Hg'.
      unfold globalIndex, localIndex in Hg'.
      pose proof (Nat.div_mod_eq g r). lia.
Qed.

(** *** Where the entries are held *)

Lemma sigma_one (n : nat) : sigma n (fun _ => 1) = INR n.
Proof.
  induction n as [|n IH]; [reflexivity|].
  cbn [sigma]. rewrite IH, S_INR. reflexivity.
Qed.

Lemma INR_list_sum (f : nat -> nat) (n : nat) :
  INR (list_sum (map f (seq 0 n))) = sigma n (fun i => INR (f i)).
Proof.
  induction n as [|n IH]; [reflexivity|].
  rewrite seq_S, map_app, list_sum_app, plus_INR, IH. simpl.
  rewrite Nat.add_0_r. reflexivity.
Qed.

(** The local lengths of the [r] shifts add up to the global extent. *)
Lemma LocalLength_total (m r a : nat) :
  (a < r)%nat ->
  list_sum (map (fun i => LocalLength m (Shift i a r) r) (seq 0 r)) = m.
Proof.
  intros Ha. apply INR_eq. rewrite INR_list_sum.
  rewrite (sigma_ext r _
             (fun i => sigma (LocalLength m (Shift i a r) r)
                             (fun l => (fun _ => 1)
                                         (globalIndex (Shift i a r) r l)))).
  - rewrite (sigma_cyclic (fun _ => 1) m r a Ha). apply sigma_one.
  - intros i _. symmetry. apply sigma_one.
Qed.

Lemma Shift_zero_iff (i a stride : nat) :
  (i < stride)%nat -> (a < stride)%nat ->
  Shift i a stride = 0%nat <-> i = a.
Proof.
  intros Hi Ha. split.
  - intros H.
    pose proof (ownerRank_globalIndex i a stride 0 Hi Ha) as Ho.
    rewrite H in Ho. unfold ownerRank, globalIndex in Ho.
    cbn [Nat.mul Nat.add] in Ho. rewrite Nat.mod_small in Ho by lia. lia.
  - intros ->. unfold Shift. replace (a + stride - a)%nat with stride by lia.
    apply Nat.Div0.mod_same.
Qed.

Lemma LocalLength_one_off (s stride : nat) :
  (0 < s)%nat -> (s < stride)%nat -> LocalLength 1 s stride = 0%nat.
Proof.
  intros H0 Hs. unfold LocalLength.
  replace (1 - s + stride - 1)%nat with (stride - 1)%nat by lia.
  apply Nat.div_small. lia.
Qed.

Section Vector.

(** The scalars are [R] or [complex<R>], in exact arithmetic; [abs2] is
    the squared modulus of a scalar. *)
Variable T : Type.
Variable abs2 : T -> R.

(** The sequential kernels: [Nrm2] of a local matrix, and
    [wrappers::blas::Nrm2( n, x, 1 )] of [n] reals. *)
Definition Nrm2_local (entries : list T) : R :=
  sqrt (sum_list (map abs2 entries)).

Definition Nrm2_reals (xs : list R) : R :=
  sqrt (sum_list (map (fun v => v * v) xs)).

(** An [MC,MR] matrix [x] on a grid of [r] x [c] processes, by its global
    entries. *)
Record DistMatrix := mkDistMatrix {
  GridHeight : nat;
  GridWidth : nat;
  Height : nat;
  Width : nat;
  ColAlignment : nat;
  RowAlignment : nat;
  Get : nat -> nat -> T
}.

(** [x.LockedLocalMatrix()] on process (i,j): the entries whose rows are
    dealt to grid row [i] and whose columns are dealt to grid column [j],
    column by column. *)
Definition LockedLocalMatrix (x : DistMatrix) (i j : nat) : list T :=
  let r := GridHeight x in
  let c := GridWidth x in
  let colShift := Shift i (ColAlignment x) r in
  let rowShift := Shift j (RowAlignment x) c in
  flat_map
    (fun k =>
       map (fun l => Get x (globalIndex colShift r l)
                           (globalIndex rowShift c k))
           (seq 0 (LocalLength (Height x) colShift r)))
    (seq 0 (LocalLength (Width x) rowShift c)).

(** The variable [norm] of process (i,j) before the [Broadcast]: assigned
    on the owning column (or row) from the local norms gathered over it,
    unassigned elsewhere. *)
Definition norm_before_Broadcast (x : DistMatrix) (i j : nat) : option R :=
  if (Width x =? 1)%nat then
    let ownerCol := RowAlignment x in
    if (j =? ownerCol)%nat then
      (* AllGather over g.MCComm(): the r processes of grid column j *)
      let localNorms :=
        map (fun i' => Nrm2_local (LockedLocalMatrix x i' j))
            (seq 0 (GridHeight x)) in
      Some (Nrm2_reals localNorms)
    else None
  else
    let ownerRow := ColAlignment x in
    if (i =? ownerRow)%nat then
      (* AllGather over g.MRComm(): the c processes of grid row i *)
      let localNorms :=
        map (fun j' => Nrm2_local (LockedLocalMatrix x i j'))
            (seq 0 (GridWidth x)) in
      Some (Nrm2_reals localNorms)
    else None.

(** The value process (i,j) returns: after
    [Broadcast( &norm, 1, ownerCol, g.MRComm() )] a process has the value
    of the process of its grid row in column [ownerCol]; after
    [Broadcast( &norm, 1, ownerRow, g.MCComm() )], that of the process of
    its grid column in row [ownerRow]. *)
Definition norm_after_Broadcast (x : DistMatrix) (i j : nat) : option R :=
  if (Width x =? 1)%nat
  then norm_before_Broadcast x i (RowAlignment x)
  else norm_before_Broadcast x (ColAlignment x) j.

Definition must_be_a_vector : string := "x must be a vector.".

(** [blas::Nrm2( x )] on process (i,j), compiled with or without
    [RELEASE]: the text of the [logic_error] thrown, or the value
    returned. *)
Definition Nrm2 (RELEASE : bool) (x : DistMatrix) (i j : nat)
  : string + option R :=
  if negb RELEASE && (negb (Height x =? 1)%nat && negb (Width x =? 1)%nat)
  then inl must_be_a_vector
  else inr (norm_after_Broadcast x i j).

(** The entries of a vector, in order. *)
Definition entries_of (x : DistMatrix) : list T :=
  if (Width x =? 1)%nat
  then map (fun g => Get x g 0%nat) (seq 0 (Height x))
  else map (fun h => Get x 0%nat h) (seq 0 (Width x)).

Hypothesis abs2_nonneg : forall t, 0 <= abs2 t.

Lemma sum_abs2_nonneg (l : list T) : 0 <= sum_list (map abs2 l).
Proof.
  induction l as [|t l IH]; simpl; [lra|]. pose proof (abs2_nonneg t). lra.
Qed.

(** The 2-norm of the gathered local norms is the square root of the sum
    of the local sums of squares. *)
Lemma Nrm2_reals_gathered (n : nat) (parts : nat -> list T) :
  Nrm2_reals (map (fun p => Nrm2_local (parts p)) (seq 0 n))
  = sqrt (sigma n (fun p => sum_list (map abs2 (parts p)))).
Proof.
  unfold Nrm2_reals, Nrm2_local. f_equal.
  rewrite map_map, sum_list_map_seq. apply sigma_ext. intros p _.
  apply sqrt_sqrt, sum_abs2_nonneg.
Qed.

Lemma Shift_self (a stride : nat) : (a < stride)%nat -> Shift a a stride = 0%nat.
Proof.
  intros H. unfold Shift. replace (a + stride - a)%nat with stride by lia.
  apply Nat.Div0.mod_same.
Qed.

Lemma LocalLength_one (stride : nat) :
  (0 < stride)%nat -> LocalLength 1 0 stride = 1%nat.
Proof.
  intros H. unfold LocalLength.
  replace (1 - 0 + stride - 1)%nat with stride by lia.
  apply Nat.div_same. lia.
Qed.

(** The local sum of squares on a process of the owning column of a
    column vector, and of the owning row of a row vector. *)
Lemma local_sum_column (x : DistMatrix) (i : nat) :
  Width x = 1%nat -> (RowAlignment x < GridWidth x)%nat ->
  let s := Shift i (ColAlignment x) (GridHeight x) in
  sum_list (map abs2 (LockedLocalMatrix x i (RowAlignment x)))
  = sigma (LocalLength (Height x) s (GridHeight x))
          (fun l => abs2 (Get x (globalIndex s (GridHeight x) l) 0%nat)).
Proof.
  intros Hw Hra s. unfold LockedLocalMatrix. fold s.
  rewrite Hw, Shift_self, LocalLength_one by lia.
  cbn [seq flat_map]. rewrite app_nil_r, map_map, sum_list_map_seq.
  reflexivity.
Qed.

Lemma flat_map_singleton {A B : Type} (f : A -> B) (l : list A) :
  flat_map (fun a => [f a]) l = map f l.
Proof. induction l as [|a l IH]; simpl; [reflexivity|]. now rewrite IH. Qed.

Lemma local_sum_row (x : DistMatrix) (j : nat) :
  Height x = 1%nat -> (ColAlignment x < GridHeight x)%nat ->
  let s := Shift j (RowAlignment x) (GridWidth x) in
  sum_list (map abs2 (LockedLocalMatrix x (ColAlignment x) j))
  = sigma (LocalLength (Width x) s (GridWidth x))
          (fun k => abs2 (Get x 0%nat (globalIndex s (GridWidth x) k))).
Proof.
  intros Hh Hca s. unfold LockedLocalMatrix. fold s.
  rewrite Hh, Shift_self, LocalLength_one by lia.
  cbn [seq map].
  rewrite (flat_map_singleton
             (fun k => Get x (globalIndex 0 (GridHeight x) 0)
                             (globalIndex s (GridWidth x) k))).
  rewrite map_map, sum_list_map_seq. reflexivity.
Qed.

(** C9.  For a distributed vector [x] (height 1 or width 1) on a grid of
    r x c processes, [blas::Nrm2] returns on every process (i,j) of the
    grid one and the same value: the 2-norm of the local 2-norms gathered
    over the owning column (or row), broadcast from the owner along the
    other axis; in exact arithmetic this value is the Euclidean norm of
    the global vector. *)
Theorem Nrm2_agrees_on_the_grid (RELEASE : bool) (x : DistMatrix)
  (i j : nat) :
  (0 < GridHeight x)%nat -> (0 < GridWidth x)%nat ->
  (ColAlignment x < GridHeight x)%nat -> (RowAlignment x < GridWidth x)%nat ->
  Height x = 1%nat \/ Width x = 1%nat ->
  (i < GridHeight x)%nat -> (j < GridWidth x)%nat ->
  Nrm2 RELEASE x i j = inr (Some (Nrm2_local (entries_of x))) /\
  forall i' j', (i' < GridHeight x)%nat -> (j' < GridWidth x)%nat ->
                Nrm2 RELEASE x i' j' = Nrm2 RELEASE x i j.
Proof.
  intros Hr Hc Hca Hra Hvec Hi Hj.
  assert (Hcheck : negb (Height x =? 1)%nat && negb (Width x =? 1)%nat
                   = false).
  { destruct Hvec as [-> | ->]; cbn [Nat.eqb negb andb];
      [reflexivity|apply andb_false_r]. }
  assert (Hall : forall a b,
            Nrm2 RELEASE x a b = inr (Some (Nrm2_local (entries_of x)))).
  { intros a b. unfold Nrm2. rewrite Hcheck, andb_false_r. f_equal.
    unfold norm_after_Broadcast, norm_before_Broadcast, entries_of.
    destruct (Nat.eqb_spec (Width x) 1) as [Hw|Hw].
    - rewrite Nat.eqb_refl. f_equal.
      rewrite Nrm2_reals_gathered. unfold Nrm2_local. f_equal.
      rewrite map_map, sum_list_map_seq.
      rewrite (sigma_ext (GridHeight x) _
                 (fun p =>
                    sigma (LocalLength (Height x)
                             (Shift p (ColAlignment x) (GridHeight x))
                             (GridHeight x))
                      (fun l => abs2 (Get x
                         (globalIndex (Shift p (ColAlignment x) (GridHeight x))
                                      (GridHeight x) l) 0%nat)))).
      + apply (sigma_cyclic (fun g => abs2 (Get x g 0%nat))). exact Hca.
      + intros p _. apply local_sum_column; assumption.
    - destruct Hvec as [Hh|Hw']; [|contradiction].
      rewrite Nat.eqb_refl. f_equal.
      rewrite Nrm2_reals_gathered. unfold Nrm2_local. f_equal.
      rewrite map_map, sum_list_map_seq.
      rewrite (sigma_ext (GridWidth x) _
                 (fun p =>
                    sigma (LocalLength (Width x)
                             (Shift p (RowAlignment x) (GridWidth x))
                             (GridWidth x))
                      (fun k => abs2 (Get x 0%nat
                         (globalIndex (Shift p (RowAlignment x) (GridWidth x))
                                      (GridWidth x) k))))).
      + apply (sigma_cyclic (fun h => abs2 (Get x 0%nat h))). exact Hra.
      + intros p _. apply local_sum_row; assumption. }
  split; [apply Hall|]. intros i' j' _ _. now rewrite !Hall.
Qed.

Lemma flat_map_nil {A B : Type} (l : list A) :
  flat_map (fun _ => @nil B) l = [].
Proof. induction l as [|a l IH]; simpl; auto. Qed.

(** X7.  All entries of a distributed vector are held by the processes
    that compute local norms.  For a column vector the local matrix is
    empty on every process outside the grid column [ownerCol], and the
    local matrices of the [r] processes of that column hold [x.Height()]
    entries in all; for a row vector that is not a column vector, the
    same with the grid row [ownerRow], the [c] processes of that row and
    [x.Width()]. *)
Theorem vector_is_held_by_the_owners (x : DistMatrix) :
  (0 < GridHeight x)%nat -> (0 < GridWidth x)%nat ->
  (ColAlignment x < GridHeight x)%nat -> (RowAlignment x < GridWidth x)%nat ->
  (Width x = 1%nat ->
   (forall i j, (j < GridWidth x)%nat -> j <> RowAlignment x ->
      LockedLocalMatrix x i j = []) /\
   list_sum (map (fun i => List.length
                              (LockedLocalMatrix x i (RowAlignment x)))
                 (seq 0 (GridHeight x))) = Height x) /\
  (Height x = 1%nat ->
   (forall i j, (i < GridHeight x)%nat -> i <> ColAlignment x ->
      LockedLocalMatrix x i j = []) /\
   list_sum (map (fun j => List.length
                              (LockedLocalMatrix x (ColAlignment x) j))
                 (seq 0 (GridWidth x))) = Width x).
Proof.
  intros Hr Hc Hca Hra. split.
  - intros Hw. split.
    + intros i j Hj Hne. unfold LockedLocalMatrix. rewrite Hw.
      rewrite LocalLength_one_off; [reflexivity| |apply Shift_lt; lia].
      pose proof (Shift_zero_iff j (RowAlignment x) (GridWidth x) Hj Hra).
      lia.
    + transitivity
        (list_sum (map (fun i => LocalLength (Height x)
                                   (Shift i (ColAlignment x) (GridHeight x))
                                   (GridHeight x))
                       (seq 0 (GridHeight x))));
        [|apply LocalLength_total; exact Hca].
      f_equal. apply map_ext. intros i. unfold LockedLocalMatrix.
      rewrite Hw, Shift_self, LocalLength_one by lia.
      cbn [seq flat_map]. rewrite app_nil_r, length_map, length_seq.
      reflexivity.
  - intros Hh. split.
    + intros i j Hi Hne. unfold LockedLocalMatrix. rewrite Hh.
      rewrite LocalLength_one_off; [apply flat_map_nil| |apply Shift_lt; lia].
      pose proof (Shift_zero_iff i (ColAlignment x) (GridHeight x) Hi Hca).
      lia.
    + transitivity
        (list_sum (map (fun j => LocalLength (Width x)
                                   (Shift j (RowAlignment x) (GridWidth x))
                                   (GridWidth x))
                       (seq 0 (GridWidth x))));
        [|apply LocalLength_total; exact Hra].
      f_equal. apply map_ext. intros j. unfold LockedLocalMatrix.
      rewrite Hh, Shift_self, LocalLength_one by lia.
      cbn [seq map].
      rewrite (flat_map_singleton
                 (fun k => Get x (globalIndex 0 (GridHeight x) 0)
                             (globalIndex
                                (Shift j (RowAlignment x) (GridWidth x))
                                (GridWidth x) k))).
      rewrite length_map, length_seq. reflexivity.
Qed.

End Vector.

(** The vector (3, 4, 12) as a column on a 2 x 2 grid. *)
Definition column_3_4_12 : DistMatrix R :=
  mkDistMatrix R 2 2 3 1 1 0
    (fun g _ => match g with 0%nat => 3 | 1%nat => 4 | _ => 12 end).

Lemma Nrm2_agrees_on_the_grid_witness :
  Nrm2 R (fun v => v * v) false column_3_4_12 1 1 = inr (Some 13).
Proof.
  destruct (Nrm2_agrees_on_the_grid R (fun v => v * v)
              ltac:(intros t; nra) false column_3_4_12 1 1) as [Hnorm _];
    try (simpl; lia).
  rewrite Hnorm. do 2 f_equal. unfold Nrm2_local, entries_of. simpl.
  replace (3 * 3 + (4 * 4 + (12 * 12 + 0))) with (13 * 13) by ring.
  apply sqrt_square. lra.
Defined.

(** The column (3, 4, 12) on the 2 x 2 grid, owned by grid column 0. *)
Lemma vector_is_held_by_the_owners_witness :
  LockedLocalMatrix R column_3_4_12 0 1 = [] /\
  list_sum (map (fun i => List.length (LockedLocalMatrix R column_3_4_12 i 0))
                (seq 0 2)) = 3%nat.
Proof.
  destruct (vector_is_held_by_the_owners R column_3_4_12) as [Hcol _];
    try (simpl; lia).
  destruct Hcol as [Hempty Hcount]; [reflexivity|].
  split; [apply Hempty; simpl; lia|exact Hcount].
Defined.

End Nrm2.

(* ===================================================================== *)
(** ** elem::TwoNormEstimate: power iteration with an iteration bound     *)
(* ===================================================================== *)

Module TwoNorm.

Local Open Scope Z_scope.

(** How [TwoNormEstimate] ends: it returns the estimate, or
    [RuntimeError] throws. *)
Inductive Outcome (Real : Type) :=
| Returns (estimate : Real)
| RuntimeError (what : string).
Arguments Returns {Real}.
Arguments RuntimeError {Real}.

Section Estimate.

(** [Real] is [Base<F>].  [Work] holds the vectors [x] and [y] (and the
    state of the random generator behind [Gaussian]); the numerical
    kernels are the collaborators of the routine and stay abstract. *)
Variables Real Work : Type.
Variables (zero one : Real).
Variables (Rsub Rmul Rdiv : Real -> Real -> Real) (Abs : Real -> Real).
Variables (Req Rgt : Real -> Real -> bool) (ofInt : Z -> Real).

Variable Gaussian_y : Work -> Work.        (* Gaussian( y, n, 1 ) *)
Variable Gaussian_x : Work -> Work.        (* Gaussian( x, m, 1 ) *)
Variable Gemv_NORMAL : Work -> Work.       (* Gemv( NORMAL, F(1), A, y, x ) *)
Variable Gemv_ADJOINT : Work -> Work.      (* Gemv( ADJOINT, F(1), A, x, y ) *)
Variable Scale_x : Real -> Work -> Work.   (* Scale( c, x ) *)
Variable FrobeniusNorm_x : Work -> Real.   (* FrobeniusNorm( x ) *)
Variable FrobeniusNorm_y : Work -> Real.   (* FrobeniusNorm( y ) *)

(** [A.Height()], [A.Width()], and the arguments [tol] and [maxIts]. *)
Variables (m n : Z) (tol : Real) (maxIts : Z).

Definition Max (a b : Z) : Z := if a <? b then b else a.

(** [Abs(estimate-lastEst) > tol*Max(m,n)]. *)
Definition apart (estimate lastEst : Real) : bool :=
  Rgt (Abs (Rsub estimate lastEst)) (Rmul tol (ofInt (Max m n))).

(** The variables of the loop. *)
Record Vars := mkVars {
  numIts : Z;
  estimate : Real;
  lastEst : Real;
  work : Work
}.

(** The body of the [do ... while] loop. *)
Definition body (v : Vars) : Vars :=
  let lastEst := estimate v in
  let w := Gemv_NORMAL (work v) in
  let xNorm := FrobeniusNorm_x w in
  let w := if Req xNorm zero then Gaussian_x w
           else Scale_x (Rdiv one xNorm) w in
  let w := Gemv_ADJOINT w in
  mkVars (numIts v) (FrobeniusNorm_y w) lastEst w.

(** [do { ... } while( ++numIts < maxIts && apart )], unrolled at most
    [fuel] times. *)
Fixpoint do_while (fuel : nat) (v : Vars) : option Vars :=
  match fuel with
  | O => None
  | S fuel' =>
      let v := body v in
      let v := mkVars (numIts v + 1) (estimate v) (lastEst v) (work v) in
      if (numIts v <? maxIts) && apart (estimate v) (lastEst v)
      then do_while fuel' v
      else Some v
  end.

Definition did_not_converge : string :=
  "Two-norm estimate did not converge in time".

(** The variables on entry to the loop; [lastEst] is not initialised by
    the source and is assigned before it is read. *)
Definition entry (w0 : Work) : Vars :=
  mkVars 0 zero zero (Gaussian_y w0).

(** [TwoNormEstimate( A, tol, maxIts )], from the work space [w0]. *)
Definition TwoNormEstimate (fuel : nat) (w0 : Work) : option (Outcome Real) :=
  match do_while fuel (entry w0) with
  | None => None
  | Some v =>
      if apart (estimate v) (lastEst v)
      then Some (RuntimeError did_not_converge)
      else Some (Returns (estimate v))
  end.

(** The variables after [k] passes through the body: the successive
    estimates of the power iteration. *)
Fixpoint pass (k : nat) (w0 : Work) : Vars :=
  match k with
  | O => entry w0
  | S k' => body (pass k' w0)
  end.

Lemma numIts_body v : numIts (body v) = numIts v.
Proof. reflexivity. Qed.

(** The loop entered after [k] passes leaves after some pass [N > k]:
    the first one at which the iteration bound is reached or two
    successive estimates are no longer apart. *)
Lemma do_while_spec (fuel : nat) :
  forall (k : nat) (v : Vars) (w0 : Work),
    estimate v = estimate (pass k w0) -> work v = work (pass k w0) ->
    numIts v = Z.of_nat k ->
    (Z.to_nat (maxIts - Z.of_nat k) <= fuel)%nat -> (1 <= fuel)%nat ->
    exists N v',
      do_while fuel v = Some v' /\
      (k < N)%nat /\
      numIts v' = Z.of_nat N /\
      estimate v' = estimate (pass N w0) /\
      lastEst v' = estimate (pass (N - 1) w0) /\
      (forall j, (k < j < N)%nat ->
         Z.of_nat j < maxIts /\
         apart (estimate (pass j w0)) (estimate (pass (j - 1) w0)) = true) /\
      (maxIts <= Z.of_nat N \/
       apart (estimate (pass N w0)) (estimate (pass (N - 1) w0)) = false).
Proof.
  induction fuel as [|fuel IH]; intros k v w0 He Hw Hn Hfuel Hpos; [lia|].
  cbn [do_while].
  assert (Hb : estimate (body v) = estimate (pass (S k) w0) /\
               work (body v) = work (pass (S k) w0) /\
               lastEst (body v) = estimate (pass k w0)).
  { cbn [pass]. unfold body. cbn [estimate work lastEst].
    rewrite <- Hw, He. auto. }
  destruct Hb as (He1 & Hw1 & Hl1).
  cbn [numIts estimate lastEst]. rewrite numIts_body, Hn, He1, Hl1.
  destruct (Z.ltb_spec (Z.of_nat k + 1) maxIts) as [Hlt|Hge]; cbn [andb].
  - destruct (apart (estimate (pass (S k) w0)) (estimate (pass k w0)))
      eqn:Hapart.
    + destruct (IH (S k)
                  (mkVars (Z.of_nat k + 1) (estimate (pass (S k) w0))
                          (estimate (pass k w0)) (work (body v))) w0)
        as (N & v' & Hrun & HN & Hnum & Hest & Hlast & Hcont & Hexit);
        cbn [estimate work numIts]; try lia; auto.
      exists N, v'. repeat split; auto; try lia.
      * destruct (Nat.eq_dec j (S k)) as [->|Hj]; [lia|].
        apply Hcont; lia.
      * destruct (Nat.eq_dec j (S k)) as [->|Hj].
        -- replace (S k - 1)%nat with k by lia. exact Hapart.
        -- apply Hcont; lia.
    + exists (S k). eexists. split; [reflexivity|].
      cbn [numIts estimate lastEst].
      replace (S k - 1)%nat with k by lia.
      repeat split; auto; try lia.
  - exists (S k). eexists. split; [reflexivity|].
    cbn [numIts estimate lastEst].
    replace (S k - 1)%nat with k by lia.
    repeat split; auto; try lia.
Qed.


(** C7.  For every bound [maxIts >= 1] the loop of [TwoNormEstimate]
    leaves after at least one and at most [maxIts] passes, whatever the
    matrix and the tolerance: with [maxIts] units of fuel the loop ends
    and the routine ends, returning an estimate or throwing the runtime
    error. *)
Theorem TwoNormEstimate_ends_within_maxIts (fuel : nat) (w0 : Work) :
  1 <= maxIts -> (Z.to_nat maxIts <= fuel)%nat ->
  exists v,
    do_while fuel (entry w0) = Some v /\
    1 <= numIts v <= maxIts /\
    estimate v = estimate (pass (Z.to_nat (numIts v)) w0) /\
    (TwoNormEstimate fuel w0 = Some (RuntimeError did_not_converge) \/
     TwoNormEstimate fuel w0 = Some (Returns (estimate v))).
Proof.
  intros Hmax Hfuel.
  destruct (do_while_spec fuel 0 (entry w0) w0)
    as (N & v' & Hrun & HN & Hnum & Hest & Hlast & Hcont & Hexit);
    try reflexivity; try lia.
  exists v'. split; [exact Hrun|]. split; [|split].
  - rewrite Hnum. split; [lia|].
    destruct (Nat.eq_dec N 1) as [->|HN1]; [lia|].
    destruct (Hcont (N - 1)%nat) as [Hlt _]; lia.
  - rewrite Hnum, Nat2Z.id. exact Hest.
  - unfold TwoNormEstimate. rewrite Hrun.
    destruct (apart (estimate v') (lastEst v')); auto.
Qed.

End Estimate.

(** *** Raising the bound, and the smallest bounds *)

Section Patience.

Variables Real Work : Type.
Variables (zero one : Real).
Variables (Rsub Rmul Rdiv : Real -> Real -> Real) (Abs : Real -> Real).
Variables (Req Rgt : Real -> Real -> bool) (ofInt : Z -> Real).
Variables (Gaussian_y Gaussian_x Gemv_NORMAL Gemv_ADJOINT : Work -> Work).
Variable Scale_x : Real -> Work -> Work.
Variables (FrobeniusNorm_x FrobeniusNorm_y : Work -> Real).
Variables (m n : Z) (tol : Real).

Local Abbreviation Estimate :=
  (TwoNormEstimate Real Work zero one Rsub Rmul Rdiv Abs Req Rgt ofInt
     Gaussian_y Gaussian_x Gemv_NORMAL Gemv_ADJOINT Scale_x
     FrobeniusNorm_x FrobeniusNorm_y m n tol).
Local Abbreviation loop_spec :=
  (do_while_spec Real Work zero one Rsub Rmul Rdiv Abs Req Rgt ofInt
     Gaussian_y Gaussian_x Gemv_NORMAL Gemv_ADJOINT Scale_x
     FrobeniusNorm_x FrobeniusNorm_y m n tol).
Local Abbreviation far := (apart Real Rsub Rmul Abs Rgt ofInt m n tol).
Local Abbreviation est k w0 :=
  (estimate Real Work
     (pass Real Work zero one Rdiv Req Gaussian_y Gaussian_x Gemv_NORMAL
           Gemv_ADJOINT Scale_x FrobeniusNorm_x FrobeniusNorm_y k w0)).

(** The outcome in terms of the pass [N] at which the loop leaves. *)
Lemma TwoNormEstimate_exit (maxIts : Z) (fuel : nat) (w0 : Work) :
  (Z.to_nat maxIts <= fuel)%nat -> (1 <= fuel)%nat ->
  exists N,
    (1 <= N)%nat /\
    (forall j, (1 <= j < N)%nat ->
       Z.of_nat j < maxIts /\ far (est j w0) (est (j - 1)%nat w0) = true) /\
    (maxIts <= Z.of_nat N \/ far (est N w0) (est (N - 1)%nat w0) = false) /\
    Estimate maxIts fuel w0 =
    Some (if far (est N w0) (est (N - 1)%nat w0)
          then RuntimeError did_not_converge
          else Returns (est N w0)).
Proof.
  intros Hfuel Hpos.
  destruct (loop_spec maxIts fuel 0%nat (entry Real Work zero Gaussian_y w0) w0)
    as (N & v' & Hrun & HN & Hnum & Hest & Hlast & Hcont & Hexit);
    try reflexivity; try lia.
  exists N. split; [lia|]. split; [intros j Hj; apply Hcont; lia|].
  split; [exact Hexit|].
  unfold TwoNormEstimate. rewrite Hrun, Hest, Hlast.
  destruct (far _ _); reflexivity.
Qed.

(** X4.  Raising the iteration bound never changes an estimate that was
    found: from the same work space (the same random draws), an estimate
    returned under the bound [maxIts] is returned unchanged under every
    bound [maxIts' >= maxIts]; so a bound whose run throws cannot be
    repaired by a smaller one. *)
Theorem TwoNormEstimate_stable_under_more_iterations
  (maxIts maxIts' : Z) (fuel fuel' : nat) (w0 : Work) (e : Real) :
  maxIts <= maxIts' ->
  (Z.to_nat maxIts <= fuel)%nat -> (1 <= fuel)%nat ->
  (Z.to_nat maxIts' <= fuel')%nat -> (1 <= fuel')%nat ->
  TwoNormEstimate Real Work zero one Rsub Rmul Rdiv Abs Req Rgt ofInt
    Gaussian_y Gaussian_x Gemv_NORMAL Gemv_ADJOINT Scale_x
    FrobeniusNorm_x FrobeniusNorm_y m n tol maxIts fuel w0
  = Some (Returns e) ->
  TwoNormEstimate Real Work zero one Rsub Rmul Rdiv Abs Req Rgt ofInt
    Gaussian_y Gaussian_x Gemv_NORMAL Gemv_ADJOINT Scale_x
    FrobeniusNorm_x FrobeniusNorm_y m n tol maxIts' fuel' w0
  = Some (Returns e).
Proof.
  intros Hle Hfuel Hpos Hfuel' Hpos' Hret.
  destruct (TwoNormEstimate_exit maxIts fuel w0 Hfuel Hpos)
    as (N & HN & Hcont & Hexit & Hout).
  destruct (TwoNormEstimate_exit maxIts' fuel' w0 Hfuel' Hpos')
    as (N' & HN' & Hcont' & Hexit' & Hout').
  rewrite Hout in Hret.
  destruct (far (est N w0) (est (N - 1)%nat w0)) eqn:Hfar; [discriminate|].
  injection Hret as <-.
  assert (HNN : N' = N).
  { destruct (lt_eq_lt_dec N N') as [[Hlt|Heq]|Hgt]; [|auto|].
    - destruct (Hcont' N) as [_ Habs]; [lia|]. congruence.
    - destruct (Hcont N') as [Hbound Habs]; [lia|].
      destruct Hexit' as [Hmax|Hnear]; [lia|congruence]. }
  rewrite Hout', HNN, Hfar. reflexivity.
Qed.

(** X5.  The loop is a [do ... while]: under a bound [maxIts <= 1], zero
    and negative bounds included, the routine still makes one pass, and it
    compares the first estimate with the initial value 0 of [estimate]; it
    throws when that estimate exceeds the threshold in absolute value and
    returns it otherwise. *)
Theorem TwoNormEstimate_makes_one_pass_at_least
  (maxIts : Z) (fuel : nat) (w0 : Work) :
  maxIts <= 1 -> (1 <= fuel)%nat ->
  TwoNormEstimate Real Work zero one Rsub Rmul Rdiv Abs Req Rgt ofInt
    Gaussian_y Gaussian_x Gemv_NORMAL Gemv_ADJOINT Scale_x
    FrobeniusNorm_x FrobeniusNorm_y m n tol maxIts fuel w0 =
  Some (if far (est 1%nat w0) zero
        then RuntimeError did_not_converge
        else Returns (est 1%nat w0)).
Proof.
  intros Hmax Hpos.
  destruct (TwoNormEstimate_exit maxIts fuel w0 ltac:(lia) Hpos)
    as (N & HN & Hcont & _ & Hout).
  assert (HN1 : N = 1%nat).
  { destruct (Nat.eq_dec N 1) as [|Hne]; [assumption|].
    destruct (Hcont 1%nat); lia. }
  subst N. exact Hout.
Qed.

End Patience.
(** *** The Hermitian and the symmetric variants *)

Section Variants.

Variables Real Work : Type.
Variables (zero one : Real).
Variables (Rsub Rmul Rdiv : Real -> Real -> Real) (Abs : Real -> Real).
Variables (Req Rgt : Real -> Real -> bool) (ofInt : Z -> Real).

Variable Zeros_x : Work -> Work.           (* Zeros( x, n, 1 ) *)
Variable Gaussian_y : Work -> Work.        (* Gaussian( y, n, 1 ) *)
Variable Gaussian_x : Work -> Work.        (* Gaussian( x, n, 1 ) *)
Variable Hemv_x : Work -> Work.            (* Hemv( uplo, F(1), A, y, F(0), x ) *)
Variable Hemv_y : Work -> Work.            (* Hemv( uplo, F(1), A, x, F(0), y ) *)
Variable Symv_x : Work -> Work.            (* Symv( uplo, F(1), A, y, F(0), x ) *)
Variable Symv_y : Work -> Work.            (* Symv( uplo, F(1), A, x, F(0), y ) *)
Variable Conjugate_x : Work -> Work.       (* Conjugate( x ) *)
Variable Conjugate_y : Work -> Work.       (* Conjugate( y ) *)
Variable Scale_x : Real -> Work -> Work.   (* Scale( c, x ) *)
Variable FrobeniusNorm_x : Work -> Real.   (* FrobeniusNorm( x ) *)
Variable FrobeniusNorm_y : Work -> Real.   (* FrobeniusNorm( y ) *)

(** [A.Height()], and the arguments [tol] and [maxIts]. *)
Variables (n : Z) (tol : Real) (maxIts : Z).

(** [HermitianTwoNormEstimate( uplo, A, tol, maxIts )]: the loop of
    [TwoNormEstimate] with [Hemv] for both products, entered with [x]
    zeroed; the threshold is [tol*n], which is [tol*Max(n,n)]. *)
Definition HermitianTwoNormEstimate (fuel : nat) (w0 : Work)
  : option (Outcome Real) :=
  TwoNormEstimate Real Work zero one Rsub Rmul Rdiv Abs Req Rgt ofInt
    Gaussian_y Gaussian_x Hemv_x Hemv_y Scale_x
    FrobeniusNorm_x FrobeniusNorm_y n n tol maxIts fuel (Zeros_x w0).

(** [SymmetricTwoNormEstimate( uplo, A, tol, maxIts )]: as above with
    [Symv], the second product taken between [Conjugate( x )] and
    [Conjugate( y )]. *)
Definition SymmetricTwoNormEstimate (fuel : nat) (w0 : Work)
  : option (Outcome Real) :=
  TwoNormEstimate Real Work zero one Rsub Rmul Rdiv Abs Req Rgt ofInt
    Gaussian_y Gaussian_x Symv_x
    (fun w => Conjugate_y (Symv_y (Conjugate_x w))) Scale_x
    FrobeniusNorm_x FrobeniusNorm_y n n tol maxIts fuel (Zeros_x w0).

(** The estimate after [k] passes of either variant. *)
Definition HermitianEstimate (k : nat) (w0 : Work) : Real :=
  estimate Real Work
    (pass Real Work zero one Rdiv Req Gaussian_y Gaussian_x Hemv_x Hemv_y
          Scale_x FrobeniusNorm_x FrobeniusNorm_y k (Zeros_x w0)).

Definition SymmetricEstimate (k : nat) (w0 : Work) : Real :=
  estimate Real Work
    (pass Real Work zero one Rdiv Req Gaussian_y Gaussian_x Symv_x
          (fun w => Conjugate_y (Symv_y (Conjugate_x w)))
          Scale_x FrobeniusNorm_x FrobeniusNorm_y k (Zeros_x w0)).

(** [Abs(estimate-lastEst) > tol*n]. *)
Definition beyond (estimate lastEst : Real) : bool :=
  Rgt (Abs (Rsub estimate lastEst)) (Rmul tol (ofInt n)).

Lemma apart_square e l :
  apart Real Rsub Rmul Abs Rgt ofInt n n tol e l = beyond e l.
Proof. unfold apart, beyond, Max. now rewrite Z.ltb_irrefl. Qed.

(** X6.  [HermitianTwoNormEstimate] and [SymmetricTwoNormEstimate] end as
    [TwoNormEstimate] does: for a bound [maxIts >= 1] each leaves its loop
    after some pass N with 1 <= N <= maxIts, before which successive
    estimates were more than tol*n apart; it throws the runtime error when
    the estimates of the passes N and N-1 are more than tol*n apart, and
    returns the estimate of pass N otherwise. *)
Theorem symmetric_variants_end_within_maxIts (fuel : nat) (w0 : Work) :
  1 <= maxIts -> (Z.to_nat maxIts <= fuel)%nat ->
  (exists N,
     1 <= Z.of_nat N <= maxIts /\
     (forall j, (1 <= j < N)%nat ->
        beyond (HermitianEstimate j w0) (HermitianEstimate (j - 1) w0)
        = true) /\
     HermitianTwoNormEstimate fuel w0 =
     Some (if beyond (HermitianEstimate N w0) (HermitianEstimate (N - 1) w0)
           then RuntimeError did_not_converge
           else Returns (HermitianEstimate N w0))) /\
  (exists N,
     1 <= Z.of_nat N <= maxIts /\
     (forall j, (1 <= j < N)%nat ->
        beyond (SymmetricEstimate j w0) (SymmetricEstimate (j - 1) w0)
        = true) /\
     SymmetricTwoNormEstimate fuel w0 =
     Some (if beyond (SymmetricEstimate N w0) (SymmetricEstimate (N - 1) w0)
           then RuntimeError did_not_converge
           else Returns (SymmetricEstimate N w0))).
Proof.
  intros Hmax Hfuel.
  assert (Hpos : (1 <= fuel)%nat) by lia.
  split.
  - destruct (TwoNormEstimate_exit Real Work zero one Rsub Rmul Rdiv Abs
                Req Rgt ofInt Gaussian_y Gaussian_x Hemv_x Hemv_y Scale_x
                FrobeniusNorm_x FrobeniusNorm_y n n tol maxIts fuel
                (Zeros_x w0) Hfuel Hpos)
      as (N & HN & Hcont & _ & Hout).
    exists N. split; [|split].
    + destruct (Nat.eq_dec N 1) as [->|HN1]; [lia|].
      destruct (Hcont (N - 1)%nat); lia.
    + intros j Hj. rewrite <- apart_square. now apply Hcont.
    + rewrite <- apart_square. exact Hout.
  - destruct (TwoNormEstimate_exit Real Work zero one Rsub Rmul Rdiv Abs
                Req Rgt ofInt Gaussian_y Gaussian_x Symv_x
                (fun w => Conjugate_y (Symv_y (Conjugate_x w))) Scale_x
                FrobeniusNorm_x FrobeniusNorm_y n n tol maxIts fuel
                (Zeros_x w0) Hfuel Hpos)
      as (N & HN & Hcont & _ & Hout).
    exists N. split; [|split].
    + destruct (Nat.eq_dec N 1) as [->|HN1]; [lia|].
      destruct (Hcont (N - 1)%nat); lia.
    + intros j Hj. rewrite <- apart_square. now apply Hcont.
    + rewrite <- apart_square. exact Hout.
Qed.

End Variants.

(** *** A 1 x 1 matrix over the rationals *)

(** [A] is the 1 x 1 matrix with entry [a]; the work space is the pair
    (x, y); the generator always draws 1. *)
Section OneByOne.

Variable a : Q.

Definition run_1x1 (tol : Q) (maxIts : Z) (fuel : nat)
  : option (Outcome Q) :=
  TwoNormEstimate Q (Q * Q) 0%Q 1%Q Qminus Qmult Qdiv Qabs
    Qeq_bool (fun p q => negb (Qle_bool p q)) inject_Z
    (fun w => (fst w, 1%Q)) (fun w => (1%Q, snd w))
    (fun w => (a * snd w, snd w)%Q) (fun w => (fst w, a * fst w)%Q)
    (fun c w => (c * fst w, snd w)%Q)
    (fun w => Qabs (fst w)) (fun w => Qabs (snd w))
    1 1 tol maxIts fuel (0%Q, 0%Q).

End OneByOne.

Example run_1x1_converges :
  match run_1x1 2 (1 # 10) 5 5 with
  | Some (Returns e) => Qeq_bool e 2
  | _ => false
  end = true.
Proof. vm_compute. reflexivity. Qed.

Example run_1x1_out_of_time :
  run_1x1 2 (1 # 10) 1 5 = Some (RuntimeError did_not_converge).
Proof. vm_compute. reflexivity. Qed.


Lemma TwoNormEstimate_ends_within_maxIts_witness :
  exists o, run_1x1 2 (1 # 10) 5 5 = Some o.
Proof.
  destruct (TwoNormEstimate_ends_within_maxIts Q (Q * Q) 0%Q 1%Q
              Qminus Qmult Qdiv Qabs
              Qeq_bool (fun p q => negb (Qle_bool p q)) inject_Z
              (fun w => (fst w, 1%Q)) (fun w => (1%Q, snd w))
              (fun w => (2 * snd w, snd w)%Q) (fun w => (fst w, 2 * fst w)%Q)
              (fun c w => (c * fst w, snd w)%Q)
              (fun w => Qabs (fst w)) (fun w => Qabs (snd w))
              1 1 (1 # 10)%Q 5 5%nat (0%Q, 0%Q))
    as (v & _ & _ & _ & [Hthrow|Hret]).
  - lia.
  - simpl; lia.
  - eexists. exact Hthrow.
  - eexists. exact Hret.
Defined.

(** The 1 x 1 matrix (2): the estimate found under the bound 2 is the one
    returned under the bound 9. *)
Lemma TwoNormEstimate_stable_under_more_iterations_witness :
  run_1x1 2 (1 # 10) 9 9 = Some (Returns (32 # 16)%Q).
Proof.
  apply (TwoNormEstimate_stable_under_more_iterations Q (Q * Q) 0%Q 1%Q
           Qminus Qmult Qdiv Qabs
           Qeq_bool (fun p q => negb (Qle_bool p q)) inject_Z
           (fun w => (fst w, 1%Q)) (fun w => (1%Q, snd w))
           (fun w => (2 * snd w, snd w)%Q) (fun w => (fst w, 2 * fst w)%Q)
           (fun c w => (c * fst w, snd w)%Q)
           (fun w => Qabs (fst w)) (fun w => Qabs (snd w))
           1 1 (1 # 10)%Q 2 9 2%nat 9%nat (0%Q, 0%Q) (32 # 16)%Q).
  - lia.
  - simpl; lia.
  - lia.
  - simpl; lia.
  - lia.
  - vm_compute. reflexivity.
Defined.

(** Under the bound 0 the estimate 4 of the first pass is compared with
    0. *)
Lemma TwoNormEstimate_makes_one_pass_at_least_witness :
  run_1x1 2 (1 # 10) 0 1 = Some (RuntimeError did_not_converge).
Proof.
  unfold run_1x1.
  rewrite (TwoNormEstimate_makes_one_pass_at_least Q (Q * Q) 0%Q 1%Q
             Qminus Qmult Qdiv Qabs
             Qeq_bool (fun p q => negb (Qle_bool p q)) inject_Z
             (fun w => (fst w, 1%Q)) (fun w => (1%Q, snd w))
             (fun w => (2 * snd w, snd w)%Q) (fun w => (fst w, 2 * fst w)%Q)
             (fun c w => (c * fst w, snd w)%Q)
             (fun w => Qabs (fst w)) (fun w => Qabs (snd w))
             1 1 (1 # 10)%Q 0 1%nat (0%Q, 0%Q)) by lia.
  vm_compute. reflexivity.
Defined.

(** The variants on the 1 x 1 matrix (2), where [Hemv] and [Symv] multiply
    by 2 and [Conjugate] does nothing. *)
Lemma symmetric_variants_end_within_maxIts_witness :
  (exists o,
     HermitianTwoNormEstimate Q (Q * Q) 0%Q 1%Q Qminus Qmult Qdiv Qabs
       Qeq_bool (fun p q => negb (Qle_bool p q)) inject_Z
       (fun w => (0%Q, snd w)) (fun w => (fst w, 1%Q)) (fun w => (1%Q, snd w))
       (fun w => (2 * snd w, snd w)%Q) (fun w => (fst w, 2 * fst w)%Q)
       (fun c w => (c * fst w, snd w)%Q)
       (fun w => Qabs (fst w)) (fun w => Qabs (snd w))
       1 (1 # 10)%Q 5 5%nat (7%Q, 0%Q) = Some o) /\
  (exists o,
     SymmetricTwoNormEstimate Q (Q * Q) 0%Q 1%Q Qminus Qmult Qdiv Qabs
       Qeq_bool (fun p q => negb (Qle_bool p q)) inject_Z
       (fun w => (0%Q, snd w)) (fun w => (fst w, 1%Q)) (fun w => (1%Q, snd w))
       (fun w => (2 * snd w, snd w)%Q) (fun w => (fst w, 2 * fst w)%Q)
       (fun w => w) (fun w => w)
       (fun c w => (c * fst w, snd w)%Q)
       (fun w => Qabs (fst w)) (fun w => Qabs (snd w))
       1 (1 # 10)%Q 5 5%nat (7%Q, 0%Q) = Some o).
Proof.
  destruct (symmetric_variants_end_within_maxIts Q (Q * Q) 0%Q 1%Q
              Qminus Qmult Qdiv Qabs
              Qeq_bool (fun p q => negb (Qle_bool p q)) inject_Z
              (fun w => (0%Q, snd w)) (fun w => (fst w, 1%Q))
              (fun w => (1%Q, snd w))
              (fun w => (2 * snd w, snd w)%Q) (fun w => (fst w, 2 * fst w)%Q)
              (fun w => (2 * snd w, snd w)%Q) (fun w => (fst w, 2 * fst w)%Q)
              (fun w => w) (fun w => w)
              (fun c w => (c * fst w, snd w)%Q)
              (fun w => Qabs (fst w)) (fun w => Qabs (snd w))
              1 (1 # 10)%Q 5 5%nat (7%Q, 0%Q))
    as [(N & _ & _ & HH) (N' & _ & _ & HS)].
  - lia.
  - simpl; lia.
  - split; eexists; [exact HH|exact HS].
Defined.

End TwoNorm.

(* ===================================================================== *)
(** ** DistMatrix[* ,MC]: the copy constructor                            *)
(* ===================================================================== *)

Module Star_MC.

Import Elemental.

Section CopyConstructor.

(** [Local] is the type of the local matrix, over [R] for the real
    specialisation and over [std::complex<R>] for the complex one; the
    copy constructors of the two have the same text. *)
Variable Local : Type.
Variable noEntries : Local.

(** The members an [AbstractDistMatrix<T>] is constructed with. *)
Record Object := mkObject {
  Height : nat;
  Width : nat;
  ConstrainedColAlignment : bool;
  ConstrainedRowAlignment : bool;
  ColAlignment : nat;
  RowAlignment : nat;
  ColShift : nat;
  RowShift : nat;
  GetGrid : Grid;
  LocalMatrix : Local
}.

(** [ADM(height,width,constrainedColAlignment,constrainedRowAlignment,
         colAlignment,rowAlignment,colShift,rowShift,g)]. *)
Definition ADM (height width : nat) (constrainedColAlignment
  constrainedRowAlignment : bool) (colAlignment rowAlignment colShift
  rowShift : nat) (g : Grid) : Object :=
  mkObject height width constrainedColAlignment constrainedRowAlignment
           colAlignment rowAlignment colShift rowShift g noEntries.

(** [DistMatrixBase<T,Star,MC>::DistMatrixBase]. *)
Definition DMB (height width : nat) (constrainedRowAlignment : bool)
  (rowAlignment rowShift : nat) (g : Grid) : Object :=
  ADM height width false constrainedRowAlignment 0 rowAlignment 0 rowShift g.

(** [DistMatrixBase<T,Star,MC>::operator=( const
    DistMatrixBase<T,Star,MC>& )], declared in the class and defined
    elsewhere: the target after the call, from the target before it and
    the source. *)
Variable assign_Star_MC : Object -> Object -> Object.

(** Objects live at addresses; [&A != this] compares addresses. *)
Definition Address := nat.
Definition Memory := Address -> option Object.

Definition store (mem : Memory) (p : Address) (o : Object) : Memory :=
  fun q => if q =? p then Some o else mem q.

(** [A.GetGrid()] in the member initialiser; read from the object under
    construction itself it is indeterminate. *)
Variable indeterminate : Grid.

Definition GetGrid_at (mem : Memory) (a : Address) : Grid :=
  match mem a with
  | Some o => GetGrid o
  | None => indeterminate
  end.

Definition constructed_with_itself : string :=
  "Attempted to construct a [* ,MC] with itself.".

(** [DistMatrix<T,Star,MC>::DistMatrix( const DistMatrix<T,Star,MC>& A )]
    constructing the object at [this] from the reference [A]; [None] when
    [A] refers to no object. *)
Definition copy_constructor (this A : Address) (mem : Memory)
  : option (Completion * Memory) :=
  let base := DMB 0 0 false 0 0 (GetGrid_at mem A) in
  let mem1 := store mem this base in
  if negb (A =? this) then
    match mem1 A with
    | Some src => Some (Returned, store mem1 this (assign_Star_MC base src))
    | None => None
    end
  else Some (logic_error constructed_with_itself, mem1).

Lemma store_same mem p o : store mem p o p = Some o.
Proof. unfold store. now rewrite Nat.eqb_refl. Qed.

Lemma store_other mem p o q : q <> p -> store mem p o q = mem q.
Proof. intros H. unfold store. apply Nat.eqb_neq in H. now rewrite H. Qed.

(** C10.  The copy constructor of [DistMatrix[* ,MC]] (real and complex
    alike) throws a logic error when its argument is the object being
    constructed; for any other source object it returns, and the new
    object is what the [[* ,MC] <- [* ,MC]] assignment operator makes of
    the freshly base-constructed 0 x 0 object and the source, every other
    object being left as it was. *)
Theorem copy_constructor_self_or_assign (this A : Address) (mem : Memory) :
  (exists mem',
     copy_constructor this this mem
     = Some (logic_error constructed_with_itself, mem')) /\
  (A <> this ->
   forall src, mem A = Some src ->
   exists mem',
     copy_constructor this A mem = Some (Returned, mem') /\
     mem' this = Some (assign_Star_MC (DMB 0 0 false 0 0 (GetGrid src)) src) /\
     (forall q, q <> this -> mem' q = mem q)).
Proof.
  split.
  - unfold copy_constructor. rewrite Nat.eqb_refl. cbn [negb].
    eexists. reflexivity.
  - intros Hneq src Hsrc. unfold copy_constructor, GetGrid_at.
    rewrite store_other, Hsrc by exact Hneq.
    apply Nat.eqb_neq in Hneq. rewrite Hneq. cbn [negb].
    eexists. split; [reflexivity|]. split.
    + apply store_same.
    + intros q Hq. now rewrite !store_other by exact Hq.
Qed.

End CopyConstructor.

(** Copying the object at address 1 into a new object at address 2. *)
Definition source_object : Object unit :=
  DMB unit tt 3 4 false 0 1 exampleGrid.

Definition one_object : Memory unit :=
  store unit (fun _ => None) 1 source_object.

Lemma copy_constructor_self_or_assign_witness :
  exists mem',
    copy_constructor unit tt (fun _ src => src) exampleGrid 2 1 one_object
    = Some (Returned, mem') /\
    mem' 2 = Some source_object.
Proof.
  destruct (copy_constructor_self_or_assign unit tt (fun _ src => src)
              exampleGrid 2 1 one_object) as (_ & Hcopy).
  destruct (Hcopy ltac:(lia) source_object eq_refl)
    as (mem' & Hrun & Hnew & _).
  exists mem'. split; assumption.
Defined.

(** *** The constructors that size the local matrix *)

Section Constructors.

(** The local matrix, by its extents: height and width. *)
Definition Extents : Type := (nat * nat)%type.

(** [DMB::LocalMatrix().ResizeTo( height, width )]. *)
Definition ResizeTo (height width : nat) (o : Object Extents)
  : Object Extents :=
  mkObject Extents (Height _ o) (Width _ o)
    (ConstrainedColAlignment _ o) (ConstrainedRowAlignment _ o)
    (ColAlignment _ o) (RowAlignment _ o) (ColShift _ o) (RowShift _ o)
    (GetGrid _ o) (height, width).

(** The grid [g] and [g.MCRank()], the grid row of the calling process. *)
Variable g : Grid.
Variable MCRank : nat.

(** [DistMatrix( const Grid& g )]. *)
Definition DistMatrix_g : Object Extents :=
  DMB Extents (0, 0) 0 0 false 0 MCRank g.

(** [DistMatrix( int height, int width, const Grid& g )]. *)
Definition DistMatrix_hw (height width : nat) : Object Extents :=
  ResizeTo height (Cyclic.LocalLength width MCRank (gridHeight g))
    (DMB Extents (0, 0) height width false 0 MCRank g).

(** [DistMatrix( bool constrainedRowAlignment, int rowAlignment,
                 const Grid& g )]. *)
Definition DistMatrix_aligned (constrainedRowAlignment : bool)
  (rowAlignment : nat) : Object Extents :=
  DMB Extents (0, 0) 0 0 constrainedRowAlignment rowAlignment
      (Cyclic.Shift MCRank rowAlignment (gridHeight g)) g.

(** [DistMatrix( int height, int width, bool constrainedRowAlignment,
                 int rowAlignment, const Grid& g )]. *)
Definition DistMatrix_hw_aligned (height width : nat)
  (constrainedRowAlignment : bool) (rowAlignment : nat) : Object Extents :=
  let o := DMB Extents (0, 0) height width constrainedRowAlignment
               rowAlignment
               (Cyclic.Shift MCRank rowAlignment (gridHeight g)) g in
  ResizeTo height (Cyclic.LocalLength width (RowShift _ o) (gridHeight g)) o.

Lemma Shift_unaligned (stride : nat) :
  MCRank < stride -> Cyclic.Shift MCRank 0 stride = MCRank.
Proof.
  intros H. unfold Cyclic.Shift. rewrite Nat.sub_0_r.
  symmetry. apply (Nat.mod_unique _ _ 1); lia.
Qed.

(** X12.  On every process of the grid the constructors without an
    alignment build what the aligned constructors build for an
    unconstrained row alignment 0: [DistMatrix(height,width,g)] equals
    [DistMatrix(height,width,false,0,g)], local matrix included, and
    [DistMatrix(g)] equals [DistMatrix(false,0,g)]. *)
Theorem unaligned_constructors_align_at_zero (height width : nat) :
  MCRank < gridHeight g ->
  DistMatrix_hw height width = DistMatrix_hw_aligned height width false 0 /\
  DistMatrix_g = DistMatrix_aligned false 0.
Proof.
  intros H.
  unfold DistMatrix_hw, DistMatrix_hw_aligned, DistMatrix_g,
    DistMatrix_aligned, DMB, ADM, ResizeTo.
  cbn [Height Width ConstrainedColAlignment ConstrainedRowAlignment
       ColAlignment RowAlignment ColShift RowShift GetGrid].
  rewrite (Shift_unaligned _ H). split; reflexivity.
Qed.

End Constructors.

Lemma LocalLength_balanced (n s r : nat) :
  s < r ->
  n / r <= Cyclic.LocalLength n s r <= (n + r - 1) / r.
Proof.
  intros Hs. unfold Cyclic.LocalLength. split.
  - destruct (le_lt_dec s n) as [Hle|Hlt].
    + apply Nat.Div0.div_le_mono. lia.
    + rewrite Nat.div_small by lia. lia.
  - apply Nat.Div0.div_le_mono. lia.
Qed.

(** X13.  A [[* ,MC]] matrix built by the sizing constructor stores whole
    columns, dealt to the r rows of the grid: on every process the local
    matrix has the full height; the local widths of the r grid rows add
    up to the global width, and each lies between floor(width/r) and
    ceil(width/r). *)
Theorem constructor_deals_all_columns
  (g : Grid) (height width : nat) (constrainedRowAlignment : bool)
  (rowAlignment : nat) :
  rowAlignment < gridHeight g ->
  let local rank :=
    LocalMatrix _ (DistMatrix_hw_aligned g rank height width
                     constrainedRowAlignment rowAlignment) in
  (forall rank, fst (local rank) = height) /\
  list_sum (map (fun rank => snd (local rank)) (seq 0 (gridHeight g)))
  = width /\
  (forall rank, rank < gridHeight g ->
     width / gridHeight g <= snd (local rank)
     <= (width + gridHeight g - 1) / gridHeight g).
Proof.
  intros Ha local. unfold local, DistMatrix_hw_aligned, ResizeTo, DMB, ADM.
  cbn [LocalMatrix RowShift fst snd].
  split; [reflexivity|]. split.
  - apply Nrm2.LocalLength_total. exact Ha.
  - intros rank Hrank. apply LocalLength_balanced.
    apply Cyclic.Shift_lt. lia.
Qed.

(** Seven columns on the 2 x 2 grid with row alignment 1: the grid rows
    hold 3 and 4 of them. *)
Lemma unaligned_constructors_align_at_zero_witness :
  DistMatrix_hw exampleGrid 1 3 7
  = DistMatrix_hw_aligned exampleGrid 1 3 7 false 0.
Proof.
  apply (unaligned_constructors_align_at_zero exampleGrid 1 3 7).
  simpl; lia.
Defined.

Lemma constructor_deals_all_columns_witness :
  list_sum (map (fun rank =>
                   snd (LocalMatrix _ (DistMatrix_hw_aligned exampleGrid rank
                                         3 7 false 1)))
                (seq 0 2)) = 7.
Proof.
  apply (constructor_deals_all_columns exampleGrid 3 7 false 1).
  simpl; lia.
Defined.

End Star_MC.

(* ===================================================================== *)
(** ** test/blas/Syrk: the comparison against the reference result        *)
(* ===================================================================== *)

Module SyrkTest.

(** The triangle of [C] that [Syrk] updates. *)
Inductive Shape := Lower | Upper.

(** How [TestCorrectness] ends: it prints "PASSED" and returns, or it
    throws [std::logic_error]. *)
Inductive Outcome :=
| PASSED
| Throws (what : string).

Section Comparison.

(** The entries are [double] or [dcomplex]; [OKRelativeError] compares two
    of them in floating point and [print] is their [operator<<]: both stay
    abstract. *)
Variable T : Type.
Variable OKRelativeError : T -> T -> bool.
Variable print : T -> string.

(** The rows the inner loop visits in column [j], in order:
    [for( int i=j; i<C.Height(); ++i )] for [Lower] and
    [for( int i=0; i<=j; ++i )] otherwise. *)
Definition rows (shape : Shape) (Height j : nat) : list nat :=
  match shape with
  | Lower => seq j (Height - j)
  | Upper => seq 0 (S j)
  end.

(** The inner loop over the rows [il] of column [j]: the index at which it
    throws, if any.  [truth] is [CRef.LocalEntry] after the reference
    [blas::Syrk], [computed] is [CCopy.LocalEntry]. *)
Fixpoint first_failure_in (truth computed : nat -> nat -> T) (j : nat)
  (il : list nat) : option (nat * nat) :=
  match il with
  | [] => None
  | i :: il' =>
      if OKRelativeError (truth i j) (computed i j)
      then first_failure_in truth computed j il'
      else Some (i, j)
  end.

(** The outer loop over the columns [js]. *)
Fixpoint first_failure (shape : Shape) (Height : nat)
  (truth computed : nat -> nat -> T) (js : list nat) : option (nat * nat) :=
  match js with
  | [] => None
  | j :: js' =>
      match first_failure_in truth computed j (rows shape Height j) with
      | Some f => Some f
      | None => first_failure shape Height truth computed js'
      end
  end.

Local Open Scope string_scope.

(** [msg << "FAILED at index (" << i << "," << j << "): truth=" << truth
    << ", computed=" << computed]. *)
Definition message (truth computed : nat -> nat -> T) (i j : nat) : string :=
  "FAILED at index (" ++ Elemental.shown i ++ "," ++ Elemental.shown j
  ++ "): truth=" ++ print (truth i j)
  ++ ", computed=" ++ print (computed i j).

Local Close Scope string_scope.

(** The comparison loops of [TestCorrectness] for a [C] of
    [Height] x [Width]. *)
Definition TestCorrectness (shape : Shape) (Height Width : nat)
  (truth computed : nat -> nat -> T) : Outcome :=
  match first_failure shape Height truth computed (seq 0 Width) with
  | Some (i, j) => Throws (message truth computed i j)
  | None => PASSED
  end.

(** The indices the loops visit. *)
Definition compared (shape : Shape) (Height Width i j : nat) : Prop :=
  j < Width /\
  match shape with
  | Lower => j <= i < Height
  | Upper => i <= j
  end.

Lemma In_rows shape Height i j :
  In i (rows shape Height j) <->
  match shape with Lower => j <= i < Height | Upper => i <= j end.
Proof. destruct shape; cbn [rows]; rewrite in_seq; lia. Qed.

Lemma first_failure_in_seq truth computed j (len : nat) :
  forall a,
    match first_failure_in truth computed j (seq a len) with
    | None =>
        forall i, a <= i < a + len ->
          OKRelativeError (truth i j) (computed i j) = true
    | Some (i, j') =>
        j' = j /\ a <= i < a + len /\
        OKRelativeError (truth i j) (computed i j) = false /\
        forall i', a <= i' < i ->
          OKRelativeError (truth i' j) (computed i' j) = true
    end.
Proof.
  induction len as [|len IH]; intros a; cbn [seq first_failure_in].
  - intros i Hi. lia.
  - destruct (OKRelativeError (truth a j) (computed a j)) eqn:Hok.
    + specialize (IH (S a)).
      destruct (first_failure_in truth computed j (seq (S a) len))
        as [[i j']|].
      * destruct IH as (-> & Hi & Hbad & Hbefore).
        repeat split; auto; try lia.
        intros i' Hi'. destruct (Nat.eq_dec i' a) as [->|Hne]; [exact Hok|].
        apply Hbefore. lia.
      * intros i Hi. destruct (Nat.eq_dec i a) as [->|Hne]; [exact Hok|].
        apply IH. lia.
    + repeat split; auto; lia.
Qed.

Lemma first_failure_in_rows shape Height truth computed j :
  match first_failure_in truth computed j (rows shape Height j) with
  | None =>
      forall i, In i (rows shape Height j) ->
        OKRelativeError (truth i j) (computed i j) = true
  | Some (i, j') =>
      j' = j /\ In i (rows shape Height j) /\
      OKRelativeError (truth i j) (computed i j) = false /\
      forall i', In i' (rows shape Height j) -> i' < i ->
        OKRelativeError (truth i' j) (computed i' j) = true
  end.
Proof.
  destruct shape; cbn [rows].
  - pose proof (first_failure_in_seq truth computed j (Height - j) j) as H.
    destruct (first_failure_in truth computed j (seq j (Height - j)))
      as [[i j']|].
    + destruct H as (-> & Hi & Hbad & Hbefore).
      repeat split; auto; [apply in_seq; lia|].
      intros i' Hi' Hlt. apply in_seq in Hi'. apply Hbefore. lia.
    + intros i Hi. apply in_seq in Hi. apply H. lia.
  - pose proof (first_failure_in_seq truth computed j (S j) 0) as H.
    destruct (first_failure_in truth computed j (seq 0 (S j))) as [[i j']|].
    + destruct H as (-> & Hi & Hbad & Hbefore).
      repeat split; auto; [apply in_seq; lia|].
      intros i' Hi' Hlt. apply Hbefore. lia.
    + intros i Hi. apply in_seq in Hi. apply H. lia.
Qed.

Lemma first_failure_seq shape Height truth computed (len : nat) :
  forall b,
    match first_failure shape Height truth computed (seq b len) with
    | None =>
        forall i j, b <= j < b + len -> In i (rows shape Height j) ->
          OKRelativeError (truth i j) (computed i j) = true
    | Some (i, j) =>
        b <= j < b + len /\ In i (rows shape Height j) /\
        OKRelativeError (truth i j) (computed i j) = false /\
        forall i' j', b <= j' -> In i' (rows shape Height j') ->
          j' < j \/ (j' = j /\ i' < i) ->
          OKRelativeError (truth i' j') (computed i' j') = true
    end.
Proof.
  induction len as [|len IH]; intros b; cbn [seq first_failure].
  - intros i j Hj. lia.
  - pose proof (first_failure_in_rows shape Height truth computed b) as Hcol.
    destruct (first_failure_in truth computed b (rows shape Height b))
      as [[i j]|].
    + destruct Hcol as (-> & Hi & Hbad & Hbefore).
      repeat split; auto; try lia.
      intros i' j' Hj' Hi' [Hlt|[-> Hlt]]; [lia|]. now apply Hbefore.
    + specialize (IH (S b)).
      destruct (first_failure shape Height truth computed (seq (S b) len))
        as [[i j]|].
      * destruct IH as (Hj & Hi & Hbad & Hbefore).
        repeat split; auto; try lia.
        intros i' j' Hj' Hi' Hord.
        destruct (Nat.eq_dec j' b) as [->|Hne]; [now apply Hcol|].
        apply Hbefore; auto. lia.
      * intros i j Hj Hi.
        destruct (Nat.eq_dec j b) as [->|Hne]; [now apply Hcol|].
        apply IH; auto. lia.
Qed.

(** X9.  [TestCorrectness] passes exactly when every entry of the chosen
    triangle of [C] (for [Lower] the entries (i,j) with j <= i < Height,
    for [Upper] those with i <= j, in the columns j < Width) is within the
    relative error of the reference.  When it throws, the index in the
    text is an entry of the triangle that fails the comparison, and the
    first such in the order of the loops: column by column, downwards. *)
Theorem TestCorrectness_reports_the_first_failure
  (shape : Shape) (Height Width : nat) (truth computed : nat -> nat -> T) :
  (TestCorrectness shape Height Width truth computed = PASSED <->
   forall i j, compared shape Height Width i j ->
     OKRelativeError (truth i j) (computed i j) = true) /\
  (forall what,
     TestCorrectness shape Height Width truth computed = Throws what ->
     exists i j,
       what = message truth computed i j /\
       compared shape Height Width i j /\
       OKRelativeError (truth i j) (computed i j) = false /\
       forall i' j', compared shape Height Width i' j' ->
         j' < j \/ (j' = j /\ i' < i) ->
         OKRelativeError (truth i' j') (computed i' j') = true).
Proof.
  unfold TestCorrectness, compared.
  pose proof (first_failure_seq shape Height truth computed Width 0) as H.
  destruct (first_failure shape Height truth computed (seq 0 Width))
    as [[i j]|].
  - destruct H as (Hj & Hi & Hbad & Hbefore). split.
    + split; [discriminate|]. intros Hall.
      rewrite Hall in Hbad; [discriminate|].
      split; [lia|]. now apply In_rows.
    + intros what [= <-]. exists i, j.
      split; [reflexivity|]. split; [split; [lia|now apply In_rows]|].
      split; [exact Hbad|].
      intros i' j' [Hj' Hi'] Hord. apply Hbefore; auto; [lia|].
      now apply In_rows.
  - split.
    + split; [|reflexivity]. intros _ i j [Hj Hi].
      apply H; [lia|]. now apply In_rows.
    + intros what; discriminate.
Qed.

(** X10.  The other triangle is never compared: two pairs of reference
    and computed results that agree on the chosen triangle end
    [TestCorrectness] alike, whatever they hold elsewhere; an entry that
    [Syrk] should have left alone and did not goes unnoticed. *)
Theorem TestCorrectness_ignores_the_other_triangle
  (shape : Shape) (Height Width : nat)
  (truth computed truth' computed' : nat -> nat -> T) :
  (forall i j, compared shape Height Width i j ->
     truth i j = truth' i j /\ computed i j = computed' i j) ->
  TestCorrectness shape Height Width truth computed
  = TestCorrectness shape Height Width truth' computed'.
Proof.
  intros Hsame.
  assert (Hcol : forall j l,
            j < Width -> (forall i, In i l -> In i (rows shape Height j)) ->
            first_failure_in truth computed j l
            = first_failure_in truth' computed' j l).
  { intros j l Hj. induction l as [|i l IH]; intros Hl; [reflexivity|].
    cbn [first_failure_in].
    destruct (Hsame i j) as [-> ->].
    { split; [exact Hj|]. apply In_rows, Hl. now left. }
    rewrite IH by (intros i' Hi'; apply Hl; now right). reflexivity. }
  assert (Hcols : forall js,
            (forall j, In j js -> j < Width) ->
            first_failure shape Height truth computed js
            = first_failure shape Height truth' computed' js).
  { induction js as [|j js IH]; intros Hjs; [reflexivity|].
    cbn [first_failure].
    rewrite Hcol by (auto; apply Hjs; now left).
    rewrite IH by (intros j' Hj'; apply Hjs; now right). reflexivity. }
  pose proof (first_failure_seq shape Height truth' computed' Width 0) as H.
  unfold TestCorrectness.
  rewrite Hcols by (intros j Hj; apply in_seq in Hj; lia).
  destruct (first_failure shape Height truth' computed' (seq 0 Width))
    as [[i j]|]; [|reflexivity].
  destruct H as (Hj & Hi & _).
  unfold message. destruct (Hsame i j) as [-> ->]; [|reflexivity].
  split; [lia|]. now apply In_rows.
Qed.

End Comparison.

(** *** The two comparisons, in exact arithmetic *)

Section RelativeError.

Local Open Scope R_scope.

(** [1e-12], and its square root [1e-6]. *)
Definition bound : R := / 10 ^ 12.
Definition root_bound : R := / 10 ^ 6.

(** [OKRelativeError( double truth, double computed )] with the real
    numbers in place of the doubles:
    [fabs(truth-computed) / max(fabs(truth),(double)1) <= 1e-12]. *)
Definition OKRelativeError_double (truth computed : R) : Prop :=
  Rabs (truth - computed) / Rmax (Rabs truth) 1 <= bound.

(** A [dcomplex] by its real and imaginary parts; [std::norm] is the
    squared modulus. *)
Definition dcomplex : Type := (R * R)%type.

Definition minus (z w : dcomplex) : dcomplex :=
  (fst z - fst w, snd z - snd w).

Definition norm (z : dcomplex) : R := fst z * fst z + snd z * snd z.

Definition modulus (z : dcomplex) : R := sqrt (norm z).

(** [OKRelativeError( dcomplex truth, dcomplex computed )]:
    [norm(truth-computed) / max(norm(truth),(double)1) <= 1e-12]. *)
Definition OKRelativeError_dcomplex (truth computed : dcomplex) : Prop :=
  norm (minus truth computed) / Rmax (norm truth) 1 <= bound.

Lemma norm_nonneg z : 0 <= norm z.
Proof. unfold norm. nra. Qed.

Lemma modulus_sqr z : modulus z * modulus z = norm z.
Proof. apply sqrt_sqrt, norm_nonneg. Qed.

Lemma Rmax_sqr (x : R) : 0 <= x -> Rmax (x * x) 1 = Rmax x 1 * Rmax x 1.
Proof.
  intros Hx. unfold Rmax.
  destruct (Rle_dec (x * x) 1), (Rle_dec x 1); nra.
Qed.

(** X23.  In exact arithmetic the complex comparison of the test is the
    real one with the bound 1e-6 in place of 1e-12: [std::norm] is the
    squared modulus, so [OKRelativeError( dcomplex, dcomplex )] holds
    exactly when |truth - computed| / max(|truth|, 1) <= 1e-6. *)
Theorem complex_comparison_allows_the_square_root
  (truth computed : dcomplex) :
  OKRelativeError_dcomplex truth computed <->
  modulus (minus truth computed) / Rmax (modulus truth) 1 <= root_bound.
Proof.
  unfold OKRelativeError_dcomplex.
  rewrite <- (modulus_sqr truth), <- (modulus_sqr (minus truth computed)).
  assert (Ha : 0 <= modulus (minus truth computed)) by apply sqrt_pos.
  assert (Ht : 0 <= modulus truth) by apply sqrt_pos.
  rewrite (Rmax_sqr _ Ht).
  set (a := modulus (minus truth computed)) in *.
  set (b := Rmax (modulus truth) 1).
  assert (Hb : 1 <= b) by apply Rmax_r.
  assert (Hy : 0 <= a / b).
  { apply Rmult_le_pos; [exact Ha|].
    left. apply Rinv_0_lt_compat. lra. }
  replace (a * a / (b * b)) with ((a / b) * (a / b)) by (field; lra).
  assert (Hbound : bound = root_bound * root_bound).
  { unfold bound, root_bound. field. }
  assert (Hroot : 0 < root_bound).
  { unfold root_bound. apply Rinv_0_lt_compat. lra. }
  rewrite Hbound. split; intros H; nra.
Qed.

End RelativeError.

(** Integer entries compared for equality: a 3 x 3 [Lower] comparison
    whose only difference lies above the diagonal, and one that differs in
    two entries of the triangle. *)
Definition reference (i j : nat) : Z := Z.of_nat (10 * i + j).

Definition wrong_above (i j : nat) : Z :=
  if (i <? j)%nat then 0%Z else reference i j.

Definition wrong_below (i j : nat) : Z :=
  if (j <? i)%nat then 0%Z else reference i j.

Example Lower_passes_with_a_wrong_upper_triangle :
  TestCorrectness Z Z.eqb (fun _ => EmptyString) Lower 3 3
    reference wrong_above = PASSED.
Proof. reflexivity. Qed.

Example Lower_reports_the_first_wrong_entry :
  TestCorrectness Z Z.eqb (fun _ => EmptyString) Lower 3 3
    reference wrong_below
  = Throws "FAILED at index (1,0): truth=, computed=".
Proof. reflexivity. Qed.

Lemma TestCorrectness_ignores_the_other_triangle_witness :
  TestCorrectness Z Z.eqb (fun _ => EmptyString) Lower 3 3
    reference wrong_above
  = TestCorrectness Z Z.eqb (fun _ => EmptyString) Lower 3 3
      reference reference.
Proof.
  apply (TestCorrectness_ignores_the_other_triangle Z Z.eqb
           (fun _ => EmptyString) Lower 3 3
           reference wrong_above reference reference).
  intros i j [Hj Hi]. split; [reflexivity|].
  unfold wrong_above. destruct (Nat.ltb_spec i j); [lia|reflexivity].
Defined.

Lemma TestCorrectness_reports_the_first_failure_witness :
  TestCorrectness Z Z.eqb (fun _ => EmptyString) Upper 3 3
    reference reference = PASSED.
Proof.
  destruct (TestCorrectness_reports_the_first_failure Z Z.eqb
              (fun _ => EmptyString) Upper 3 3 reference reference)
    as [[_ Hpass] _].
  apply Hpass. intros i j _. apply Z.eqb_refl.
Defined.

(** A reference 0 and a computed value 1e-7, as reals and as complex
    numbers: the complex comparison accepts what the real one rejects. *)
Lemma complex_comparison_allows_the_square_root_witness :
  OKRelativeError_dcomplex (0, 0)%R (/ 10 ^ 7, 0)%R /\
  ~ OKRelativeError_double 0%R (/ 10 ^ 7)%R.
Proof.
  split.
  - apply complex_comparison_allows_the_square_root.
    unfold modulus, minus, norm, root_bound. cbn [fst snd].
    replace ((0 - / 10 ^ 7) * (0 - / 10 ^ 7) + (0 - 0) * (0 - 0))%R
      with (/ 10 ^ 7 * / 10 ^ 7)%R by ring.
    replace (0 * 0 + 0 * 0)%R with 0%R by ring.
    rewrite sqrt_square, sqrt_0 by lra.
    rewrite Rmax_right by lra. lra.
  - unfold OKRelativeError_double, bound.
    rewrite Rabs_R0, Rmax_right by lra.
    replace (0 - / 10 ^ 7)%R with (- / 10 ^ 7)%R by ring.
    rewrite Rabs_Ropp, Rabs_pos_eq by lra. lra.
Defined.

End SyrkTest.

From Stdlib Require Import Permutation.

(* ===================================================================== *)
(** ** El::LeastSquares on sparse matrices: the augmented system          *)
(* ===================================================================== *)

Module LeastSquares.

Local Open Scope Z_scope.

(** [Int] is Elemental's signed index type. *)
Definition Int := Z.

(** [El::Max]. *)
Definition Max (a b : Int) : Int := if a <? b then b else a.

Inductive Orientation := NORMAL | TRANSPOSE | ADJOINT.

Definition is_NORMAL (o : Orientation) : bool :=
  match o with NORMAL => true | _ => false end.

(** *** The checks of a debug build *)

Definition heights_must_match : string :=
  "Heights of A and B must match".

Definition width_and_height_must_match : string :=
  "Width of A and height of B must match".

(** The checks inside [DEBUG_ONLY] at the head of [ls::Equilibrated], in
    the sequential and in the distributed version alike: the text of the
    [LogicError], if any. *)
Definition Equilibrated_check (AHeight AWidth BHeight : Int)
  : option string :=
  if negb (AHeight =? BHeight) then Some heights_must_match
  else if negb (AWidth =? BHeight) then Some width_and_height_must_match
  else None.

(** The checks inside [DEBUG_ONLY] at the head of the distributed
    [LeastSquares]. *)
Definition LeastSquares_check (orientation : Orientation)
  (AHeight AWidth BHeight : Int) : option string :=
  if is_NORMAL orientation && negb (AHeight =? BHeight)
  then Some heights_must_match
  else if negb (is_NORMAL orientation) && negb (AWidth =? BHeight)
  then Some width_and_height_must_match
  else None.

(** The extents of [ABar]: those of [A], swapped by [Transpose] and by
    [Adjoint] (which are not part of the sources at hand). *)
Definition ABar_extents (orientation : Orientation) (AHeight AWidth : Int)
  : Int * Int :=
  match orientation with
  | NORMAL => (AHeight, AWidth)
  | TRANSPOSE | ADJOINT => (AWidth, AHeight)
  end.

(** The first [LogicError] of the distributed [LeastSquares], from its own
    check to the check of [ls::Equilibrated] on [ABar] and [BBar] (a copy
    of [B]), in a build with or without the debugging checks.  The calls
    in between ([Transpose], [Adjoint], [GeomEquil], [DiagonalSolve],
    [Ones]) are not part of the sources at hand and are taken to
    return. *)
Definition first_LogicError (DEBUG : bool) (orientation : Orientation)
  (AHeight AWidth BHeight : Int) : option string :=
  if DEBUG then
    match LeastSquares_check orientation AHeight AWidth BHeight with
    | Some what => Some what
    | None =>
        let (m, n) := ABar_extents orientation AHeight AWidth in
        Equilibrated_check m n BHeight
    end
  else None.

(** X14.  In a debug build the checks on the way into [ls::Equilibrated]
    pass for square systems only: the distributed [LeastSquares] throws
    no [LogicError] exactly when [A] is square with as many rows as [B].
    A least squares problem that conforms and is not square ([NORMAL]
    with [A.Height() = B.Height()], or a transposed orientation with
    [A.Width() = B.Height()]) passes the check of [LeastSquares] and is
    then rejected by [ls::Equilibrated] with "Width of A and height of B
    must match"; without the debugging checks nothing is thrown. *)
Theorem debug_checks_admit_square_systems_only
  (orientation : Orientation) (AHeight AWidth BHeight : Int) :
  (first_LogicError true orientation AHeight AWidth BHeight = None <->
   AHeight = BHeight /\ AWidth = BHeight) /\
  (AHeight <> AWidth ->
   (if is_NORMAL orientation then AHeight = BHeight else AWidth = BHeight) ->
   LeastSquares_check orientation AHeight AWidth BHeight = None /\
   first_LogicError true orientation AHeight AWidth BHeight
   = Some width_and_height_must_match) /\
  first_LogicError false orientation AHeight AWidth BHeight = None.
Proof.
  unfold first_LogicError, LeastSquares_check, Equilibrated_check,
    ABar_extents.
  split; [|split; [|reflexivity]].
  - destruct orientation; cbn [is_NORMAL negb andb];
      destruct (Z.eqb_spec AHeight BHeight), (Z.eqb_spec AWidth BHeight);
      cbn [negb]; split; try discriminate; try reflexivity; try lia;
      intros [? ?]; try lia.
  - intros Hsq Hconf.
    destruct orientation; cbn [is_NORMAL negb andb] in *;
      destruct (Z.eqb_spec AHeight BHeight), (Z.eqb_spec AWidth BHeight);
      cbn [negb]; try lia; split; reflexivity.
Qed.

(** A 5 x 3 system with a right-hand side of 5 rows. *)
Lemma debug_checks_admit_square_systems_only_witness :
  first_LogicError true NORMAL 5 3 5 = Some width_and_height_must_match.
Proof.
  destruct (debug_checks_admit_square_systems_only NORMAL 5 3 5)
    as (_ & Hreject & _).
  apply Hreject; [lia|reflexivity].
Defined.

(** *** The sequential assembly of J *)

(** [for( Int e=0; e<a; ++e )]: the values of the counter. *)
Definition range (a : Int) : list Int :=
  map Z.of_nat (seq 0 (Z.to_nat a)).

Lemma In_range (a e : Int) : In e (range a) <-> 0 <= e < a.
Proof.
  unfold range. rewrite in_map_iff. split.
  - intros (k & <- & Hk). apply in_seq in Hk. lia.
  - intros He. exists (Z.to_nat e). split; [lia|]. apply in_seq. lia.
Qed.

Lemma length_range (a : Int) : 0 <= a -> Z.of_nat (List.length (range a)) = a.
Proof. intros Ha. unfold range. rewrite length_map, length_seq. lia. Qed.

Section Assembly.

(** [F] is the scalar type and [Real] is [Base<F>]; [Conj] is complex
    conjugation and [weight x] is [Pow( x, Real(-2) )*ctrl.alpha] as a
    scalar. *)
Variables F Real : Type.
Variable Conj : F -> F.
Variable weight : Real -> F.

(** A sparse matrix by its extents and its entries: [A.Row(e)],
    [A.Col(e)] and [A.Value(e)] for e = 0, 1, ... *)
Record SparseMatrix := mkSparseMatrix {
  Height : Int;
  Width : Int;
  entries : list (Int * Int * F)
}.

(** An update [J.QueueUpdate( i, j, value )]. *)
Definition Update : Type := (Int * Int * F)%type.

(** The updates queued for J by the sequential [ls::Equilibrated], in
    program order; [dR] and [dC] are [dR.Get(e,0)] and [dC.Get(e,0)]. *)
Definition J_queue (A : SparseMatrix) (dR dC : Int -> Real) : list Update :=
  let m := Height A in
  let n := Width A in
  if m >=? n then
    flat_map (fun e : Int * Int * F =>
                let '(i, j, v) := e in
                [(i, j + m, v); (j + m, i, Conj v)]) (entries A)
    ++ map (fun e => (e, e, weight (dR e))) (range m)
  else
    flat_map (fun e : Int * Int * F =>
                let '(i, j, v) := e in
                [(j, i + n, Conj v); (i + n, j, v)]) (entries A)
    ++ map (fun e => (e, e, weight (dC e))) (range n).

(** The argument of [J.Reserve]. *)
Definition J_reserve (A : SparseMatrix) : Int :=
  2 * Z.of_nat (List.length (entries A)) + Max (Height A) (Width A).

(** The entries of [A] lie inside its extents. *)
Definition well_formed (A : SparseMatrix) : Prop :=
  0 <= Height A /\ 0 <= Width A /\
  Forall (fun e : Int * Int * F =>
            let '(i, j, _) := e in 0 <= i < Height A /\ 0 <= j < Width A)
         (entries A).

Lemma length_flat_map_pairs {X Y : Type} (f : X -> Y * Y) (l : list X) :
  List.length (flat_map (fun x => [fst (f x); snd (f x)]) l)
  = (2 * List.length l)%nat.
Proof. induction l as [|x l IH]; simpl; [reflexivity|]. rewrite IH. lia. Qed.

(** X15.  The sequential [ls::Equilibrated] queues for J exactly as many
    updates as it reserves, 2 numEntriesA + Max(m,n), and for an [A] whose
    entries lie inside its m x n extents every update lies inside the
    (m+n) x (m+n) extents of J.  The updates off the diagonal come in
    Hermitian pairs, (i,j,v) with (j,i,Conj(v)), and the diagonal receives
    one update in each of the rows 0 .. Max(m,n)-1 and none below. *)
Theorem J_queue_fills_the_reserve
  (A : SparseMatrix) (dR dC : Int -> Real) :
  well_formed A ->
  (forall v, Conj (Conj v) = v) ->
  let m := Height A in
  let n := Width A in
  Z.of_nat (List.length (J_queue A dR dC)) = J_reserve A /\
  Forall (fun u : Update =>
            let '(i, j, _) := u in 0 <= i < m + n /\ 0 <= j < m + n)
         (J_queue A dR dC) /\
  (forall i j v, In (i, j, v) (J_queue A dR dC) -> i <> j ->
     In (j, i, Conj v) (J_queue A dR dC)) /\
  (forall i, (exists v, In (i, i, v) (J_queue A dR dC))
             <-> 0 <= i < Max m n).
Proof.
  intros (Hm & Hn & Hin) Hconj m n. fold m n in Hm, Hn, Hin.
  rewrite Forall_forall in Hin.
  unfold J_queue, J_reserve, Max. fold m n.
  destruct (Z.geb_spec m n) as [Hge|Hlt];
    [replace (m <? n) with false by (symmetry; apply Z.ltb_ge; lia)
    |replace (m <? n) with true by (symmetry; apply Z.ltb_lt; lia)].
  - split; [|split; [|split]].
    + rewrite length_app, length_map.
      rewrite (flat_map_ext _
                 (fun e => [fst ((fun e : Int * Int * F =>
                                    let '(i, j, v) := e in
                                    ((i, j + m, v), (j + m, i, Conj v))) e);
                            snd ((fun e : Int * Int * F =>
                                    let '(i, j, v) := e in
                                    ((i, j + m, v), (j + m, i, Conj v))) e)]))
        by (intros [[i j] v]; reflexivity).
      rewrite length_flat_map_pairs, Nat2Z.inj_add, length_range by lia.
      lia.
    + apply Forall_forall. intros [[i j] v] Hu.
      apply in_app_or in Hu. destruct Hu as [Hu|Hu].
      * apply in_flat_map in Hu. destruct Hu as ([[i' j'] v'] & He & Hu).
        specialize (Hin _ He). cbn in Hin.
        destruct Hu as [[= <- <- <-]|[[= <- <- <-]|[]]]; lia.
      * apply in_map_iff in Hu. destruct Hu as (e & [= <- <- <-] & He).
        apply In_range in He. lia.
    + intros i j v Hu Hne. apply in_or_app.
      apply in_app_or in Hu. destruct Hu as [Hu|Hu].
      * left. apply in_flat_map in Hu.
        destruct Hu as ([[i' j'] v'] & He & Hu).
        apply in_flat_map. exists (i', j', v'). split; [exact He|].
        destruct Hu as [[= <- <- <-]|[[= <- <- <-]|[]]].
        -- right. left. reflexivity.
        -- left. rewrite Hconj. reflexivity.
      * apply in_map_iff in Hu. destruct Hu as (e & [= <- <- <-] & He).
        contradiction.
    + intros i. split.
      * intros (v & Hu). apply in_app_or in Hu. destruct Hu as [Hu|Hu].
        -- apply in_flat_map in Hu. destruct Hu as ([[i' j'] v'] & He & Hu).
           specialize (Hin _ He). cbn in Hin.
           destruct Hu as [[= <- Hd <-]|[[= <- Hd <-]|[]]]; lia.
        -- apply in_map_iff in Hu. destruct Hu as (e & Heq & He).
           injection Heq as -> _ _. apply In_range in He. lia.
      * intros Hi. exists (weight (dR i)). apply in_or_app. right.
        apply in_map_iff. exists i. split; [reflexivity|].
        apply In_range. lia.
  - split; [|split; [|split]].
    + rewrite length_app, length_map.
      rewrite (flat_map_ext _
                 (fun e => [fst ((fun e : Int * Int * F =>
                                    let '(i, j, v) := e in
                                    ((j, i + n, Conj v), (i + n, j, v))) e);
                            snd ((fun e : Int * Int * F =>
                                    let '(i, j, v) := e in
                                    ((j, i + n, Conj v), (i + n, j, v))) e)]))
        by (intros [[i j] v]; reflexivity).
      rewrite length_flat_map_pairs, Nat2Z.inj_add, length_range by lia.
      lia.
    + apply Forall_forall. intros [[i j] v] Hu.
      apply in_app_or in Hu. destruct Hu as [Hu|Hu].
      * apply in_flat_map in Hu. destruct Hu as ([[i' j'] v'] & He & Hu).
        specialize (Hin _ He). cbn in Hin.
        destruct Hu as [[= <- <- <-]|[[= <- <- <-]|[]]]; lia.
      * apply in_map_iff in Hu. destruct Hu as (e & [= <- <- <-] & He).
        apply In_range in He. lia.
    + intros i j v Hu Hne. apply in_or_app.
      apply in_app_or in Hu. destruct Hu as [Hu|Hu].
      * left. apply in_flat_map in Hu.
        destruct Hu as ([[i' j'] v'] & He & Hu).
        apply in_flat_map. exists (i', j', v'). split; [exact He|].
        destruct Hu as [[= <- <- <-]|[[= <- <- <-]|[]]].
        -- right. left. rewrite Hconj. reflexivity.
        -- left. reflexivity.
      * apply in_map_iff in Hu. destruct Hu as (e & [= <- <- <-] & He).
        contradiction.
    + intros i. split.
      * intros (v & Hu). apply in_app_or in Hu. destruct Hu as [Hu|Hu].
        -- apply in_flat_map in Hu. destruct Hu as ([[i' j'] v'] & He & Hu).
           specialize (Hin _ He). cbn in Hin.
           destruct Hu as [[= <- Hd <-]|[[= <- Hd <-]|[]]]; lia.
        -- apply in_map_iff in Hu. destruct Hu as (e & Heq & He).
           injection Heq as -> _ _. apply In_range in He. lia.
      * intros Hi. exists (weight (dC i)). apply in_or_app. right.
        apply in_map_iff. exists i. split; [reflexivity|].
        apply In_range. lia.
Qed.

End Assembly.

(** *** The exchanges of the distributed [ls::Equilibrated] *)

(** [v[q] += d] on a [vector<int>] indexed by process rank.  The source
    indexes with the result of [RowOwner], a rank of the communicator; an
    index outside the vector leaves it as it is here. *)
Fixpoint bump (q : nat) (d : Z) (v : list Z) : list Z :=
  match v, q with
  | [], _ => []
  | x :: v', O => (x + d) :: v'
  | x :: v', S q' => x :: bump q' d v'
  end.

Lemma length_bump q d v : List.length (bump q d v) = List.length v.
Proof.
  revert q. induction v as [|x v IH]; intros [|q]; simpl; auto.
Qed.

Lemma nth_bump q q' d v :
  nth q' (bump q d v) 0
  = if (q' =? q)%nat && (q <? List.length v)%nat
    then nth q' v 0 + d else nth q' v 0.
Proof.
  revert q q'. induction v as [|x v IH]; intros [|q] [|q']; simpl;
    try reflexivity.
  - rewrite andb_false_r. reflexivity.
  - rewrite IH. reflexivity.
Qed.

Lemma nth_zeros q size : nth q (repeat 0 size) 0 = 0.
Proof.
  revert q. induction size as [|size IH]; intros [|q]; simpl; auto.
Qed.

Section Exchange.

Variables F Real : Type.
Variable Conj : F -> F.
Variable weight : Real -> F.

(** [mpi::Size(comm)]. *)
Variable commSize : nat.

(** [J.RowOwner], [D.RowOwner] and [X.RowOwner]: the rank that owns a
    row; the classes that define them are not part of the sources at
    hand. *)
Variables JRowOwner DRowOwner XRowOwner : Int -> nat.

Record ValueIntPair := mkValueIntPair {
  indices0 : Int;
  indices1 : Int;
  value : F
}.

(** The state of a pack loop: the running offsets [offs], and the slots
    of [sendBuf] written so far, each with its position, in program
    order. *)
Record Packing := mkPacking {
  offs : list Z;
  sendBuf : list (Z * ValueIntPair)
}.

(** [sendBuf[offs[owner]] = e; ++offs[owner];] *)
Definition put (owner : nat) (e : ValueIntPair) (p : Packing) : Packing :=
  mkPacking (bump owner 1 (offs p))
            (sendBuf p ++ [(nth owner (offs p) 0, e)]).

(** [for( Int j=0; j<k; ++j )] packing row [i] of a multivector for
    [owner]; [row j] is [GetLocal(iLoc,j)]. *)
Definition put_row (owner : nat) (i : Int) (row : Int -> F) (k : Int)
  (p : Packing) : Packing :=
  fold_left (fun p j => put owner (mkValueIntPair i j (row j)) p)
            (range k) p.

(** A local row of a [DistMultiVec]: [GlobalRow(iLoc)] with
    [GetLocal(iLoc,0)], or with the whole local row. *)
Definition LocalEntry : Type := (Int * Real)%type.
Definition LocalRow : Type := (Int * (Int -> F))%type.

(** **** J *)

(** The metadata loops for J: [sendCounts] from the local entries of [A]
    and the local rows of [dR] or [dC]. *)
Definition J_sendCounts (m n : Int) (A : list (Int * Int * F))
  (dR dC : list LocalEntry) : list Z :=
  let counts :=
    fold_left (fun (c : list Z) (e : Int * Int * F) =>
                 let '(i, j, _) := e in
                 if m >=? n
                 then bump (JRowOwner (j + m)) 1 (bump (JRowOwner i) 1 c)
                 else bump (JRowOwner j) 1 (bump (JRowOwner (i + n)) 1 c))
              A (repeat 0 commSize) in
  if m >=? n
  then fold_left (fun (c : list Z) (r : LocalEntry) =>
                    bump (JRowOwner (fst r)) 1 c) dR counts
  else fold_left (fun (c : list Z) (r : LocalEntry) =>
                    bump (JRowOwner (fst r)) 1 c) dC counts.

(** The pack loops for J, from [offs = sendOffs]. *)
Definition J_pack (m n : Int) (A : list (Int * Int * F))
  (dR dC : list LocalEntry) (sendOffs : list Z) : Packing :=
  let p :=
    fold_left (fun (p : Packing) (e : Int * Int * F) =>
                 let '(i, j, v) := e in
                 if m >=? n
                 then put (JRowOwner (j + m))
                          (mkValueIntPair (j + m) i (Conj v))
                          (put (JRowOwner i) (mkValueIntPair i (j + m) v) p)
                 else put (JRowOwner j)
                          (mkValueIntPair j (i + n) (Conj v))
                          (put (JRowOwner (i + n))
                               (mkValueIntPair (i + n) j v) p))
              A (mkPacking sendOffs []) in
  if m >=? n
  then fold_left (fun (p : Packing) (r : LocalEntry) =>
                    put (JRowOwner (fst r))
                        (mkValueIntPair (fst r) (fst r) (weight (snd r))) p)
                 dR p
  else fold_left (fun (p : Packing) (r : LocalEntry) =>
                    put (JRowOwner (fst r))
                        (mkValueIntPair (fst r) (fst r) (weight (snd r))) p)
                 dC p.

(** **** D *)

Definition D_sendCounts (m n k : Int) (B : list LocalRow) : list Z :=
  fold_left (fun (c : list Z) (r : LocalRow) =>
               if m >=? n then bump (DRowOwner (fst r)) k c
               else bump (DRowOwner (fst r + n)) k c)
            B (repeat 0 commSize).

Definition D_pack (m n k : Int) (B : list LocalRow) (sendOffs : list Z)
  : Packing :=
  fold_left (fun (p : Packing) (r : LocalRow) =>
               if m >=? n
               then put_row (DRowOwner (fst r)) (fst r) (snd r) k p
               else put_row (DRowOwner (fst r + n)) (fst r + n) (snd r) k p)
            B (mkPacking sendOffs []).

(** **** X *)

(** The metadata loop of the extraction of X over the local rows of D;
    the loop is left at [break]. *)
Fixpoint X_sendCounts (m n k : Int) (D : list LocalRow) (c : list Z)
  : list Z :=
  match D with
  | [] => c
  | r :: D' =>
      let i := fst r in
      if m >? n then
        if i >=? m
        then X_sendCounts m n k D' (bump (XRowOwner (i - m)) k c)
        else X_sendCounts m n k D' c
      else
        if i <? n
        then X_sendCounts m n k D' (bump (XRowOwner i) k c)
        else c
  end.

(** The pack loop of the extraction. *)
Fixpoint X_pack (m n k : Int) (D : list LocalRow) (p : Packing) : Packing :=
  match D with
  | [] => p
  | r :: D' =>
      let i := fst r in
      if m >=? n then
        if i >=? m
        then X_pack m n k D'
               (put_row (XRowOwner (i - m)) (i - m) (snd r) k p)
        else X_pack m n k D' p
      else
        if i <? n
        then X_pack m n k D' (put_row (XRowOwner i) i (snd r) k p)
        else p
  end.

(** **** Counting and packing in step *)

(** The pack loop has advanced the offset of every destination by the
    count the metadata loop holds for it. *)
Definition in_step (sendOffs c : list Z) (p : Packing) : Prop :=
  List.length c = List.length (offs p) /\
  forall q, nth q (offs p) 0 = nth q sendOffs 0 + nth q c 0.

Lemma in_step_start (sendOffs : list Z) :
  List.length sendOffs = commSize ->
  in_step sendOffs (repeat 0 commSize) (mkPacking sendOffs []).
Proof.
  intros H. split; cbn [offs].
  - rewrite repeat_length. auto.
  - intros q. rewrite nth_zeros. lia.
Qed.

Lemma in_step_put sendOffs c p q e :
  in_step sendOffs c p -> in_step sendOffs (bump q 1 c) (put q e p).
Proof.
  intros [Hlen Hnth]. split; cbn [put offs].
  - rewrite !length_bump. exact Hlen.
  - intros q'. rewrite !nth_bump, Hnth, Hlen.
    destruct ((q' =? q)%nat && (q <? List.length (offs p))%nat); lia.
Qed.

Lemma put_row_spec q i row (l : list Int) :
  forall p,
    let p' := fold_left (fun p j => put q (mkValueIntPair i j (row j)) p)
                        l p in
    List.length (offs p') = List.length (offs p) /\
    (forall q', nth q' (offs p') 0
                = nth q' (offs p) 0
                  + if (q' =? q)%nat && (q <? List.length (offs p))%nat
                    then Z.of_nat (List.length l) else 0) /\
    List.length (sendBuf p')
    = (List.length (sendBuf p) + List.length l)%nat.
Proof.
  induction l as [|j l IH]; intros p; cbn [fold_left].
  - repeat split; auto. intros q'.
    destruct ((q' =? q)%nat && _); cbn [List.length]; lia.
  - destruct (IH (put q (mkValueIntPair i j (row j)) p))
      as (Hlen & Hnth & Hbuf).
    cbn zeta. rewrite Hlen, Hbuf. cbn [put offs sendBuf] in *.
    rewrite length_bump, length_app. cbn [List.length].
    repeat split; auto; [|lia].
    intros q'. rewrite Hnth, length_bump, nth_bump.
    destruct ((q' =? q)%nat && (q <? List.length (offs p))%nat); lia.
Qed.

Lemma in_step_put_row sendOffs c p q i row k :
  0 <= k ->
  in_step sendOffs c p ->
  in_step sendOffs (bump q k c) (put_row q i row k p).
Proof.
  intros Hk [Hlen Hnth]. unfold put_row.
  destruct (put_row_spec q i row (range k) p) as (Hlen' & Hnth' & _).
  split.
  - rewrite length_bump, Hlen'. exact Hlen.
  - intros q'. rewrite Hnth', nth_bump, Hnth, Hlen, length_range by lia.
    destruct ((q' =? q)%nat && (q <? List.length (offs p))%nat); lia.
Qed.

Lemma length_put_row q i row k p :
  List.length (sendBuf (put_row q i row k p))
  = (List.length (sendBuf p) + Z.to_nat k)%nat.
Proof.
  unfold put_row.
  destruct (put_row_spec q i row (range k) p) as (_ & _ & Hbuf).
  rewrite Hbuf. unfold range. rewrite length_map, length_seq. reflexivity.
Qed.

Lemma fold_in_step {X : Type} sendOffs
  (f : list Z -> X -> list Z) (g : Packing -> X -> Packing) :
  (forall c p x, in_step sendOffs c p -> in_step sendOffs (f c x) (g p x)) ->
  forall l c p,
    in_step sendOffs c p ->
    in_step sendOffs (fold_left f l c) (fold_left g l p).
Proof.
  intros Hstep. induction l as [|x l IH]; intros c p H; cbn [fold_left];
    auto.
Qed.

Lemma fold_length_sendBuf {X : Type} (g : Packing -> X -> Packing) (w : nat) :
  (forall p x, List.length (sendBuf (g p x))
               = (List.length (sendBuf p) + w)%nat) ->
  forall l p,
    List.length (sendBuf (fold_left g l p))
    = (List.length (sendBuf p) + w * List.length l)%nat.
Proof.
  intros Hg. induction l as [|x l IH]; intros p; cbn [fold_left List.length].
  - lia.
  - rewrite IH, Hg. lia.
Qed.

(** X16.  In the exchanges that assemble J and D, the pack loop writes
    for every destination exactly the number of entries the metadata
    loop announced for it: on exit [offs[q] = sendOffs[q] + sendCounts[q]]
    for every rank q.  The loops for J write 2 numLocalEntriesA entries
    and one per local row of [dR] (or [dC]); those for D write k entries
    per local row of [B]. *)
Theorem J_and_D_pack_what_they_count
  (m n k : Int) (A : list (Int * Int * F)) (dR dC : list LocalEntry)
  (B : list LocalRow) (sendOffs : list Z) :
  List.length sendOffs = commSize -> 0 <= k ->
  (forall q,
     nth q (offs (J_pack m n A dR dC sendOffs)) 0
     = nth q sendOffs 0 + nth q (J_sendCounts m n A dR dC) 0) /\
  List.length (sendBuf (J_pack m n A dR dC sendOffs))
  = (2 * List.length A
     + List.length (if m >=? n then dR else dC))%nat /\
  (forall q,
     nth q (offs (D_pack m n k B sendOffs)) 0
     = nth q sendOffs 0 + nth q (D_sendCounts m n k B) 0) /\
  List.length (sendBuf (D_pack m n k B sendOffs))
  = (Z.to_nat k * List.length B)%nat.
Proof.
  intros Hlen Hk.
  pose proof (in_step_start sendOffs Hlen) as H0.
  repeat split.
  - apply (proj2 (A := List.length (J_sendCounts m n A dR dC)
                       = List.length (offs (J_pack m n A dR dC sendOffs)))).
    change (in_step sendOffs (J_sendCounts m n A dR dC)
                    (J_pack m n A dR dC sendOffs)).
    unfold J_sendCounts, J_pack.
    destruct (m >=? n); apply fold_in_step;
      try (intros c p r Hcp; now apply in_step_put);
      apply fold_in_step; auto;
      intros c p [[i j] v] Hcp; now do 2 apply in_step_put.
  - unfold J_pack.
    destruct (m >=? n);
      rewrite (fold_length_sendBuf _ 1) by
        (intros p x; cbn [put sendBuf]; rewrite length_app; reflexivity);
      rewrite (fold_length_sendBuf _ 2) by
        (intros p [[i j] v]; cbn [put sendBuf]; rewrite !length_app;
         cbn [List.length]; lia);
      cbn [sendBuf List.length]; lia.
  - apply (proj2 (A := List.length (D_sendCounts m n k B)
                       = List.length (offs (D_pack m n k B sendOffs)))).
    change (in_step sendOffs (D_sendCounts m n k B)
                    (D_pack m n k B sendOffs)).
    unfold D_sendCounts, D_pack.
    apply fold_in_step; auto.
    intros c p r Hcp. destruct (m >=? n); now apply in_step_put_row.
  - unfold D_pack.
    rewrite (fold_length_sendBuf _ (Z.to_nat k)) by
      (intros p r; destruct (m >=? n); apply length_put_row).
    cbn [sendBuf List.length]. lia.
Qed.

Lemma X_in_step sendOffs (m n k : Int) (D : list LocalRow) :
  m <> n -> 0 <= k ->
  forall c p,
    in_step sendOffs c p ->
    in_step sendOffs (X_sendCounts m n k D c) (X_pack m n k D p).
Proof.
  intros Hmn Hk. induction D as [|r D IH]; intros c p H;
    cbn [X_sendCounts X_pack]; [exact H|].
  destruct (Z.gtb_spec m n) as [Hgt|Hle].
  - replace (m >=? n) with true by (symmetry; apply Z.geb_le; lia).
    destruct (fst r >=? m); [|now apply IH].
    apply IH. now apply in_step_put_row.
  - replace (m >=? n) with false
      by (symmetry; destruct (Z.geb_spec m n); [lia|reflexivity]).
    destruct (fst r <? n); [|exact H].
    apply IH. now apply in_step_put_row.
Qed.

(** X17.  For a system that is not square (m <> n) the extraction of X
    packs what it counts: the metadata loop and the pack loop select the
    same local rows of D (those from row m on when m > n; those before
    the first row >= n when m < n), and on exit
    [offs[q] = sendOffs[q] + sendCounts[q]] for every rank q. *)
Theorem extraction_packs_what_it_counts
  (m n k : Int) (D : list LocalRow) (sendOffs : list Z) :
  m <> n -> 0 <= k -> List.length sendOffs = commSize ->
  forall q,
    nth q (offs (X_pack m n k D (mkPacking sendOffs []))) 0
    = nth q sendOffs 0
      + nth q (X_sendCounts m n k D (repeat 0 commSize)) 0.
Proof.
  intros Hmn Hk Hlen.
  apply (X_in_step sendOffs m n k D Hmn Hk). now apply in_step_start.
Qed.

(** The sum of a [vector<int>]. *)
Definition total (v : list Z) : Z := fold_right Z.add 0 v.

Lemma total_bump q d v :
  (q < List.length v)%nat -> total (bump q d v) = total v + d.
Proof.
  unfold total. revert q.
  induction v as [|x v IH]; intros [|q] H;
    cbn [bump fold_right List.length] in *; try lia.
  rewrite IH by lia. lia.
Qed.

Lemma total_zeros size : total (repeat 0 size) = 0.
Proof. induction size as [|size IH]; cbn; auto. Qed.

(** X18.  For a square system (m = n) the two loops of the extraction
    disagree: the metadata loop tests [m > n] and counts the local rows
    of D below n, the pack loop tests [m >= n] and packs the local rows
    from m on.  A process whose local rows of D all lie below n announces
    k entries for each of them and packs none; a process whose local rows
    all lie at or beyond n announces none and writes k entries for each
    into [sendBuf]. *)
Theorem extraction_counts_and_packs_differ_when_square
  (n k : Int) (D : list LocalRow) (sendOffs : list Z) :
  (Forall (fun r : LocalRow =>
             fst r < n /\ (XRowOwner (fst r) < commSize)%nat) D ->
   X_pack n n k D (mkPacking sendOffs []) = mkPacking sendOffs [] /\
   total (X_sendCounts n n k D (repeat 0 commSize))
   = k * Z.of_nat (List.length D)) /\
  (Forall (fun r : LocalRow => n <= fst r) D ->
   X_sendCounts n n k D (repeat 0 commSize) = repeat 0 commSize /\
   List.length (sendBuf (X_pack n n k D (mkPacking sendOffs [])))
   = (Z.to_nat k * List.length D)%nat).
Proof.
  split.
  - intros Hlow. split.
    + generalize (mkPacking sendOffs []).
      induction Hlow as [|r D [Hr _] _ IH]; intros p; cbn [X_pack];
        [reflexivity|].
      replace (n >=? n) with true by (symmetry; apply Z.geb_le; lia).
      replace (fst r >=? n) with false
        by (symmetry; destruct (Z.geb_spec (fst r) n); [lia|reflexivity]).
      apply IH.
    + assert (H : forall c, List.length c = commSize ->
                total (X_sendCounts n n k D c)
                = total c + k * Z.of_nat (List.length D)).
      { induction Hlow as [|r D [Hr Ho] _ IH]; intros c Hc;
          cbn [X_sendCounts List.length]; [lia|].
        replace (n >? n) with false
          by (symmetry; destruct (Z.gtb_spec n n); [lia|reflexivity]).
        replace (fst r <? n) with true by (symmetry; apply Z.ltb_lt; lia).
        rewrite IH by (rewrite length_bump; exact Hc).
        rewrite total_bump by lia. lia. }
      rewrite H by apply repeat_length. rewrite total_zeros. lia.
  - intros Hhigh. split.
    + destruct Hhigh as [|r D Hr _]; cbn [X_sendCounts]; [reflexivity|].
      replace (n >? n) with false
        by (symmetry; destruct (Z.gtb_spec n n); [lia|reflexivity]).
      replace (fst r <? n) with false by (symmetry; apply Z.ltb_ge; lia).
      reflexivity.
    + assert (H : forall p,
                List.length (sendBuf (X_pack n n k D p))
                = (List.length (sendBuf p)
                   + Z.to_nat k * List.length D)%nat).
      { induction Hhigh as [|r D Hr _ IH]; intros p;
          cbn [X_pack List.length]; [lia|].
        replace (n >=? n) with true by (symmetry; apply Z.geb_le; lia).
        replace (fst r >=? n) with true by (symmetry; apply Z.geb_le; lia).
        rewrite IH, length_put_row. lia. }
      rewrite H. cbn [sendBuf List.length]. lia.
Qed.

(** **** One process against the sequential assembly *)

(** The updates a pack loop has written, in program order. *)
Definition updates_of (p : Packing) : list (Int * Int * F) :=
  map (fun w => (indices0 (snd w), indices1 (snd w), value (snd w)))
      (sendBuf p).

Lemma fold_updates {X : Type} (g : Packing -> X -> Packing)
  (h : X -> list (Int * Int * F)) :
  (forall p x, updates_of (g p x) = updates_of p ++ h x) ->
  forall l p,
    updates_of (fold_left g l p) = updates_of p ++ flat_map h l.
Proof.
  intros Hg. induction l as [|x l IH]; intros p; cbn [fold_left flat_map].
  - now rewrite app_nil_r.
  - rewrite IH, Hg, <- app_assoc. reflexivity.
Qed.

Lemma updates_of_put q e p :
  updates_of (put q e p)
  = updates_of p ++ [(indices0 e, indices1 e, value e)].
Proof. unfold updates_of, put. cbn [sendBuf]. now rewrite map_app. Qed.

Lemma Permutation_flat_map_pointwise {X Y : Type} (f g : X -> list Y)
  (l : list X) :
  (forall x, Permutation (f x) (g x)) ->
  Permutation (flat_map f l) (flat_map g l).
Proof.
  intros H. induction l as [|x l IH]; cbn [flat_map]; [constructor|].
  now apply Permutation_app.
Qed.

(** X19.  On a process that holds all of A, dR and dC, the pack loops
    of the distributed [ls::Equilibrated] write exactly the updates the
    sequential [ls::Equilibrated] queues for J: the same list when
    m >= n, and for m < n the same updates with the two of each entry of
    A in the other order. *)
Theorem distributed_J_is_the_sequential_J
  (A : SparseMatrix F) (dR dC : Int -> Real) (sendOffs : list Z) :
  let m := Height F A in
  let n := Width F A in
  let packed :=
    updates_of (J_pack m n (entries F A)
                       (map (fun e => (e, dR e)) (range m))
                       (map (fun e => (e, dC e)) (range n)) sendOffs) in
  Permutation packed (J_queue F Real Conj weight A dR dC) /\
  (n <= m -> packed = J_queue F Real Conj weight A dR dC).
Proof.
  intros m n packed. unfold packed, J_pack, J_queue. fold m n.
  destruct (Z.geb_spec m n) as [Hge|Hlt].
  - assert (Heq :
      updates_of
        (fold_left
           (fun (p : Packing) (r : LocalEntry) =>
              put (JRowOwner (fst r))
                (mkValueIntPair (fst r) (fst r) (weight (snd r))) p)
           (map (fun e => (e, dR e)) (range m))
           (fold_left
              (fun (p : Packing) (e : Int * Int * F) =>
                 let '(i, j, v) := e in
                 put (JRowOwner (j + m)) (mkValueIntPair (j + m) i (Conj v))
                   (put (JRowOwner i) (mkValueIntPair i (j + m) v) p))
              (entries F A) (mkPacking sendOffs [])))
      = flat_map (fun e : Int * Int * F =>
                    let '(i, j, v) := e in
                    [(i, j + m, v); (j + m, i, Conj v)]) (entries F A)
        ++ map (fun e => (e, e, weight (dR e))) (range m)).
    { rewrite (fold_updates _
                 (fun r : LocalEntry => [(fst r, fst r, weight (snd r))]))
        by (intros p r; now rewrite updates_of_put).
      rewrite (fold_updates _
                 (fun e : Int * Int * F =>
                    let '(i, j, v) := e in
                    [(i, j + m, v); (j + m, i, Conj v)]))
        by (intros p [[i j] v]; rewrite !updates_of_put, <- app_assoc;
            reflexivity).
      cbn [updates_of sendBuf map app]. f_equal.
      rewrite flat_map_concat_map, map_map, <- flat_map_concat_map.
      cbn [fst snd]. apply Nrm2.flat_map_singleton. }
    rewrite Heq. split; [apply Permutation_refl|reflexivity].
  - split; [|lia].
    rewrite (fold_updates _
               (fun r : LocalEntry => [(fst r, fst r, weight (snd r))]))
      by (intros p r; now rewrite updates_of_put).
    rewrite (fold_updates _
               (fun e : Int * Int * F =>
                  let '(i, j, v) := e in
                  [(i + n, j, v); (j, i + n, Conj v)]))
      by (intros p [[i j] v]; rewrite !updates_of_put, <- app_assoc;
          reflexivity).
    cbn [updates_of sendBuf map app].
    apply Permutation_app.
    + apply Permutation_flat_map_pointwise. intros [[i j] v].
      apply perm_swap.
    + rewrite flat_map_concat_map, map_map, <- flat_map_concat_map.
      cbn [fst snd].
      rewrite (Nrm2.flat_map_singleton (fun e => (e, e, weight (dC e)))).
      apply Permutation_refl.
Qed.

End Exchange.

(** *** The entries sent for D and for X against the sequential version *)

Section Agreement.

Variable F : Type.
Variable zero : F.
Variables DRowOwner XRowOwner : Int -> nat.

(** The entries of D after [Zeros( D, m+n, k )] and the assignment of
    [B] to the view [D( IR(0,m), IR(0,k) )] (m >= n) or
    [D( IR(n,m+n), IR(0,k) )] (m < n) in the sequential
    [ls::Equilibrated]. *)
Definition D_sequential (m n : Int) (B : Int -> Int -> F)
  : Int -> Int -> F :=
  fun i j =>
    if m >=? n then (if i <? m then B i j else zero)
    else (if n <=? i then B (i - n) j else zero).

(** The entries of X after [X = D( IR(m,m+n), IR(0,k) )] (m >= n) or
    [X = D( IR(0,n), IR(0,k) )] (m < n). *)
Definition X_sequential (m n : Int) (D : Int -> Int -> F)
  : Int -> Int -> F :=
  fun i j => if m >=? n then D (m + i) j else D i j.

Lemma put_row_Forall (P : Z * ValueIntPair F -> Prop) q i row k p :
  Forall P (sendBuf F p) ->
  (forall j pos, 0 <= j < k -> P (pos, mkValueIntPair F i j (row j))) ->
  Forall P (sendBuf F (put_row F q i row k p)).
Proof.
  intros Hp Hrow. unfold put_row.
  assert (H : forall l p,
            Forall P (sendBuf F p) -> (forall j, In j l -> 0 <= j < k) ->
            Forall P (sendBuf F
                        (fold_left
                           (fun p j => put F q (mkValueIntPair F i j (row j)) p)
                           l p))).
  { induction l as [|j l IH]; intros p' Hp' Hl; cbn [fold_left]; auto.
    apply IH; [|intros j' Hj'; apply Hl; now right].
    cbn [put sendBuf]. apply Forall_app. split; [exact Hp'|].
    constructor; [|constructor]. apply Hrow, Hl. now left. }
  apply H; [exact Hp|]. intros j Hj. now apply In_range.
Qed.

(** X22.  What the distributed [ls::Equilibrated] sends agrees with what
    the sequential one assigns.  Every entry packed for D is an entry of
    [B] at the position the sequential version gives it in [B; 0] or
    [0; B]; every entry packed for X, for all m and n, has a row index
    inside X and carries the entry of D that the sequential version
    extracts to that position. *)
Theorem sent_entries_are_the_sequential_entries
  (m n k : Int) (B D : Int -> Int -> F) (rowsB rowsD : list Int)
  (sendOffs : list Z) :
  0 <= m -> 0 <= n ->
  Forall (fun i => 0 <= i < m) rowsB ->
  Forall (fun i => 0 <= i < m + n) rowsD ->
  Forall (fun w : Z * ValueIntPair F =>
            let e := snd w in
            0 <= indices0 F e < m + n /\ 0 <= indices1 F e < k /\
            value F e = D_sequential m n B (indices0 F e) (indices1 F e))
         (sendBuf F (D_pack F DRowOwner m n k
                       (map (fun i => (i, B i)) rowsB) sendOffs)) /\
  Forall (fun w : Z * ValueIntPair F =>
            let e := snd w in
            0 <= indices0 F e < n /\ 0 <= indices1 F e < k /\
            value F e = X_sequential m n D (indices0 F e) (indices1 F e))
         (sendBuf F (X_pack F XRowOwner m n k
                       (map (fun i => (i, D i)) rowsD)
                       (mkPacking F sendOffs []))).
Proof.
  intros Hm Hn HB HD. split.
  - set (P := fun w : Z * ValueIntPair F =>
                let e := snd w in
                0 <= indices0 F e < m + n /\ 0 <= indices1 F e < k /\
                value F e = D_sequential m n B (indices0 F e) (indices1 F e)).
    assert (H : forall p,
              Forall P (sendBuf F p) ->
              Forall P (sendBuf F
                (fold_left
                   (fun (p : Packing F) (r : LocalRow F) =>
                      if m >=? n
                      then put_row F (DRowOwner (fst r)) (fst r) (snd r) k p
                      else put_row F (DRowOwner (fst r + n)) (fst r + n)
                                   (snd r) k p)
                   (map (fun i => (i, B i)) rowsB) p))).
    { induction HB as [|i rows Hi _ IH]; intros p Hp; cbn [map fold_left];
        [exact Hp|].
      apply IH. cbn [fst snd].
      destruct (m >=? n) eqn:Hgeb;
        (apply put_row_Forall; [exact Hp|]);
        intros j pos Hj; unfold P, D_sequential;
        cbn [snd indices0 indices1 value]; rewrite Hgeb.
      - replace (i <? m) with true by (symmetry; apply Z.ltb_lt; lia).
        repeat split; lia.
      - replace (n <=? i + n) with true by (symmetry; apply Z.leb_le; lia).
        replace (i + n - n) with i by lia. repeat split; lia. }
    apply H. constructor.
  - set (P := fun w : Z * ValueIntPair F =>
                let e := snd w in
                0 <= indices0 F e < n /\ 0 <= indices1 F e < k /\
                value F e = X_sequential m n D (indices0 F e) (indices1 F e)).
    assert (H : forall p,
              Forall P (sendBuf F p) ->
              Forall P (sendBuf F
                (X_pack F XRowOwner m n k (map (fun i => (i, D i)) rowsD) p))).
    { induction HD as [|i rows Hi _ IH]; intros p Hp; cbn [map X_pack];
        [exact Hp|].
      cbn [fst snd].
      destruct (m >=? n) eqn:Hgeb.
      - destruct (Z.geb_spec i m) as [Him|Him]; [|now apply IH].
        apply IH. apply put_row_Forall; [exact Hp|].
        intros j pos Hj. unfold P, X_sequential.
        cbn [snd indices0 indices1 value]. rewrite Hgeb.
        apply Z.geb_le in Hgeb.
        replace (m + (i - m)) with i by lia. repeat split; lia.
      - destruct (Z.ltb_spec i n) as [Hin|Hin]; [|exact Hp].
        apply IH. apply put_row_Forall; [exact Hp|].
        intros j pos Hj. unfold P, X_sequential.
        cbn [snd indices0 indices1 value]. rewrite Hgeb.
        repeat split; lia. }
    apply H. constructor.
Qed.

Lemma range_app (a b : Int) :
  0 <= a -> 0 <= b ->
  range (a + b) = range a ++ map (fun i => a + i) (range b).
Proof.
  intros Ha Hb. unfold range.
  replace (Z.to_nat (a + b)) with (Z.to_nat a + Z.to_nat b)%nat by lia.
  rewrite seq_app, map_app, map_map. f_equal.
  rewrite Nat.add_0_l.
  rewrite <- (Nat.add_0_r (Z.to_nat a)) at 1.
  rewrite Trr2k.seq_add_map, map_map. apply map_ext. intros i. lia.
Qed.

Lemma updates_of_put_row q i row k p :
  updates_of F (put_row F q i row k p)
  = updates_of F p ++ map (fun j => (i, j, row j)) (range k).
Proof.
  unfold put_row.
  rewrite (fold_updates F (fun p j => put F q (mkValueIntPair F i j (row j)) p)
             (fun j => [(i, j, row j)]))
    by (intros p' j; now rewrite updates_of_put).
  now rewrite (Nrm2.flat_map_singleton (fun j => (i, j, row j))).
Qed.

(** The rows of X, with their entries in the sequential version, in
    row-major order. *)
Definition X_entries (m n k : Int) (D : Int -> Int -> F)
  : list (Int * Int * F) :=
  flat_map (fun i => map (fun j => (i, j, X_sequential m n D i j)) (range k))
           (range n).

(** X24.  On a process that holds all m + n rows of D, in order, the
    pack loop of the extraction writes every entry of X once, row by row,
    each with the value the sequential version extracts; this holds for
    every m and n, square systems included. *)
Theorem one_process_extracts_all_of_X
  (m n k : Int) (D : Int -> Int -> F) (sendOffs : list Z) :
  0 <= m -> 0 <= n ->
  updates_of F
    (X_pack F XRowOwner m n k (map (fun i => (i, D i)) (range (m + n)))
            (mkPacking F sendOffs []))
  = X_entries m n k D.
Proof.
  intros Hm Hn. unfold X_entries, X_sequential.
  destruct (m >=? n) eqn:Hgeb.
  - assert (Hskip : forall l1 l2 p,
              Forall (fun i => i < m) l1 ->
              X_pack F XRowOwner m n k
                     (map (fun i => (i, D i)) l1 ++ l2) p
              = X_pack F XRowOwner m n k l2 p).
    { induction l1 as [|i l1 IH]; intros l2 p Hl; cbn [map app X_pack];
        [reflexivity|].
      inversion Hl as [|? ? Hi Hl']; subst. rewrite Hgeb. cbn [fst].
      destruct (Z.geb_spec i m); [lia|]. now apply IH. }
    assert (Htake : forall l p,
              Forall (fun i => 0 <= i) l ->
              X_pack F XRowOwner m n k
                     (map (fun i => (i, D i)) (map (fun i => m + i) l)) p
              = fold_left
                  (fun p i => put_row F (XRowOwner i) i (D (m + i)) k p)
                  l p).
    { induction l as [|i l IH]; intros p Hl; cbn [map X_pack fold_left];
        [reflexivity|].
      inversion Hl as [|? ? Hi Hl']; subst. rewrite Hgeb. cbn [fst snd].
      destruct (Z.geb_spec (m + i) m); [|lia].
      replace (m + i - m) with i by lia. now apply IH. }
    rewrite range_app, map_app by lia.
    rewrite Hskip
      by (apply Forall_forall; intros i Hi; apply In_range in Hi; lia).
    rewrite Htake
      by (apply Forall_forall; intros i Hi; apply In_range in Hi; lia).
    rewrite (fold_updates F
               (fun p i => put_row F (XRowOwner i) i (D (m + i)) k p)
               (fun i => map (fun j => (i, j, D (m + i) j)) (range k)))
      by (intros p i; apply updates_of_put_row).
    reflexivity.
  - assert (Hlt : m < n) by (destruct (Z.geb_spec m n); [discriminate|lia]).
    replace (m + n) with (n + m) by lia.
    rewrite range_app, map_app by lia.
    assert (Htake : forall l1 l2 p,
              Forall (fun i => i < n) l1 ->
              Forall (fun r : LocalRow F => n <= fst r) l2 ->
              X_pack F XRowOwner m n k
                     (map (fun i => (i, D i)) l1 ++ l2) p
              = fold_left (fun p i => put_row F (XRowOwner i) i (D i) k p)
                          l1 p).
    { induction l1 as [|i l1 IH]; intros l2 p Hl1 Hl2;
        cbn [map app fold_left].
      - destruct Hl2 as [|r l2 Hr _]; cbn [X_pack]; [reflexivity|].
        rewrite Hgeb. destruct (Z.ltb_spec (fst r) n); [lia|reflexivity].
      - inversion Hl1 as [|? ? Hi Hl1']; subst. cbn [X_pack fst snd].
        rewrite Hgeb. destruct (Z.ltb_spec i n); [|lia]. now apply IH. }
    rewrite Htake.
    + rewrite (fold_updates F
                 (fun p i => put_row F (XRowOwner i) i (D i) k p)
                 (fun i => map (fun j => (i, j, D i j)) (range k)))
        by (intros p i; apply updates_of_put_row).
      reflexivity.
    + apply Forall_forall. intros i Hi. apply In_range in Hi. lia.
    + apply Forall_forall. intros r Hr.
      apply in_map_iff in Hr. destruct Hr as (i & <- & Hi).
      apply in_map_iff in Hi. destruct Hi as (i' & <- & Hi').
      apply In_range in Hi'. cbn [fst]. lia.
Qed.

End Agreement.

(** *** A 3 x 2 system, and two processes *)

Definition A32 : SparseMatrix Z :=
  mkSparseMatrix Z 3 2 [(0, 0, 5); (2, 1, 7)].

(** Rows 0, 1 and 2 of a multivector belong to rank 0, the others to
    rank 1. *)
Definition owner_of (i : Int) : nat := if i <? 3 then 0%nat else 1%nat.

Definition row_of (i : Int) : LocalRow Z := (i, fun j => 10 * i + j).

Lemma J_queue_fills_the_reserve_witness :
  Z.of_nat (List.length (J_queue Z Z (fun v => v) (fun x => x) A32
                           (fun _ => 1) (fun _ => 1))) = 7.
Proof.
  apply (J_queue_fills_the_reserve Z Z (fun v => v) (fun x => x) A32
           (fun _ => 1) (fun _ => 1)).
  - unfold well_formed, A32. cbn [Height Width entries].
    repeat split; try lia. repeat constructor; lia.
  - reflexivity.
Defined.

Lemma J_and_D_pack_what_they_count_witness :
  List.length
    (sendBuf Z (D_pack Z owner_of 3 2 2 [row_of 0; row_of 1] [0; 4]))
  = 4%nat.
Proof.
  apply (J_and_D_pack_what_they_count Z Z (fun v => v) (fun x => x) 2
           owner_of owner_of 3 2 2 (entries Z A32) [(0, 1); (1, 1)] []
           [row_of 0; row_of 1] [0; 4]).
  - reflexivity.
  - lia.
Defined.

Lemma extraction_packs_what_it_counts_witness :
  nth 0 (offs Z (X_pack Z owner_of 3 2 2 [row_of 3; row_of 4]
                   (mkPacking Z [0; 4] []))) 0
  = nth 0 [0; 4] 0
    + nth 0 (X_sendCounts Z owner_of 3 2 2 [row_of 3; row_of 4]
               (repeat 0 2)) 0.
Proof.
  apply (extraction_packs_what_it_counts Z 2 owner_of 3 2 2
           [row_of 3; row_of 4] [0; 4]).
  - lia.
  - lia.
  - reflexivity.
Defined.

(** A 2 x 2 system with one right-hand side: the process that holds the
    rows 0 and 1 of D announces two entries and packs none. *)
Lemma extraction_counts_and_packs_differ_when_square_witness :
  X_pack Z owner_of 2 2 1 [row_of 0; row_of 1] (mkPacking Z [0; 2] [])
  = mkPacking Z [0; 2] [] /\
  total (X_sendCounts Z owner_of 2 2 1 [row_of 0; row_of 1] (repeat 0 2))
  = 1 * Z.of_nat 2.
Proof.
  apply (extraction_counts_and_packs_differ_when_square Z 2 owner_of 2 1
           [row_of 0; row_of 1] [0; 2]).
  repeat constructor; cbn; lia.
Defined.

Example square_extraction_on_two_processes :
  total (X_sendCounts Z owner_of 2 2 1 [row_of 0; row_of 1] (repeat 0 2)) = 2
  /\ sendBuf Z (X_pack Z owner_of 2 2 1 [row_of 0; row_of 1]
                  (mkPacking Z [0; 2] [])) = []
  /\ total (X_sendCounts Z owner_of 2 2 1 [row_of 2; row_of 3] (repeat 0 2))
     = 0
  /\ map fst (sendBuf Z (X_pack Z owner_of 2 2 1 [row_of 2; row_of 3]
                           (mkPacking Z [0; 0] []))) = [0; 1].
Proof. repeat split. Qed.

Lemma distributed_J_is_the_sequential_J_witness :
  updates_of Z
    (J_pack Z Z (fun v => v) (fun x => x) owner_of 3 2 (entries Z A32)
            (map (fun e => (e, 1)) (range 3))
            (map (fun e => (e, 1)) (range 2)) [0; 0])
  = J_queue Z Z (fun v => v) (fun x => x) A32 (fun _ => 1) (fun _ => 1).
Proof.
  apply (distributed_J_is_the_sequential_J Z Z (fun v => v) (fun x => x)
           owner_of A32 (fun _ => 1) (fun _ => 1) [0; 0]).
  cbn. lia.
Defined.

(** The rows 2 and 3 of D in a 2 x 2 system with one right-hand side. *)
Lemma sent_entries_are_the_sequential_entries_witness :
  Forall (fun w : Z * ValueIntPair Z =>
            value Z (snd w)
            = X_sequential Z 2 2 (fun i j => 10 * i + j)
                           (indices0 Z (snd w)) (indices1 Z (snd w)))
         (sendBuf Z (X_pack Z owner_of 2 2 1
                       (map (fun i => (i, fun j => 10 * i + j)) [2; 3])
                       (mkPacking Z [0; 0] []))).
Proof.
  destruct (sent_entries_are_the_sequential_entries Z 0 owner_of owner_of
              2 2 1 (fun i j => 10 * i + j) (fun i j => 10 * i + j)
              [0; 1] [2; 3] [0; 0]) as [_ HX].
  - lia.
  - lia.
  - repeat constructor; lia.
  - repeat constructor; lia.
  - eapply Forall_impl; [|exact HX]. intros w (_ & _ & Hv). exact Hv.
Defined.

(** A 2 x 2 system with one right-hand side on one process: X is the
    rows 2 and 3 of D. *)
Lemma one_process_extracts_all_of_X_witness :
  updates_of Z
    (X_pack Z (fun _ => 0%nat) 2 2 1
            (map (fun i => (i, fun j => 10 * i + j)) (range (2 + 2)))
            (mkPacking Z [0] []))
  = [(0, 0, 20); (1, 0, 30)].
Proof.
  apply (one_process_extracts_all_of_X Z (fun _ => 0%nat) 2 2 1
           (fun i j => 10 * i + j) [0]); lia.
Defined.

End LeastSquares.
